(** * RepoPilot: the repository structural-analysis engine of [main.py]

    A shallow embedding of [RepoAnalysis] (per-file extractors, the file
    tree builder, the report assembler and the tour generator) and of the
    [/analyze-repo] endpoint, followed by the properties of the
    specification that were checked against it. *)

From Stdlib Require Import ZArith Lia Ascii String.
From stdpp Require Import base list strings gmap sets sorting pretty.
From Equations Require Import Equations.

#[local] Set Warnings "-clear-no-such-hyp".

Local Open Scope string_scope.
Local Open Scope Z_scope.
Local Open Scope list_scope.

(** ** Python values used by the program *)

Module Py.

(** Exceptions, all of them subclasses of [Exception].  Each one carries
    the attributes the program reads. *)
Inductive exn :=
| HTTPException (status_code : Z) (detail : string)
| CalledProcessError (returncode : Z) (cmd stderr : string)
| PermissionError (msg : string)
| OtherException (msg : string).

(** [str(e)].  For [HTTPException] this is Starlette's
    [f"{status_code}: {detail}"]; [cmd] is the text of the command list. *)
Definition str (e : exn) : string :=
  match e with
  | HTTPException status_code detail => pretty status_code +:+ ": " +:+ detail
  | CalledProcessError returncode cmd _ =>
      "Command '" +:+ cmd +:+ "' returned non-zero exit status "
        +:+ pretty returncode +:+ "."
  | PermissionError msg => msg
  | OtherException msg => msg
  end.

(** [s.split(sep)] for a one-character separator: never empty. *)
Fixpoint split (sep : ascii) (s : string) : list string :=
  match s with
  | EmptyString => [EmptyString]
  | String c s' =>
      if Ascii.eqb c sep then EmptyString :: split sep s'
      else match split sep s' with
           | seg :: segs => String c seg :: segs
           | [] => [String c EmptyString]
           end
  end.

(** [xs[0]] on a list of strings known to be non-empty. *)
Definition item0 (xs : list string) : string := hd EmptyString xs.

(** [c in s] for a character. *)
Fixpoint contains (c : ascii) (s : string) : bool :=
  match s with
  | EmptyString => false
  | String c' s' => Ascii.eqb c' c || contains c s'
  end.

(** [s.startswith(p)]. *)
Definition startswith (p s : string) : bool := String.prefix p s.

(** A [string] holds the UTF-8 encoding of a Python [str]: a character
    starts at every byte that is not a continuation byte [10xxxxxx]. *)
Definition is_continuation (c : ascii) : bool :=
  let n := N_of_ascii c in (128 <=? n)%N && (n <? 192)%N.

(** [len(s)]: the number of characters. *)
Fixpoint len (s : string) : nat :=
  match s with
  | EmptyString => O
  | String c s' => if is_continuation c then len s' else S (len s')
  end.

(** [s[:stop]]: the first [stop] characters, each with all its bytes. *)
Fixpoint slice_to (stop : nat) (s : string) : string :=
  match s with
  | EmptyString => EmptyString
  | String c s' =>
      if is_continuation c then String c (slice_to stop s')
      else match stop with
           | O => EmptyString
           | S stop' => String c (slice_to stop' s')
           end
  end.

(** The characters of [s], as [for ch in s] yields them: every byte
    that starts a character with the continuation bytes that follow it.
    The first component is the continuation bytes [s] starts with, which
    an encoded text has none of. *)
Fixpoint chars_from (s : string) : string * list string :=
  match s with
  | EmptyString => (EmptyString, [])
  | String c s' =>
      let '(continuation, cs) := chars_from s' in
      if is_continuation c then (String c continuation, cs)
      else (EmptyString, String c continuation :: cs)
  end.

Definition chars (s : string) : list string := (chars_from s).2.

(** The number of bytes of the line boundary of [str.splitlines] that
    [s] starts with, and [O] when it starts with none.  The boundaries
    are line feed, vertical tab, form feed, carriage return (with a line
    feed that directly follows it), the file, group and record
    separators, and the characters U+0085, U+2028 and U+2029, which are
    encoded as [C2 85], [E2 80 A8] and [E2 80 A9]. *)
Definition linebreak_length (s : string) : nat :=
  match s with
  | EmptyString => O
  | String c s' =>
      let n := N_of_ascii c in
      if (n =? 13)%N then
        match s' with
        | String c' _ => if (N_of_ascii c' =? 10)%N then 2%nat else 1%nat
        | EmptyString => 1%nat
        end
      else if (n =? 10)%N || (n =? 11)%N || (n =? 12)%N
              || (n =? 28)%N || (n =? 29)%N || (n =? 30)%N then 1%nat
      else if (n =? 194)%N then
        match s' with
        | String c' _ => if (N_of_ascii c' =? 133)%N then 2%nat else O
        | EmptyString => O
        end
      else if (n =? 226)%N then
        match s' with
        | String c1 (String c2 _) =>
            if (N_of_ascii c1 =? 128)%N
               && ((N_of_ascii c2 =? 168)%N || (N_of_ascii c2 =? 169)%N)
            then 3%nat else O
        | _ => O
        end
      else O
  end.

(** [len(s.splitlines())]: [open] tells whether the line being read has
    a character yet, [skip] how many bytes of a boundary already counted
    are still to be passed. *)
Fixpoint count_lines_from (open : bool) (skip : nat) (s : string) : Z :=
  match s with
  | EmptyString => if open then 1 else 0
  | String c s' =>
      match skip with
      | S skip' => count_lines_from open skip' s'
      | O =>
          match linebreak_length s with
          | O => count_lines_from true O s'
          | S skip' => 1 + count_lines_from false skip' s'
          end
      end
  end.

Definition count_lines (s : string) : Z := count_lines_from false O s.

(** [content[:200] + '...' if len(content) > 200 else content]. *)
Definition content_preview (content : string) : string :=
  if (200 <? Z.of_nat (len content))%Z
  then slice_to 200 content +:+ "..."
  else content.

(** [sep.join(xs)]. *)
Definition join (sep : string) (xs : list string) : string :=
  String.concat sep xs.

(** [sorted(xs)] on strings: stable, ascending by code point. *)
Definition sorted (xs : list string) : list string :=
  merge_sort String.le xs.

(** [s.rfind(c)], with [None] for -1. *)
Fixpoint rfind (c : ascii) (s : string) : option nat :=
  match s with
  | EmptyString => None
  | String c' s' =>
      match rfind c s' with
      | Some i => Some (S i)
      | None => if Ascii.eqb c' c then Some O else None
      end
  end.

(** [Path.suffix] of a path whose final component is [name]: the text
    from the last dot, unless that dot starts or ends the name. *)
Definition suffix (name : string) : string :=
  match rfind "." name with
  | Some i =>
      if ((0 <? i)%nat && (i <? String.length name - 1)%nat)%bool
      then String.substring i (String.length name - i) name
      else EmptyString
  | None => EmptyString
  end.

(** A [dict] with string keys: insertion ordered; assigning to a key
    that is present keeps its position. *)
Fixpoint dict_set {V} (k : string) (v : V) (d : list (string * V)) :
    list (string * V) :=
  match d with
  | [] => [(k, v)]
  | (k', v') :: d' =>
      if String.eqb k' k then (k, v) :: d' else (k', v') :: dict_set k v d'
  end.

End Py.

(** ** The syntax trees of Python's [ast] module *)

Module Ast.

(** The node classes [analyze_python_file] tests for, and [Other] for
    every other class (modules, statements with bodies, expressions,
    [alias] and [arguments] nodes). *)
#[warnings="-register-all"]
Inductive node :=
| Import (names : list string)
| ImportFrom (module : option string) (names : list string)
| ClassDef (name : string) (lineno : Z)
    (bases body decorator_list : list node)
| FunctionDef (name : string) (lineno : Z) (args : list string)
    (body decorator_list : list node)
| Other (children : list node).

Definition alias_node (_ : string) : node := Other [].

(** [ast.iter_child_nodes]: the child nodes in field order. *)
Definition iter_child_nodes (n : node) : list node :=
  match n with
  | Import names => alias_node <$> names
  | ImportFrom _ names => alias_node <$> names
  | ClassDef _ _ bases body decorator_list =>
      bases ++ body ++ decorator_list
  | FunctionDef _ _ args body decorator_list =>
      Other (alias_node <$> args) :: body ++ decorator_list
  | Other children => children
  end.

Fixpoint size (n : node) : nat :=
  let forest := fix forest (ns : list node) : nat :=
    match ns with
    | [] => O
    | n' :: ns' => (size n' + forest ns')%nat
    end in
  match n with
  | Import names => S (length names)
  | ImportFrom _ names => S (length names)
  | ClassDef _ _ bases body decorator_list =>
      S (forest bases + (forest body + forest decorator_list))
  | FunctionDef _ _ args body decorator_list =>
      S (S (length args) + (forest body + forest decorator_list))
  | Other children => S (forest children)
  end.

Fixpoint forest_size (ns : list node) : nat :=
  match ns with
  | [] => O
  | n :: ns' => (size n + forest_size ns')%nat
  end.

Lemma forest_size_app ns1 ns2 :
  forest_size (ns1 ++ ns2) = (forest_size ns1 + forest_size ns2)%nat.
Proof. induction ns1 as [|n ns1 IH]; simpl; [done | rewrite IH; lia]. Qed.

Lemma forest_size_alias (xs : list string) :
  forest_size (alias_node <$> xs) = length xs.
Proof. induction xs as [|x xs IH]; csimpl; [done | by rewrite IH]. Qed.

Lemma size_forest (ns : list node) :
  (fix forest (ns : list node) : nat :=
     match ns with
     | [] => O
     | n' :: ns' => (size n' + forest ns')%nat
     end) ns = forest_size ns.
Proof. induction ns as [|n ns IH]; simpl; [done | by rewrite IH]. Qed.

Lemma size_children n : size n = S (forest_size (iter_child_nodes n)).
Proof.
  destruct n; simpl;
    rewrite ?size_forest, ?forest_size_app, ?forest_size_alias; done.
Qed.

(** The queue loop of [ast.walk]: pop the first node, push its children
    at the back, yield it. *)
Equations? walk_queue (todo : list node) : list node
  by wf (forest_size todo) lt :=
  walk_queue [] := [];
  walk_queue (n :: todo) := n :: walk_queue (todo ++ iter_child_nodes n).
Proof. rewrite forest_size_app, (size_children n). lia. Qed.

Definition walk (n : node) : list node := walk_queue [n].

End Ast.

(** ** [class RepoAnalysis] *)

Module RepoAnalysis.
Import Py Ast.

(** Library calls that are not modelled further: [ast.parse], the three
    [re.findall] searches of [analyze_javascript_file] (the second one
    yields a pair of groups per match), and [str.lower], which follows
    the case mappings of Unicode. *)
Class Library := {
  lower : string → string;
  ast_parse : string → exn + node;
  findall_imports : string → list string;
  findall_functions : string → list (string * string);
  findall_classes : string → list string }.

Record class_info := ClassInfo {
  c_name : string; c_line : Z; c_methods : list string }.

Record function_info := FunctionInfo {
  f_name : string; f_line : Z; f_args : list string }.

(** The dictionaries returned by the [analyze_*] methods. *)
Inductive analysis :=
| PythonAnalysis (lines : Z) (imports : list string)
    (classes : list class_info) (functions : list function_info)
    (content_preview : string)
| JavascriptAnalysis (lines : Z) (imports functions classes : list string)
    (content_preview : string)
| ErrorAnalysis (type error : string)
| TextAnalysis (lines : Z) (content_preview : string)
| BinaryAnalysis.

Definition a_type (a : analysis) : string :=
  match a with
  | PythonAnalysis _ _ _ _ _ => "python"
  | JavascriptAnalysis _ _ _ _ _ => "javascript"
  | ErrorAnalysis type _ => type
  | TextAnalysis _ _ => "text"
  | BinaryAnalysis => "binary"
  end.

Definition a_lines (a : analysis) : Z :=
  match a with
  | PythonAnalysis lines _ _ _ _ => lines
  | JavascriptAnalysis lines _ _ _ _ => lines
  | ErrorAnalysis _ _ => 0
  | TextAnalysis lines _ => lines
  | BinaryAnalysis => 0
  end.

Definition a_error (a : analysis) : option string :=
  match a with
  | ErrorAnalysis _ error => Some error
  | _ => None
  end.

Definition a_preview (a : analysis) : option string :=
  match a with
  | PythonAnalysis _ _ _ _ p | JavascriptAnalysis _ _ _ _ p
  | TextAnalysis _ p => Some p
  | ErrorAnalysis _ _ | BinaryAnalysis => None
  end.

(** Whether the dictionary carries the structural fields (imports,
    classes, functions). *)
Definition has_summary (a : analysis) : bool :=
  match a with
  | PythonAnalysis _ _ _ _ _ | JavascriptAnalysis _ _ _ _ _ => true
  | _ => false
  end.

(** The tree of [build_file_tree]: a dictionary from entry names to
    file or directory dictionaries. *)
#[warnings="-register-all"]
Inductive tnode :=
| FileNode (path : string) (a : analysis)
| DirectoryNode (children : list (string * tnode)).

Abbreviation file_tree := (list (string * tnode)).

(** The attributes of [self] that the methods read and write. *)
Record state := State {
  structure : file_tree;
  dependencies : gset string;
  total_lines : Z;
  total_files : Z }.

(** [RepoAnalysis(repo_path)]. *)
Definition init : state := State [] ∅ 0 0.

Definition set_structure (t : file_tree) (st : state) : state :=
  State t (dependencies st) (total_lines st) (total_files st).
Definition add_dependency (d : string) (st : state) : state :=
  State (structure st) ({[d]} ∪ dependencies st) (total_lines st)
    (total_files st).
Definition add_lines (n : Z) (st : state) : state :=
  State (structure st) (dependencies st) (total_lines st + n)
    (total_files st).
Definition incr_files (st : state) : state :=
  State (structure st) (dependencies st) (total_lines st)
    (total_files st + 1).

(** *** The workspace on disk *)

(** What the file system holds at a path: a regular file with the
    outcome of reading it as UTF-8 text, a directory with its entries
    (or with the exception that listing it raises), an entry whose
    [stat] raises, or something that is neither file nor directory. *)
#[warnings="-register-all"]
Inductive path_obj :=
| RegularFile (data : exn + string)
| Directory (entries : list (string * path_obj))
| DirectoryRaises (e : exn)
| Unstatable (e : exn)
| Special.

(** A [Path] below the repository root: its components relative to
    [repo_path], and what is there. *)
Record path := Path { rel : list string; obj : path_obj }.

(** [item.name]. *)
Definition name (p : path) : string := List.last (rel p) "".

(** [str(item.relative_to(self.repo_path))]. *)
Definition relative_to_root (p : path) : string :=
  match rel p with
  | [] => "."
  | parts => join "/" parts
  end.

(** [path.iterdir()], consumed entirely (as [sorted] does). *)
Definition iterdir (p : path) : exn + list path :=
  match obj p with
  | Directory entries =>
      inr ((λ e : string * path_obj, Path (rel p ++ [e.1]) e.2) <$> entries)
  | DirectoryRaises e => inl e
  | Unstatable e => inl e
  | RegularFile _ | Special => inl (OtherException "Not a directory")
  end.

(** [sorted(...)] on the paths of one directory: by name. *)
Definition sorted (items : list path) : list path :=
  merge_sort (λ p q, String.le (name p) (name q)) items.

(** *** [analyze_python_file] *)

(** The local lists of the walk. *)
Record py_lists := PyLists {
  imports : list string;
  classes : list class_info;
  functions : list function_info }.

Definition method_names (body : list node) : list string :=
  omap (λ n, match n with
             | FunctionDef name _ _ _ _ => Some name
             | _ => None
             end) body.

(** One iteration of [for node in ast.walk(tree)]. *)
Definition visit (acc : py_lists * state) (n : node) : py_lists * state :=
  let '(l, st) := acc in
  match n with
  | Import names =>
      foldl (λ '(l, st) name,
          (PyLists (imports l ++ [name]) (classes l) (functions l),
           add_dependency (item0 (split "." name)) st))
        (l, st) names
  | ImportFrom module _ =>
      match module with
      | Some (String c m as module) =>
          (PyLists (imports l ++ ["from " +:+ module]) (classes l)
             (functions l),
           add_dependency (item0 (split "." module)) st)
      | _ => (l, st)
      end
  | ClassDef name lineno _ body _ =>
      (PyLists (imports l)
         (classes l ++ [ClassInfo name lineno (method_names body)])
         (functions l), st)
  | FunctionDef name lineno args _ _ =>
      if existsb (λ cls, c_line cls <=? lineno) (classes l)
      then (l, st)
      else (PyLists (imports l) (classes l)
              (functions l ++ [FunctionInfo name lineno args]), st)
  | Other _ => (l, st)
  end.

Definition walk_loop (nodes : list node) (st : state) : py_lists * state :=
  foldl visit (PyLists [] [] [], st) nodes.

Section WithLibrary.
Context `{Library}.

(** [data] is what [open(...)]/[f.read()] gives for the file: its
    decoded content, or the exception raised. *)
Definition analyze_python_file (data : exn + string) (st : state) :
    analysis * state :=
  match data with
  | inl e => (ErrorAnalysis "python" (str e), st)
  | inr content =>
      match ast_parse content with
      | inl e => (ErrorAnalysis "python" (str e), st)
      | inr tree =>
          let '(l, st) := walk_loop (walk tree) st in
          let lines := count_lines content in
          (PythonAnalysis lines (imports l) (classes l) (functions l)
             (content_preview content),
           add_lines lines st)
      end
  end.

(** *** [analyze_javascript_file] *)

Definition analyze_javascript_file (data : exn + string) (st : state) :
    analysis * state :=
  match data with
  | inl e => (ErrorAnalysis "javascript" (str e), st)
  | inr content =>
      let imports := findall_imports content in
      let functions := findall_functions content in
      let classes := findall_classes content in
      let st :=
        foldl (λ st imp,
            add_dependency
              (if contains "/" imp then item0 (split "/" imp) else imp)
              st)
          st imports in
      let lines := count_lines content in
      (JavascriptAnalysis lines imports
         ((λ f, if decide (f.1 = "") then f.2 else f.1) <$> functions)
         classes (content_preview content),
       add_lines lines st)
  end.

(** *** [analyze_file] *)

(** [name] is the final component of [file_path]. *)
Definition analyze_file (name : string) (data : exn + string)
    (st : state) : analysis * state :=
  let suffix := lower (suffix name) in
  if decide (suffix = ".py") then analyze_python_file data st
  else if decide (suffix ∈ [".js"; ".jsx"; ".ts"; ".tsx"]) then
    analyze_javascript_file data st
  else
    match data with
    | inr content =>
        let lines := count_lines content in
        (TextAnalysis lines (content_preview content), add_lines lines st)
    | inl _ => (BinaryAnalysis, st)
    end.

(** *** [build_file_tree] *)

(** [item.name.startswith('.') or item.name in [...]]. *)
Definition ignored (name : string) : bool :=
  startswith "." name
  || bool_decide (name ∈ ["node_modules"; "__pycache__"; "venv"]).

(** The body of [for item in sorted(path.iterdir())], run on the items
    left; [recurse] is the recursive call.  The result is the
    exception that ended the loop, if any, with the local [tree] and
    [self] as they are at that point. *)
Fixpoint tree_loop (recurse : path → state → (exn + file_tree) * state)
    (items : list path) (tree : file_tree) (st : state) :
    option exn * file_tree * state :=
  match items with
  | [] => (None, tree, st)
  | item :: items' =>
      if ignored (name item) then tree_loop recurse items' tree st
      else
        match obj item with
        | Unstatable e => (Some e, tree, st)
        | RegularFile data =>
            let st := incr_files st in
            let '(file_analysis, st) := analyze_file (name item) data st in
            tree_loop recurse items'
              (dict_set (name item)
                 (FileNode (relative_to_root item) file_analysis) tree)
              st
        | Directory _ | DirectoryRaises _ =>
            match recurse item st with
            | (inl e, st) => (Some e, tree, st)
            | (inr subtree, st) =>
                tree_loop recurse items'
                  (match subtree with
                   | [] => tree
                   | _ => dict_set (name item) (DirectoryNode subtree) tree
                   end)
                  st
            end
        | Special => tree_loop recurse items' tree st
        end
  end.

(** [except PermissionError: pass], then [return tree]; any other
    exception leaves the method. *)
Definition except_PermissionError (e : exn) (tree : file_tree) (st : state) :
    (exn + file_tree) * state :=
  match e with
  | PermissionError _ => (inr tree, st)
  | _ => (inl e, st)
  end.

Equations? build_file_tree (path : path) (max_depth current_depth : Z)
    (st : state) : (exn + file_tree) * state
  by wf (Z.to_nat (max_depth + 1 - current_depth)) lt :=
  build_file_tree path max_depth current_depth st with decide (current_depth > max_depth) := {
    | left _ => (inr [], st)
    | right _ =>
        match iterdir path with
        | inl e => except_PermissionError e [] st
        | inr items =>
            let '(raised, tree, st) :=
              tree_loop
                (λ item st,
                  build_file_tree item max_depth (current_depth + 1) st)
                (sorted items) [] st in
            match raised with
            | Some e => except_PermissionError e tree st
            | None => (inr tree, st)
            end
        end }.
Proof. lia. Qed.

(** *** [generate_repo_map] *)

Record statistics := Statistics {
  stat_total_files : Z;
  stat_total_lines : Z;
  top_dependencies : list string }.

Record repo_map := RepoMap {
  repository_structure : file_tree;
  map_statistics : statistics;
  metadata_repo_path : string;
  analyzed_file_types : list string }.

(** [sorted(list(self.dependencies))[:n]]. *)
Definition sorted_dependencies (n : nat) (st : state) : list string :=
  take n (Py.sorted (elements (dependencies st))).

(** [repo_path] is the workspace directory and [root] what it holds. *)
Definition generate_repo_map (repo_path : string) (root : path_obj)
    (st : state) : (exn + repo_map) * state :=
  match build_file_tree (Path [] root) 4 0 st with
  | (inl e, st) => (inl e, st)
  | (inr tree, st) =>
      let st := set_structure tree st in
      let top_deps := sorted_dependencies 10 st in
      (inr (RepoMap (structure st)
              (Statistics (total_files st) (total_lines st) top_deps)
              repo_path
              [".py"; ".js"; ".jsx"; ".ts"; ".tsx"; ".json"; ".md"]),
       st)
  end.

End WithLibrary.

(** *** [generate_repo_tour] *)

Definition nl : string := String (ascii_of_nat 10) EmptyString.

Fixpoint indent (level : nat) : string :=
  match level with
  | O => EmptyString
  | S level' => "  " +:+ indent level'
  end.

(** The line of [explain_directory] for a file. *)
Definition explain_file (level : nat) (name : string) (analysis : analysis) :
    string :=
  match analysis with
  | PythonAnalysis _ _ (c :: cs) _ _ =>
      indent level +:+ "- **" +:+ name +:+ "** - Python module with "
        +:+ pretty (Z.of_nat (length (c :: cs))) +:+ " classes" +:+ nl
  | JavascriptAnalysis _ _ (f :: fs) _ _ =>
      indent level +:+ "- **" +:+ name +:+ "** - JavaScript file with "
        +:+ pretty (Z.of_nat (length (f :: fs))) +:+ " functions" +:+ nl
  | _ =>
      indent level +:+ "- **" +:+ name +:+ "** - "
        +:+ pretty (a_lines analysis) +:+ " lines" +:+ nl
  end.

(** One iteration of the loop of [explain_directory]. *)
Fixpoint explain_entry (level : nat) (name : string) (info : tnode) : string :=
  match info with
  | DirectoryNode children =>
      indent level +:+ "- **" +:+ name +:+ "/** - Directory containing:"
        +:+ nl
        +:+ (fix explain_children (tree : file_tree) : string :=
               match tree with
               | [] => EmptyString
               | (name', info') :: tree' =>
                   explain_entry (S level) name' info'
                     +:+ explain_children tree'
               end) children
  | FileNode _ analysis => explain_file level name analysis
  end.

Fixpoint explain_directory (tree : file_tree) (level : nat) : string :=
  match tree with
  | [] => EmptyString
  | (name, info) :: tree' =>
      explain_entry level name info +:+ explain_directory tree' level
  end.

Definition is_file_node (info : tnode) : bool :=
  match info with
  | FileNode _ _ => true
  | DirectoryNode _ => false
  end.

Definition main_files (tree : file_tree) : list string :=
  (filter (λ e : string * tnode,
       is_file_node e.2 = true
       ∧ e.1 ∈ ["main.py"; "app.py"; "index.js"; "index.tsx";
                 "package.json"]) tree).*1.

(** The names shown after "Key Dependencies:". *)
Definition key_dependencies (st : state) : list string :=
  sorted_dependencies 5 st.

Definition tour_overview (st : state) : string :=
  "# Repository Tour" +:+ nl +:+ nl
  +:+ "## 🏗️ Project Overview" +:+ nl
  +:+ "This repository contains **" +:+ pretty (total_files st)
  +:+ " files** with **" +:+ pretty (total_lines st)
  +:+ " lines of code**." +:+ nl +:+ nl
  +:+ "## 📊 Quick Stats" +:+ nl
  +:+ "- **Total Files:** " +:+ pretty (total_files st) +:+ nl
  +:+ "- **Lines of Code:** " +:+ pretty (total_lines st) +:+ nl.

Definition tour_structure_heading : string :=
  nl +:+ nl +:+ "## 🗂️ Repository Structure" +:+ nl +:+ nl.

Definition tour_header (st : state) : string :=
  tour_overview st
  +:+ "- **Key Dependencies:** " +:+ join ", " (key_dependencies st)
  +:+ tour_structure_heading.

Definition tour_getting_started : string :=
  nl +:+ nl +:+ "## 🚀 Getting Started" +:+ nl +:+ nl
  +:+ "Based on the repository analysis, here's how the code is organized:"
  +:+ nl +:+ nl.

Definition tour_key_files (files : list string) : string :=
  match files with
  | [] => EmptyString
  | _ =>
      "### Key Files:" +:+ nl
      +:+ foldl (λ tour file,
            tour +:+ "- **" +:+ file
              +:+ "** - Entry point or configuration file" +:+ nl)
          EmptyString files
  end.

Definition tour_architecture : string :=
  nl +:+ "## 🔧 Code Architecture" +:+ nl +:+ nl
  +:+ "The codebase follows standard conventions with clear separation of concerns. Key patterns identified:"
  +:+ nl +:+ nl
  +:+ "- **Modular Structure** - Code is organized into logical modules" +:+ nl
  +:+ "- **Configuration Management** - Settings and dependencies are properly managed"
  +:+ nl
  +:+ "- **Clean Interfaces** - Functions and classes have clear responsibilities"
  +:+ nl +:+ nl
  +:+ "## 📚 Dependencies" +:+ nl +:+ nl
  +:+ "This project relies on several key libraries:" +:+ nl.

Definition generate_repo_tour (st : state) : string :=
  let tour := tour_header st in
  let tour := tour +:+ explain_directory (structure st) 0 in
  let tour := tour +:+ tour_getting_started in
  let tour := tour +:+ tour_key_files (main_files (structure st)) in
  let tour := tour +:+ tour_architecture in
  foldl (λ tour dep, tour +:+ "- `" +:+ dep +:+ "`" +:+ nl) tour
    (sorted_dependencies 10 st).

End RepoAnalysis.

(** ** The [/analyze-repo] endpoint *)

Module Endpoint.
Import Py RepoAnalysis.

(** The directories on disk that were made by [tempfile.mkdtemp]. *)
Abbreviation disk := (gset string).

(** What one request meets outside the program: the directory name that
    [tempfile.mkdtemp] hands out, how [git clone] ends: with the content
    of the checked-out directory, or with an exception of
    [subprocess.run], and the exception with which [shutil.rmtree] ends
    on that directory, if it does not remove it (it raises at the first
    entry that it cannot open or unlink). *)
Record environment := Environment {
  mkdtemp : string;
  git_clone : exn + path_obj;
  rmtree_raises : option exn }.

(** [clone_repository]: only [CalledProcessError] is translated. *)
Definition clone_repository (env : environment) (d : disk) :
    (exn + string) * disk :=
  let temp_dir := mkdtemp env in
  let d := {[temp_dir]} ∪ d in
  match git_clone env with
  | inr _ => (inr temp_dir, d)
  | inl (CalledProcessError _ _ stderr) =>
      (inl (HTTPException 400 ("Failed to clone repository: " +:+ stderr)), d)
  | inl e => (inl e, d)
  end.

(** [shutil.rmtree(repo_path)]: the directory is gone, or the call
    raises and the directory is still there. *)
Definition rmtree (env : environment) (repo_path : string) (d : disk) :
    (exn + unit) * disk :=
  match rmtree_raises env with
  | Some e => (inl e, d)
  | None => (inr (), d ∖ {[repo_path]})
  end.

(** The dictionaries the handler returns. *)
Inductive body :=
| Success (repo_map : repo_map) (repo_tour : string) (repo_url : string)
| Failure (error : string).

Definition success (b : body) : bool :=
  match b with
  | Success _ _ _ => true
  | Failure _ => false
  end.

Section WithLibrary.
Context `{Library}.

(** The [try] block of [analyze_repository]. *)
Definition analyze_repository_try (repo_url : string) (env : environment)
    (d : disk) : (exn + body) * disk :=
  match clone_repository env d with
  | (inl e, d) => (inl e, d)
  | (inr repo_path, d) =>
      let root := match git_clone env with
                  | inr root => root
                  | inl _ => Directory []
                  end in
      let analyzer := init in
      match generate_repo_map repo_path root analyzer with
      | (inl e, _) => (inl e, d)
      | (inr repo_map, analyzer) =>
          let repo_tour := generate_repo_tour analyzer in
          match rmtree env repo_path d with
          | (inl e, d) => (inl e, d)
          | (inr _, d) => (inr (Success repo_map repo_tour repo_url), d)
          end
      end
  end.

(** [analyze_repository]: [except Exception as e] turns every
    exception of the block into the failure dictionary. *)
Definition analyze_repository (repo_url : string) (env : environment)
    (d : disk) : body * disk :=
  match analyze_repository_try repo_url env d with
  | (inr b, d) => (b, d)
  | (inl e, d) => (Failure (str e), d)
  end.

(** What FastAPI sends for a handler: status 200 with the returned
    dictionary; had the handler raised, the status of an
    [HTTPException], and 500 for any other exception. *)
Definition status_of (r : exn + body) : Z :=
  match r with
  | inr _ => 200
  | inl (HTTPException status_code _) => status_code
  | inl _ => 500
  end.

Definition response_status (repo_url : string) (env : environment)
    (d : disk) : Z :=
  status_of (inr (analyze_repository repo_url env d).1).

End WithLibrary.

End Endpoint.

(** ** Observations on trees, workspaces and syntax trees

    The measures and predicates in which the properties below are
    stated. *)

Module Observe.
Import Py Ast RepoAnalysis.

(** The number of file nodes of a tree, and the sum of their [lines]. *)
Fixpoint count_files_node (info : tnode) : Z :=
  match info with
  | FileNode _ _ => 1
  | DirectoryNode children =>
      (fix go (tree : file_tree) : Z :=
         match tree with
         | [] => 0
         | (_, info') :: tree' => count_files_node info' + go tree'
         end) children
  end.

Fixpoint count_files (tree : file_tree) : Z :=
  match tree with
  | [] => 0
  | (_, info) :: tree' => count_files_node info + count_files tree'
  end.

Fixpoint sum_lines_node (info : tnode) : Z :=
  match info with
  | FileNode _ a => a_lines a
  | DirectoryNode children =>
      (fix go (tree : file_tree) : Z :=
         match tree with
         | [] => 0
         | (_, info') :: tree' => sum_lines_node info' + go tree'
         end) children
  end.

Fixpoint sum_lines (tree : file_tree) : Z :=
  match tree with
  | [] => 0
  | (_, info) :: tree' => sum_lines_node info + sum_lines tree'
  end.

(** How many directory nodes are nested in one another. *)
Fixpoint height_node (info : tnode) : nat :=
  match info with
  | FileNode _ _ => O
  | DirectoryNode children =>
      S ((fix go (tree : file_tree) : nat :=
            match tree with
            | [] => O
            | (_, info') :: tree' => Nat.max (height_node info') (go tree')
            end) children)
  end.

Fixpoint height (tree : file_tree) : nat :=
  match tree with
  | [] => O
  | (_, info) :: tree' => Nat.max (height_node info) (height tree')
  end.

(** No directory node, at any depth, has an empty child mapping. *)
Fixpoint no_empty_directory_node (info : tnode) : bool :=
  match info with
  | FileNode _ _ => true
  | DirectoryNode children =>
      match children with [] => false | _ => true end
      && (fix go (tree : file_tree) : bool :=
            match tree with
            | [] => true
            | (_, info') :: tree' => no_empty_directory_node info' && go tree'
            end) children
  end.

Fixpoint no_empty_directory (tree : file_tree) : bool :=
  match tree with
  | [] => true
  | (_, info) :: tree' =>
      no_empty_directory_node info && no_empty_directory tree'
  end.

(** Every key of the tree, at any depth, satisfies [ok]. *)
Fixpoint keys_ok_node (ok : string → bool) (info : tnode) : bool :=
  match info with
  | FileNode _ _ => true
  | DirectoryNode children =>
      (fix go (tree : file_tree) : bool :=
         match tree with
         | [] => true
         | (k, info') :: tree' => ok k && keys_ok_node ok info' && go tree'
         end) children
  end.

Fixpoint keys_ok (ok : string → bool) (tree : file_tree) : bool :=
  match tree with
  | [] => true
  | (k, info) :: tree' => ok k && keys_ok_node ok info && keys_ok ok tree'
  end.

(** The names within each directory of the workspace are distinct, as
    they are on a file system. *)
Fixpoint unique_names (o : path_obj) : bool :=
  match o with
  | Directory entries =>
      bool_decide (NoDup entries.*1)
      && forallb (λ e, unique_names e.2) entries
  | _ => true
  end.

(** No listing and no [stat] in the workspace raises. *)
Fixpoint listable (o : path_obj) : bool :=
  match o with
  | Directory entries => forallb (λ e, listable e.2) entries
  | DirectoryRaises _ | Unstatable _ => false
  | RegularFile _ | Special => true
  end.

(** The workspace without its ignored entries. *)
Fixpoint prune (o : path_obj) : path_obj :=
  match o with
  | Directory entries =>
      Directory
        ((fix go (es : list (string * path_obj)) :=
            match es with
            | [] => []
            | (n, o') :: es' =>
                if ignored n then go es' else (n, prune o') :: go es'
            end) entries)
  | _ => o
  end.

Definition prune_path (p : path) : path := Path (rel p) (prune (obj p)).

(** The module names an import statement refers to. *)
Definition imported_modules (n : node) : list string :=
  match n with
  | Import names => names
  | ImportFrom (Some (String c m)) _ => [String c m]
  | _ => []
  end.

(** The dictionaries of the class definitions among [nodes]. *)
Definition class_infos (nodes : list node) : list class_info :=
  omap (λ n, match n with
             | ClassDef name lineno _ body _ =>
                 Some (ClassInfo name lineno (method_names body))
             | _ => None
             end) nodes.

(** What a node adds to the list of top-level callables, given the
    classes recorded before it. *)
Definition new_functions (recorded : list class_info) (n : node) :
    list function_info :=
  match n with
  | FunctionDef name lineno args _ _ =>
      if decide (Forall (λ cls, lineno < c_line cls) recorded)
      then [FunctionInfo name lineno args] else []
  | _ => []
  end.

(** The top-level callables by the rule alone: going through [nodes]
    with the classes [recorded] so far, a function definition is listed
    when its line is below the line of every class recorded, and a class
    definition is recorded. *)
Fixpoint top_level_callables (recorded : list class_info)
    (nodes : list node) : list function_info :=
  match nodes with
  | [] => []
  | n :: nodes' =>
      new_functions recorded n
      ++ top_level_callables (recorded ++ class_infos [n]) nodes'
  end.

(** The order of [sorted] on paths. *)
Definition name_le (p q : path) : Prop := String.le (name p) (name q).

(** The exception with which the structured extraction of a file
    fails, if it does. *)
Definition extraction_error `{Library} (name : string) (data : exn + string) :
    option (string * exn) :=
  let suffix := lower (suffix name) in
  if decide (suffix = ".py") then
    match data with
    | inl e => Some ("python", e)
    | inr content =>
        match ast_parse content with
        | inl e => Some ("python", e)
        | inr _ => None
        end
    end
  else if decide (suffix ∈ [".js"; ".jsx"; ".ts"; ".tsx"]) then
    match data with
    | inl e => Some ("javascript", e)
    | inr _ => None
    end
  else None.

(** The file is of a structured variant. *)
Definition structured `{Library} (name : string) : bool :=
  bool_decide (lower (suffix name) ∈ [".py"; ".js"; ".jsx"; ".ts"; ".tsx"]).

(** The unreadable outcome: zero lines, no preview, no error text. *)
Definition unreadable_outcome (a : analysis) : Prop :=
  a_type a = "binary" ∧ a_lines a = 0 ∧ a_preview a = None
  ∧ a_error a = None ∧ has_summary a = false.

End Observe.

(** ** Sample inputs *)

Module Sample.
Import Py Ast RepoAnalysis Endpoint.

(** Scenario 1: [baz] at line 1, class [Foo] at line 3 with method
    [bar]. *)
Definition scenario1 : node :=
  Other [FunctionDef "baz" 1 [] [Other []] [];
         ClassDef "Foo" 3 [] [FunctionDef "bar" 4 ["self"] [Other []] []] []].

(** Scenario 2: [import os] and [import os.path]. *)
Definition scenario2 : node :=
  Other [Import ["os"]; Import ["os.path"]].

(** Lower case for texts whose cased letters are all ASCII. *)
Definition lower_char (c : ascii) : ascii :=
  let n := N_of_ascii c in
  if ((65 <=? n)%N && (n <=? 90)%N)%bool then ascii_of_N (n + 32) else c.

Fixpoint ascii_lower (s : string) : string :=
  match s with
  | EmptyString => EmptyString
  | String c s' => String (lower_char c) (ascii_lower s')
  end.

(** Scenario 3: class [A] at line 1 with the method [h] at line 3, and
    class [B] at line 4. *)
Definition scenario3 : node :=
  Other [ClassDef "A" 1 [] [Other []; FunctionDef "h" 3 ["self"] [Other []] []]
           [];
         ClassDef "B" 4 [] [Other []] []].

(** A library that knows four contents. *)
#[export] Instance library : Library := {|
  lower := ascii_lower;
  ast_parse content :=
    if decide (content = "scenario1") then inr scenario1
    else if decide (content = "scenario2") then inr scenario2
    else if decide (content = "scenario3") then inr scenario3
    else inl (OtherException "invalid syntax");
  findall_imports content :=
    if decide (content = "import x from 'react/hooks'") then ["react/hooks"]
    else [];
  findall_functions _ := [];
  findall_classes _ := [] |}.

Definition undecodable : exn :=
  OtherException "'utf-8' codec can't decode byte 0xff in position 0".

(** A workspace with a source file that does not parse, an undecodable
    image, an ignored directory and a nested directory. *)
Definition workspace : path_obj :=
  Directory
    [("main.py", RegularFile (inr "scenario1"));
     ("broken.py", RegularFile (inr "def ("));
     ("logo.png", RegularFile (inl undecodable));
     (".git", Directory [("config", RegularFile (inr "x"))]);
     ("src", Directory [("deps.py", RegularFile (inr "scenario2"));
                        ("empty", Directory [])])].

(** A workspace in which listing one directory fails with an error that
    is not a permission error. *)
Definition io_error : exn := OtherException "[Errno 5] Input/output error".

Definition failing_workspace : path_obj :=
  Directory [("README.md", RegularFile (inr "hello"));
             ("data", DirectoryRaises io_error)].

Definition clone_ok (root : path_obj) : environment :=
  Environment "/tmp/tmpab12cd" (inr root) None.

(** [git clone] exits with a non-zero status. *)
Definition clone_fails : environment :=
  Environment "/tmp/tmpab12cd"
    (inl (CalledProcessError 128 "['git', 'clone', 'nope', '/tmp/tmpab12cd']"
            "fatal: repository 'nope' does not exist")) None.

End Sample.

(** ** Further observations on workspaces and trees *)

Module Shape.
Import Py Ast RepoAnalysis.

(** The keys of every child mapping of the tree are in ascending order. *)
Fixpoint keys_sorted_node (info : tnode) : Prop :=
  match info with
  | FileNode _ _ => True
  | DirectoryNode children =>
      StronglySorted String.le children.*1
      ∧ (fix go (tree : file_tree) : Prop :=
           match tree with
           | [] => True
           | (_, info') :: tree' => keys_sorted_node info' ∧ go tree'
           end) children
  end.

Fixpoint keys_sorted_below (tree : file_tree) : Prop :=
  match tree with
  | [] => True
  | (_, info) :: tree' => keys_sorted_node info ∧ keys_sorted_below tree'
  end.

Definition keys_sorted (tree : file_tree) : Prop :=
  StronglySorted String.le tree.*1 ∧ keys_sorted_below tree.

(** The [path] of every file node is the keys that lead to it from the
    repository root, joined by slashes; [parts] are the keys above the
    tree. *)
Fixpoint paths_ok_node (parts : list string) (info : tnode) : Prop :=
  match info with
  | FileNode p _ => p = join "/" parts
  | DirectoryNode children =>
      (fix go (tree : file_tree) : Prop :=
         match tree with
         | [] => True
         | (k, info') :: tree' => paths_ok_node (parts ++ [k]) info' ∧ go tree'
         end) children
  end.

Fixpoint paths_ok (parts : list string) (tree : file_tree) : Prop :=
  match tree with
  | [] => True
  | (k, info) :: tree' =>
      paths_ok_node (parts ++ [k]) info ∧ paths_ok parts tree'
  end.

Definition is_PermissionError (e : exn) : bool :=
  match e with
  | PermissionError _ => true
  | _ => false
  end.

(** Every listing and every [stat] of the workspace that raises, raises a
    [PermissionError]. *)
Fixpoint permission_only (o : path_obj) : bool :=
  match o with
  | Directory entries => forallb (λ e, permission_only e.2) entries
  | DirectoryRaises e | Unstatable e => is_PermissionError e
  | RegularFile _ | Special => true
  end.

(** [path.is_dir()]. *)
Definition is_dir (o : path_obj) : bool :=
  match o with
  | Directory _ | DirectoryRaises _ => true
  | _ => false
  end.

(** The regular files of a directory that the traversal reaches when it
    may still list [levels] levels of directories: those whose name, and
    the names of the directories above them, are not ignored. *)
Fixpoint reachable_files (o : path_obj) (levels : nat) : nat :=
  match levels with
  | O => O
  | S levels' =>
      match o with
      | Directory entries =>
          sum_list_with
            (λ e : string * path_obj,
               if ignored e.1 then O
               else match e.2 with
                    | RegularFile _ => 1%nat
                    | o' => reachable_files o' levels'
                    end)
            entries
      | _ => O
      end
  end.

(** The entries an import statement adds to the list of imports. *)
Definition import_entries (n : node) : list string :=
  match n with
  | Import names => names
  | ImportFrom (Some (String c m)) _ => ["from " +:+ String c m]
  | _ => []
  end.

(** What one item adds to the file counter. *)
Definition item_files (levels : nat) (item : path) : nat :=
  if ignored (name item) then O
  else match obj item with
       | RegularFile _ => 1%nat
       | o => reachable_files o levels
       end.

(** [self] only grows: the counters do not decrease, no dependency is
    removed, and [structure] is not touched. *)
Definition state_le (st st' : state) : Prop :=
  total_files st ≤ total_files st' ∧ total_lines st ≤ total_lines st'
  ∧ dependencies st ⊆ dependencies st' ∧ structure st' = structure st.

End Shape.

(** ** JSON values and the response on the wire *)

Module Json.
Import Py RepoAnalysis Endpoint.

(** The values of [response.json()]; numbers are integers. *)
#[warnings="-register-all"]
Inductive json :=
| JNull
| JBool (b : bool)
| JNum (n : Z)
| JStr (s : string)
| JList (items : list json)
| JDict (items : list (string * json)).

(** [d.get(key, default)] on the items of a dictionary. *)
Fixpoint get (key : string) (default : json) (d : list (string * json)) :
    json :=
  match d with
  | [] => default
  | (k, v) :: d' => if String.eqb k key then v else get key default d'
  end.

(** [key in d]. *)
Definition has_key (key : string) (d : list (string * json)) : bool :=
  bool_decide (key ∈ d.*1).

(** The truth value of a JSON value in a condition. *)
Definition truthy (v : json) : bool :=
  match v with
  | JNull => false
  | JBool b => b
  | JNum n => negb (n =? 0)
  | JStr s => negb (String.eqb s "")
  | JList items => match items with [] => false | _ => true end
  | JDict items => match items with [] => false | _ => true end
  end.

Definition class_json (c : class_info) : json :=
  JDict [("name", JStr (c_name c)); ("line", JNum (c_line c));
         ("methods", JList (JStr <$> c_methods c))].

Definition function_json (f : function_info) : json :=
  JDict [("name", JStr (f_name f)); ("line", JNum (f_line f));
         ("args", JList (JStr <$> f_args f))].

(** The dictionaries of the [analyze_*] methods, key by key. *)
Definition analysis_json (a : analysis) : json :=
  match a with
  | PythonAnalysis lines imports classes functions content_preview =>
      JDict [("type", JStr "python"); ("lines", JNum lines);
             ("imports", JList (JStr <$> imports));
             ("classes", JList (class_json <$> classes));
             ("functions", JList (function_json <$> functions));
             ("content_preview", JStr content_preview)]
  | JavascriptAnalysis lines imports functions classes content_preview =>
      JDict [("type", JStr "javascript"); ("lines", JNum lines);
             ("imports", JList (JStr <$> imports));
             ("functions", JList (JStr <$> functions));
             ("classes", JList (JStr <$> classes));
             ("content_preview", JStr content_preview)]
  | ErrorAnalysis type error =>
      JDict [("type", JStr type); ("error", JStr error); ("lines", JNum 0)]
  | TextAnalysis lines content_preview =>
      JDict [("type", JStr "text"); ("lines", JNum lines);
             ("content_preview", JStr content_preview)]
  | BinaryAnalysis => JDict [("type", JStr "binary"); ("lines", JNum 0)]
  end.

(** The dictionaries of [build_file_tree]. *)
Fixpoint node_json (info : tnode) : json :=
  match info with
  | FileNode path a =>
      JDict [("type", JStr "file"); ("path", JStr path);
             ("analysis", analysis_json a)]
  | DirectoryNode children =>
      JDict [("type", JStr "directory");
             ("children",
              JDict ((fix go (tree : file_tree) : list (string * json) :=
                        match tree with
                        | [] => []
                        | (k, info') :: tree' => (k, node_json info') :: go tree'
                        end) children))]
  end.

Fixpoint tree_json (tree : file_tree) : list (string * json) :=
  match tree with
  | [] => []
  | (k, info) :: tree' => (k, node_json info) :: tree_json tree'
  end.

(** The dictionary of [generate_repo_map]. *)
Definition repo_map_json (m : repo_map) : json :=
  JDict
    [("repository_structure", JDict (tree_json (repository_structure m)));
     ("statistics",
      JDict [("total_files", JNum (stat_total_files (map_statistics m)));
             ("total_lines", JNum (stat_total_lines (map_statistics m)));
             ("top_dependencies",
              JList (JStr <$> top_dependencies (map_statistics m)))]);
     ("analysis_metadata",
      JDict [("repo_path", JStr (metadata_repo_path m));
             ("analyzed_file_types", JList (JStr <$> analyzed_file_types m))])].

(** The dictionary [analyze_repository] returns, as its items. *)
Definition body_json (b : body) : list (string * json) :=
  match b with
  | Success repo_map repo_tour repo_url =>
      [("success", JBool true); ("repo_map", repo_map_json repo_map);
       ("repo_tour", JStr repo_tour); ("repo_url", JStr repo_url)]
  | Failure error => [("success", JBool false); ("error", JStr error)]
  end.

End Json.

(** ** [class RepoPilotApp] of [repopilot_app.py] *)

Module Client.
Import Py Json.

(** [q in s] for strings. *)
Fixpoint is_substring (q s : string) : bool :=
  String.prefix q s
  || match s with
     | EmptyString => false
     | String _ s' => is_substring q s'
     end.

(** [s.lstrip(c)] and [s.rstrip(c)] for one character, and [s.strip(c)]. *)
Fixpoint lstrip (c : ascii) (s : string) : string :=
  match s with
  | String c' s' => if Ascii.eqb c' c then lstrip c s' else s
  | EmptyString => EmptyString
  end.

Fixpoint rstrip (c : ascii) (s : string) : string :=
  match s with
  | EmptyString => EmptyString
  | String c' s' =>
      match rstrip c s' with
      | EmptyString => if Ascii.eqb c' c then EmptyString
                       else String c' EmptyString
      | r => String c' r
      end
  end.

Definition strip (c : ascii) (s : string) : string := rstrip c (lstrip c s).

(** [s.endswith(p)]. *)
Fixpoint endswith (p s : string) : bool :=
  String.eqb s p
  || match s with
     | EmptyString => false
     | String _ s' => endswith p s'
     end.

(** The two attributes of [urlparse(url)] that the program reads. *)
Record parsed_url := ParsedUrl { netloc : string; path : string }.

(** [urllib.parse.urlparse], which may raise. *)
Class UrlLibrary := { urlparse : string → exn + parsed_url }.

Section WithUrlLibrary.
Context `{UrlLibrary}.

(** [validate_github_url]. *)
Definition validate_github_url (url : string) : bool :=
  match urlparse url with
  | inr parsed =>
      bool_decide (netloc parsed = "github.com")
      && (2 <=? length (split "/" (strip "/" (path parsed))))%nat
      && negb (endswith ".git" (path parsed))
  | inl _ => false
  end.

(** [extract_repo_info]: the items of the dictionary; indexing a list of
    parts that is too short raises, and the handler returns [{}]. *)
Definition extract_repo_info (url : string) : list (string * string) :=
  match urlparse url with
  | inr parsed =>
      match split "/" (strip "/" (path parsed)) with
      | owner :: repo :: _ =>
          [("owner", owner); ("repo", repo);
           ("full_name", owner +:+ "/" +:+ repo)]
      | _ => []
      end
  | inl _ => []
  end.

End WithUrlLibrary.

Section WithLibrary.
Context `{RepoAnalysis.Library}.

Local Abbreviation lower := RepoAnalysis.lower.

(** [filter_json_data]; [data] is a dictionary.  The two inner loops are
    the loop over the items of the dictionary and the loop over the items
    of a list value. *)
Fixpoint filter_json_data (data : json) (query : string) {struct data} :
    list (string * json) :=
  match data with
  | JDict items =>
      if String.eqb query "" then items
      else
        let query := lower query in
        (fix loop (items filtered_data : list (string * json)) :=
           match items with
           | [] => filtered_data
           | (key, value) :: items' =>
               loop items'
                 match value with
                 | JDict _ =>
                     let filtered_value := filter_json_data value query in
                     if truthy (JDict filtered_value)
                        || is_substring query (lower key)
                     then dict_set key (JDict filtered_value) filtered_data
                     else filtered_data
                 | JList l =>
                     let filtered_list :=
                       (fix each (l : list json) : list json :=
                          match l with
                          | [] => []
                          | item :: l' =>
                              match item with
                              | JStr s =>
                                  if is_substring query (lower s)
                                  then item :: each l' else each l'
                              | JDict _ =>
                                  let filtered_item :=
                                    filter_json_data item query in
                                  if truthy (JDict filtered_item)
                                  then JDict filtered_item :: each l'
                                  else each l'
                              | _ => each l'
                              end
                          end) l in
                     if truthy (JList filtered_list)
                     then dict_set key (JList filtered_list) filtered_data
                     else filtered_data
                 | JStr s =>
                     if is_substring query (lower s)
                        || is_substring query (lower key)
                     then dict_set key value filtered_data
                     else filtered_data
                 | _ => filtered_data
                 end
           end) items []
  | _ => []
  end.

(** The loop of [filter_json_data] over the items of a list value and
    its loop over the items of the dictionary, by name; [query] is
    already in lower case. *)
Definition filter_list (query : string) : list json → list json :=
  fix each (l : list json) : list json :=
    match l with
    | [] => []
    | item :: l' =>
        match item with
        | JStr s =>
            if is_substring query (lower s) then item :: each l' else each l'
        | JDict _ =>
            let filtered_item := filter_json_data item query in
            if truthy (JDict filtered_item)
            then JDict filtered_item :: each l'
            else each l'
        | _ => each l'
        end
    end.

(** What one item of the dictionary becomes, if it is kept. *)
Definition filter_item (query key : string) (value : json) : option json :=
  match value with
  | JDict _ =>
      let filtered_value := filter_json_data value query in
      if truthy (JDict filtered_value) || is_substring query (lower key)
      then Some (JDict filtered_value) else None
  | JList l =>
      let filtered_list := filter_list query l in
      if truthy (JList filtered_list) then Some (JList filtered_list) else None
  | JStr s =>
      if is_substring query (lower s) || is_substring query (lower key)
      then Some value else None
  | _ => None
  end.

Fixpoint filter_loop (query : string) (items filtered_data : list (string * json)) :
    list (string * json) :=
  match items with
  | [] => filtered_data
  | (key, value) :: items' =>
      filter_loop query items'
        match filter_item query key value with
        | Some value' => dict_set key value' filtered_data
        | None => filtered_data
        end
  end.

(** The shape of what the filter keeps for a query in lower case: every
    string value contains the query or sits under a key that does, every
    list is non-empty and holds only strings that contain the query and
    non-empty dictionaries of that shape, every dictionary value is
    non-empty or sits under a key that contains the query, and there is
    no number, boolean or null. *)
Fixpoint kept (query : string) (data : json) : Prop :=
  match data with
  | JDict items =>
      (fix entries (items : list (string * json)) : Prop :=
         match items with
         | [] => True
         | (key, value) :: items' =>
             match value with
             | JDict d =>
                 (d ≠ [] ∨ is_substring query (lower key) = true)
                 ∧ kept query value
             | JList l =>
                 l ≠ []
                 ∧ (fix each (l : list json) : Prop :=
                      match l with
                      | [] => True
                      | item :: l' =>
                          match item with
                          | JStr s => is_substring query (lower s) = true
                          | JDict d => d ≠ [] ∧ kept query item
                          | _ => False
                          end ∧ each l'
                      end) l
             | JStr s =>
                 is_substring query (lower s) = true
                 ∨ is_substring query (lower key) = true
             | _ => False
             end ∧ entries items'
         end) items
  | _ => True
  end.

(** The part of [kept] that speaks of the items of a list value. *)
Definition kept_each (query : string) : list json → Prop :=
  fix each (l : list json) : Prop :=
    match l with
    | [] => True
    | item :: l' =>
        match item with
        | JStr s => is_substring query (lower s) = true
        | JDict d => d ≠ [] ∧ kept query item
        | _ => False
        end ∧ each l'
    end.

End WithLibrary.

(** The keys of every dictionary below [data] are distinct, as the keys
    of a Python dictionary are. *)
Fixpoint unique_keys (data : json) : Prop :=
  match data with
  | JDict items =>
      NoDup items.*1
      ∧ (fix entries (items : list (string * json)) : Prop :=
           match items with
           | [] => True
           | (_, value) :: items' => unique_keys value ∧ entries items'
           end) items
  | JList l =>
      (fix each (l : list json) : Prop :=
         match l with
         | [] => True
         | item :: l' => unique_keys item ∧ each l'
         end) l
  | _ => True
  end.

(** The values [languages.add] accepts, up to the equality of Python
    (booleans are the integers 0 and 1). *)
Inductive hashable :=
| HNull
| HNum (n : Z)
| HStr (s : string).

#[export] Instance hashable_eq_dec : EqDecision hashable.
Proof. solve_decision. Defined.

Definition hash_key (v : json) : exn + hashable :=
  match v with
  | JNull => inr HNull
  | JBool b => inr (HNum (if b then 1 else 0))
  | JNum n => inr (HNum n)
  | JStr s => inr (HStr s)
  | JList _ | JDict _ => inl (OtherException "unhashable type")
  end.

(** [len(v)]. *)
Definition py_len (v : json) : exn + nat :=
  match v with
  | JList l => inr (length l)
  | JDict d => inr (length d)
  | JStr s => inr (len s)
  | _ => inl (OtherException "object has no len()")
  end.

(** The items [for file in v] runs through. *)
Definition py_iter (v : json) : exn + list json :=
  match v with
  | JList l => inr l
  | JDict d => inr (JStr <$> d.*1)
  | JStr s => inr (JStr <$> chars s)
  | _ => inl (OtherException "object is not iterable")
  end.

(** [sum(len(file.get(key, [])) for file in files)]. *)
Fixpoint sum_len (key : string) (files : list json) : exn + nat :=
  match files with
  | [] => inr O
  | file :: files' =>
      match file with
      | JDict d =>
          match py_len (get key (JList []) d) with
          | inr n =>
              match sum_len key files' with
              | inr total => inr (n + total)%nat
              | inl e => inl e
              end
          | inl e => inl e
          end
      | _ => inl (OtherException "object has no attribute 'get'")
      end
  end.

(** The loop that fills [languages]; every [file] is a dictionary when
    it is reached. *)
Fixpoint add_languages (files : list json) (languages : list hashable) :
    exn + list hashable :=
  match files with
  | [] => inr languages
  | file :: files' =>
      match file with
      | JDict d =>
          if has_key "language" d then
            match hash_key (get "language" JNull d) with
            | inr h =>
                add_languages files'
                  (if decide (h ∈ languages) then languages
                   else languages ++ [h])
            | inl e => inl e
            end
          else add_languages files' languages
      | _ => inl (OtherException "object has no attribute 'get'")
      end
  end.

(** The four numbers [render_metrics] shows: files, functions, imports
    and languages. *)
Definition render_metrics (data : list (string * json)) :
    exn + (nat * nat * nat * nat) :=
  let files := get "files" (JList []) data in
  match py_len files, py_iter files with
  | inr total_files, inr each_file =>
      match sum_len "functions" each_file with
      | inr total_functions =>
          match sum_len "imports" each_file with
          | inr total_imports =>
              match add_languages each_file [] with
              | inr languages =>
                  inr (total_files, total_functions, total_imports,
                       length languages)
              | inl e => inl e
              end
          | inl e => inl e
          end
      | inl e => inl e
      end
  | inl e, _ | _, inl e => inl e
  end.

(** What [display_markdown_viewer] shows: the tour as markdown, or the
    warning, with the summary when the results have one. *)
Inductive tour_view :=
| Markdown (tour_content : json)
| NoTour (summary : option json).

Definition display_markdown_viewer (results : list (string * json)) :
    tour_view :=
  let tour_content :=
    get "guided_tour" (get "repotour.md" (JStr "") results) results in
  if truthy tour_content then Markdown tour_content
  else NoTour (if has_key "summary" results
               then Some (get "summary" JNull results) else None).

(** What [display_json_viewer] shows: the warning that nothing was found,
    or the tree of the filtered data. *)
Inductive json_view :=
| NoResults
| Tree (filtered_data : list (string * json)).

Definition display_json_viewer `{RepoAnalysis.Library}
    (results : list (string * json)) (search_query : string) : json_view :=
  let filtered_data := filter_json_data (JDict results) search_query in
  if negb (truthy (JDict filtered_data))
     && negb (String.eqb search_query "")
  then NoResults else Tree filtered_data.

End Client.

(** ** Properties *)

Import Py Ast RepoAnalysis Endpoint Observe.

(** *** Unfolding [build_file_tree] *)

Section BuildFileTree.
Context `{Library}.

Lemma build_file_tree_beyond path max_depth current_depth st :
  current_depth > max_depth →
  build_file_tree path max_depth current_depth st = (inr [], st).
Proof.
  intros Hgt. rewrite build_file_tree_equation_1.
  unfold build_file_tree_unfold_clause_1.
  destruct (decide _); [done | lia].
Qed.

Lemma build_file_tree_within path max_depth current_depth st :
  current_depth ≤ max_depth →
  build_file_tree path max_depth current_depth st =
    match iterdir path with
    | inl e => except_PermissionError e [] st
    | inr items =>
        let '(raised, tree, st) :=
          tree_loop
            (λ item st,
              build_file_tree item max_depth (current_depth + 1) st)
            (sorted items) [] st in
        match raised with
        | Some e => except_PermissionError e tree st
        | None => (inr tree, st)
        end
    end.
Proof.
  intros Hle. rewrite build_file_tree_equation_1.
  unfold build_file_tree_unfold_clause_1.
  destruct (decide _); [lia | done].
Qed.

End BuildFileTree.

(** *** The workspace and the response of [analyze_repository] *)

Section Handler.
Context `{Library}.

(** When the analysis succeeds the workspace is gone on return. *)
Lemma analyze_repository_success_releases repo_url env d b d' :
  analyze_repository repo_url env d = (b, d') →
  success b = true →
  mkdtemp env ∉ d'.
Proof.
  unfold analyze_repository, analyze_repository_try, clone_repository.
  destruct (git_clone env) as [[]|root]; simpl; intros Hrun Hb;
    simplify_eq/=.
  destruct (generate_repo_map _ _ _) as [[e|m] st]; simplify_eq/=.
  unfold rmtree in *. destruct (rmtree_raises env); simplify_eq/=.
  set_solver.
Qed.

(** Whenever the block raises, the directory made by [mkdtemp] is still
    on disk on return. *)
Lemma analyze_repository_failure_keeps repo_url env d b d' :
  analyze_repository repo_url env d = (b, d') →
  success b = false →
  mkdtemp env ∈ d'.
Proof.
  unfold analyze_repository, analyze_repository_try, clone_repository.
  destruct (git_clone env) as [[]|root]; simpl; intros Hrun Hb;
    simplify_eq/=; try set_solver.
  destruct (generate_repo_map _ _ _) as [[e|m] st]; simplify_eq/=;
    [set_solver|].
  unfold rmtree in *. destruct (rmtree_raises env); simplify_eq/=.
  set_solver.
Qed.

(** The handler never raises: the status is 200 whatever happens. *)
Lemma response_status_200 repo_url env d :
  response_status repo_url env d = 200.
Proof. reflexivity. Qed.

(** Every exception of the block, the one of a failed clone included,
    comes back as the failure dictionary with its text. *)
Lemma analyze_repository_failure_envelope repo_url env d e d' :
  analyze_repository_try repo_url env d = (inl e, d') →
  analyze_repository repo_url env d = (Failure (str e), d').
Proof. unfold analyze_repository. by intros ->. Qed.

End Handler.

(** C1 fails on this run: listing the directory [data] of the checked-out
    repository raises an input/output error, the traversal is aborted, the
    caller gets the failure dictionary, and the workspace directory is
    still on disk when the handler returns. *)
Theorem C1_workspace_kept_on_traversal_error :
  analyze_repository (H := Sample.library) "https://github.com/o/r"
    (Sample.clone_ok Sample.failing_workspace) ∅
  = (Failure "[Errno 5] Input/output error", {["/tmp/tmpab12cd"]})
  ∧ "/tmp/tmpab12cd"
    ∈ (analyze_repository (H := Sample.library) "https://github.com/o/r"
         (Sample.clone_ok Sample.failing_workspace) ∅).2.
Proof.
  assert (analyze_repository (H := Sample.library) "https://github.com/o/r"
            (Sample.clone_ok Sample.failing_workspace) ∅
          = (Failure "[Errno 5] Input/output error", {["/tmp/tmpab12cd"]}))
    as Hrun by (vm_compute; reflexivity).
  split; [exact Hrun|]. rewrite Hrun. simpl. set_solver.
Qed.

(** C2 fails on this request: [git clone] fails, the
    [HTTPException] with status 400 raised by [clone_repository] is caught
    by the handler's own [except Exception], and the caller receives
    status 200 with the same failure dictionary as for any other error. *)
Theorem C2_clone_failure_status_200 :
  (analyze_repository (H := Sample.library) "nope" Sample.clone_fails ∅).1
  = Failure
      "400: Failed to clone repository: fatal: repository 'nope' does not exist"
  ∧ response_status (H := Sample.library) "nope" Sample.clone_fails ∅ = 200
  ∧ status_of
      (analyze_repository_try (H := Sample.library) "nope" Sample.clone_fails
         ∅).1 = 400.
Proof. split; [|split]; vm_compute; reflexivity. Qed.

(** *** The walk over a syntax tree *)

Section Walk.

(** The loop over the names of an [import] statement. *)
Lemma visit_import l st names :
  visit (l, st) (Import names)
  = (PyLists (imports l ++ names) (classes l) (functions l),
     foldl (λ st name, add_dependency (item0 (split "." name)) st) st names).
Proof.
  simpl. revert l st.
  induction names as [|name names IH]; intros l st; simpl.
  - rewrite app_nil_r. by destruct l.
  - rewrite IH. simpl. by rewrite <- app_assoc.
Qed.

Lemma any_not_below lineno (recorded : list class_info) :
  existsb (λ cls, c_line cls <=? lineno) recorded = false
  ↔ Forall (λ cls, lineno < c_line cls) recorded.
Proof.
  induction recorded as [|cls recorded IH]; simpl.
  - split; [constructor | done].
  - rewrite orb_false_iff, IH, Forall_cons, Z.leb_gt. done.
Qed.

Lemma visit_functions l st n :
  functions (visit (l, st) n).1 = functions l ++ new_functions (classes l) n.
Proof.
  destruct n as [names|module names|name lineno ? body ?|name lineno args ? ?|?].
  - rewrite visit_import. simpl. by rewrite app_nil_r.
  - simpl. destruct module as [[|c m]|]; simpl; by rewrite app_nil_r.
  - simpl. by rewrite app_nil_r.
  - simpl. destruct (existsb _ _) eqn:Hany.
    + rewrite decide_False; [by rewrite app_nil_r|].
      rewrite <- any_not_below. congruence.
    + rewrite decide_True; [done|]. by apply any_not_below.
  - simpl. by rewrite app_nil_r.
Qed.

Lemma visit_classes l st n :
  classes (visit (l, st) n).1 = classes l ++ class_infos [n].
Proof.
  destruct n as [names|module names|name lineno ? body ?|name lineno args ? ?|?].
  - rewrite visit_import. simpl. by rewrite app_nil_r.
  - simpl. destruct module as [[|c m]|]; simpl; by rewrite app_nil_r.
  - done.
  - simpl. destruct (existsb _ _); simpl; by rewrite app_nil_r.
  - simpl. by rewrite app_nil_r.
Qed.

Lemma foldl_visit_cons acc n nodes :
  foldl visit acc (n :: nodes) = foldl visit (visit acc n) nodes.
Proof. reflexivity. Qed.

Lemma foldl_visit_classes nodes l st :
  classes (foldl visit (l, st) nodes).1 = classes l ++ class_infos nodes.
Proof.
  revert l st. induction nodes as [|n nodes IH]; intros l st.
  - simpl. by rewrite app_nil_r.
  - rewrite foldl_visit_cons.
    destruct (visit (l, st) n) as [l' st'] eqn:Hv.
    rewrite IH. pose proof (visit_classes l st n) as Hc.
    rewrite Hv in Hc. simpl in Hc. rewrite Hc, <- app_assoc.
    f_equal. unfold class_infos. simpl. by destruct n.
Qed.

Lemma walk_loop_classes nodes st :
  classes (walk_loop nodes st).1 = class_infos nodes.
Proof. unfold walk_loop. by rewrite foldl_visit_classes. Qed.

Lemma class_infos_cons n nodes :
  class_infos (n :: nodes) = class_infos [n] ++ class_infos nodes.
Proof. unfold class_infos. simpl. by destruct n. Qed.

Lemma class_infos_app pre post :
  class_infos (pre ++ post) = class_infos pre ++ class_infos post.
Proof. unfold class_infos. apply omap_app. Qed.

Lemma foldl_visit_functions nodes l st :
  functions (foldl visit (l, st) nodes).1
  = functions l ++ top_level_callables (classes l) nodes.
Proof.
  revert l st. induction nodes as [|n nodes IH]; intros l st.
  - simpl. by rewrite app_nil_r.
  - rewrite foldl_visit_cons.
    pose proof (visit_functions l st n) as Hf.
    pose proof (visit_classes l st n) as Hc.
    destruct (visit (l, st) n) as [l' st']. simpl in Hf, Hc.
    rewrite IH, Hf, Hc. cbn [top_level_callables]. by rewrite <- app_assoc.
Qed.

Lemma walk_loop_functions nodes st :
  functions (walk_loop nodes st).1 = top_level_callables [] nodes.
Proof. unfold walk_loop. by rewrite foldl_visit_functions. Qed.

Lemma top_level_callables_app recorded pre post :
  top_level_callables recorded (pre ++ post)
  = top_level_callables recorded pre
    ++ top_level_callables (recorded ++ class_infos pre) post.
Proof.
  revert recorded. induction pre as [|n pre IH]; intros recorded.
  - simpl. by rewrite app_nil_r.
  - cbn [app top_level_callables]. rewrite IH, (class_infos_cons n pre).
    by rewrite <- !app_assoc.
Qed.

(** The callables listed for [pre], a function definition and [post]:
    those listed for [pre], the definition if its line is below the
    line of every class recorded during [pre], and those listed for
    [post] after the classes of [pre]. *)
Lemma top_level_callables_function recorded pre name lineno args body
    decorator_list post :
  top_level_callables recorded
    (pre ++ FunctionDef name lineno args body decorator_list :: post)
  = top_level_callables recorded pre
    ++ (if decide (Forall (λ cls, lineno < c_line cls)
                     (recorded ++ class_infos pre))
        then [FunctionInfo name lineno args] else [])
    ++ top_level_callables (recorded ++ class_infos pre) post.
Proof.
  rewrite top_level_callables_app. cbn [top_level_callables new_functions].
  f_equal. f_equal. f_equal. unfold class_infos. simpl. by rewrite app_nil_r.
Qed.

(** A callable is listed exactly when it comes from a function
    definition whose line is below the line of every class recorded
    before it. *)
Lemma elem_of_top_level_callables recorded nodes f :
  f ∈ top_level_callables recorded nodes
  ↔ ∃ pre name lineno args body decorator_list post,
      nodes = pre ++ FunctionDef name lineno args body decorator_list :: post
      ∧ f = FunctionInfo name lineno args
      ∧ Forall (λ cls, lineno < c_line cls) (recorded ++ class_infos pre).
Proof.
  revert recorded. induction nodes as [|n nodes IH]; intros recorded.
  { split; [by intros ?%elem_of_nil|].
    by intros ([|??] & ? & ? & ? & ? & ? & ? & ? & _). }
  cbn [top_level_callables]. rewrite elem_of_app, IH. split.
  - intros [Hnew|(pre & name & lineno & args & body & dl & post
                   & -> & -> & Hall)].
    + destruct n as [| | |name lineno args body dl|]; simpl in Hnew;
        try by apply elem_of_nil in Hnew.
      destruct (decide _) as [Hall|]; [|by apply elem_of_nil in Hnew].
      apply list_elem_of_singleton in Hnew as ->.
      exists [], name, lineno, args, body, dl, nodes.
      split; [done|]. split; [done|]. by rewrite app_nil_r.
    + exists (n :: pre), name, lineno, args, body, dl, post.
      split; [done|]. split; [done|].
      by rewrite (class_infos_cons n pre), app_assoc.
  - intros (pre & name & lineno & args & body & dl & post & Heq & -> & Hall).
    destruct pre as [|n' pre]; cbn [app] in Heq; injection Heq as -> ->.
    + left. rewrite app_nil_r in Hall. cbn [new_functions].
      rewrite decide_True by done. by apply list_elem_of_singleton.
    + right. exists pre, name, lineno, args, body, dl, post.
      split; [done|]. split; [done|].
      by rewrite (class_infos_cons n' pre), app_assoc in Hall.
Qed.

End Walk.

Section TopLevel.
Context `{Library}.

(** C3: in the summary of a Python file that parses, the classes are
    those of the class definitions in walk order, and the top-level
    callables are those the rule gives: a function definition is listed
    if and only if its line is below the line of every class recorded
    before it in the walk, and the list holds nothing else.  For the
    file of scenario 1 the callables are [baz] alone and the classes are
    [Foo] at line 3 with the method [bar]; for the file of scenario 3
    the method [h] at line 3 is not listed although its line is below
    the line of the class recorded last. *)
Theorem C3_top_level_callables content tree st :
  ast_parse content = inr tree →
  ∃ lines imps cls funs preview st',
    analyze_python_file (inr content) st
    = (PythonAnalysis lines imps cls funs preview, st')
    ∧ cls = class_infos (walk tree)
    ∧ funs = top_level_callables [] (walk tree)
    ∧ (∀ pre name lineno args body decorator_list post,
        walk tree
        = pre ++ FunctionDef name lineno args body decorator_list :: post →
        classes (walk_loop pre st).1 = class_infos pre
        ∧ functions (walk_loop pre st).1 = top_level_callables [] pre
        ∧ funs
          = functions (walk_loop pre st).1
            ++ (if decide (Forall (λ c, lineno < c_line c)
                             (class_infos pre))
                then [FunctionInfo name lineno args] else [])
            ++ top_level_callables (class_infos pre) post)
    ∧ (∀ f,
        f ∈ funs
        ↔ ∃ pre name lineno args body decorator_list post,
            walk tree
            = pre ++ FunctionDef name lineno args body decorator_list :: post
            ∧ f = FunctionInfo name lineno args
            ∧ Forall (λ c, lineno < c_line c) (class_infos pre))
    ∧ (tree = Sample.scenario1 →
        funs = [FunctionInfo "baz" 1 []]
        ∧ cls = [ClassInfo "Foo" 3 ["bar"]])
    ∧ (tree = Sample.scenario3 →
        funs = []
        ∧ cls = [ClassInfo "A" 1 ["h"]; ClassInfo "B" 4 []]).
Proof.
  intros Hparse. unfold analyze_python_file. rewrite Hparse.
  destruct (walk_loop (walk tree) st) as [l st'] eqn:Hloop.
  eexists _, _, _, _, _, _. split; [reflexivity|].
  assert (l = (walk_loop (walk tree) st).1) as -> by by rewrite Hloop.
  split; [apply walk_loop_classes|].
  split; [apply walk_loop_functions|]. split; [|split; [|split]].
  - intros pre name lineno args body decorator_list post ->.
    split; [apply walk_loop_classes|].
    split; [apply walk_loop_functions|].
    rewrite !walk_loop_functions.
    apply (top_level_callables_function []).
  - intros f. rewrite walk_loop_functions.
    apply (elem_of_top_level_callables []).
  - intros ->. done.
  - intros ->. done.
Qed.

End TopLevel.

(** The files of scenario 1 and scenario 3, analysed with the sample
    library. *)
Lemma C3_top_level_callables_witness :
  (∃ lines imps preview st',
     analyze_python_file (H := Sample.library) (inr "scenario1") init
     = (PythonAnalysis lines imps [ClassInfo "Foo" 3 ["bar"]]
          [FunctionInfo "baz" 1 []] preview, st'))
  ∧ ∃ lines imps preview st',
      analyze_python_file (H := Sample.library) (inr "scenario3") init
      = (PythonAnalysis lines imps
           [ClassInfo "A" 1 ["h"]; ClassInfo "B" 4 []] [] preview, st').
Proof.
  split.
  - destruct (C3_top_level_callables (H := Sample.library) "scenario1"
                Sample.scenario1 init eq_refl)
      as (lines & imps & cls & funs & preview & st' & Hrun & _ & _ & _ & _
          & Hsc & _).
    destruct (Hsc eq_refl) as [-> ->]. eauto.
  - destruct (C3_top_level_callables (H := Sample.library) "scenario3"
                Sample.scenario3 init eq_refl)
      as (lines & imps & cls & funs & preview & st' & Hrun & _ & _ & _ & _
          & _ & Hsc).
    destruct (Hsc eq_refl) as [-> ->]. eauto.
Defined.

(** *** Root identifiers and the dependency set *)

Section Roots.

Lemma split_nonempty sep s : split sep s ≠ [].
Proof.
  destruct s as [|c s]; simpl; [done|].
  destruct (Ascii.eqb c sep); [done|]. by destruct (split sep s).
Qed.

(** [s.split(sep)[0]] is the text before the first separator: it holds
    no separator, and it is all of [s] or is followed in [s] by one. *)
Lemma item0_split_first sep s :
  contains sep (item0 (split sep s)) = false
  ∧ (s = item0 (split sep s)
     ∨ ∃ rest, s = item0 (split sep s) +:+ String sep rest).
Proof.
  induction s as [|c s [IHc IHs]]; simpl; [by auto|].
  destruct (Ascii.eqb c sep) eqn:Hc.
  - apply Ascii.eqb_eq in Hc as ->. simpl. split; [done|]. right. by exists s.
  - pose proof (split_nonempty sep s) as Hne.
    destruct (split sep s) as [|seg segs]; [done|]. simpl in *.
    rewrite Hc, IHc. split; [done|].
    destruct IHs as [->|[rest ->]]; [by left | right; by exists rest].
Qed.

Lemma item0_split_absent sep s :
  contains sep s = false → item0 (split sep s) = s.
Proof.
  induction s as [|c s IH]; simpl; [done|].
  intros [Hc Hs]%orb_false_iff. rewrite Hc.
  pose proof (split_nonempty sep s) as Hne. specialize (IH Hs).
  destruct (split sep s) as [|seg segs]; [done|]. simpl in *. by rewrite IH.
Qed.

Lemma foldl_add_dependency {A} (f : A → string) xs st :
  dependencies (foldl (λ st x, add_dependency (f x) st) st xs)
  = dependencies st ∪ list_to_set (f <$> xs).
Proof.
  revert st. induction xs as [|x xs IH]; intros st; csimpl.
  - set_solver.
  - rewrite IH. simpl. set_solver.
Qed.

Lemma foldl_add_dependency_counters {A} (f : A → string) xs st :
  let st' := foldl (λ st x, add_dependency (f x) st) st xs in
  total_lines st' = total_lines st ∧ total_files st' = total_files st.
Proof.
  revert st. induction xs as [|x xs IH]; intros st; simpl; [done|].
  by destruct (IH (add_dependency (f x) st)) as [-> ->].
Qed.

Lemma visit_dependencies l st n :
  dependencies (visit (l, st) n).2
  = dependencies st
    ∪ list_to_set ((λ m, item0 (split "." m)) <$> imported_modules n).
Proof.
  destruct n as [names|module names| | |].
  - rewrite visit_import. simpl. apply foldl_add_dependency.
  - simpl. destruct module as [[|c m]|]; simpl; set_solver.
  - simpl. set_solver.
  - simpl. destruct (existsb _ _); simpl; set_solver.
  - simpl. set_solver.
Qed.

Lemma visit_counters l st n :
  total_lines (visit (l, st) n).2 = total_lines st
  ∧ total_files (visit (l, st) n).2 = total_files st.
Proof.
  destruct n as [names|module names| | |].
  - rewrite visit_import. simpl. apply foldl_add_dependency_counters.
  - simpl. by destruct module as [[|c m]|].
  - done.
  - simpl. by destruct (existsb _ _).
  - done.
Qed.

Lemma foldl_visit_dependencies nodes l st :
  dependencies (foldl visit (l, st) nodes).2
  = dependencies st
    ∪ list_to_set ((λ m, item0 (split "." m))
                     <$> (nodes ≫= imported_modules)).
Proof.
  revert l st. induction nodes as [|n nodes IH]; intros l st.
  - csimpl. set_solver.
  - rewrite foldl_visit_cons.
    pose proof (visit_dependencies l st n) as Hd.
    destruct (visit (l, st) n) as [l' st'].
    rewrite IH. simpl in Hd. rewrite Hd. csimpl.
    rewrite fmap_app, list_to_set_app_L. set_solver.
Qed.

Lemma foldl_visit_counters nodes l st :
  total_lines (foldl visit (l, st) nodes).2 = total_lines st
  ∧ total_files (foldl visit (l, st) nodes).2 = total_files st.
Proof.
  revert l st. induction nodes as [|n nodes IH]; intros l st; [done|].
  rewrite foldl_visit_cons.
  pose proof (visit_counters l st n) as [Hl Hf].
  destruct (visit (l, st) n) as [l' st']. simpl in *.
  destruct (IH l' st') as [-> ->]. done.
Qed.

End Roots.

Section Dependencies.
Context `{Library}.

(** C6: a Python file that parses adds to the dependency set exactly the
    first dot-separated segment of each module name its import
    statements refer to; a JavaScript file adds exactly the first
    slash-separated segment of each import path found; that first
    segment is the text before the first separator; the sorted view of
    the set has no duplicates; and from an empty set, a file whose
    imports are [os] and [os.path] gives the set that holds [os] alone. *)
Theorem C6_dependency_roots content st :
  (∀ tree, ast_parse content = inr tree →
     dependencies (analyze_python_file (inr content) st).2
     = dependencies st
       ∪ list_to_set ((λ m, item0 (split "." m))
                        <$> (walk tree ≫= imported_modules)))
  ∧ dependencies (analyze_javascript_file (inr content) st).2
    = dependencies st
      ∪ list_to_set ((λ p, item0 (split "/" p)) <$> findall_imports content)
  ∧ (∀ sep s,
       contains sep (item0 (split sep s)) = false
       ∧ (s = item0 (split sep s)
          ∨ ∃ rest, s = item0 (split sep s) +:+ String sep rest))
  ∧ (∀ n, NoDup (sorted_dependencies n st))
  ∧ (ast_parse content = inr Sample.scenario2 →
     dependencies (analyze_python_file (inr content) init).2 = {["os"]}).
Proof.
  assert (∀ tree st0, ast_parse content = inr tree →
     dependencies (analyze_python_file (inr content) st0).2
     = dependencies st0
       ∪ list_to_set ((λ m, item0 (split "." m))
                        <$> (walk tree ≫= imported_modules))) as Hpy.
  { intros tree st0 Hparse. unfold analyze_python_file. rewrite Hparse.
    unfold walk_loop.
    pose proof (foldl_visit_dependencies (walk tree) (PyLists [] [] []) st0)
      as Hd.
    destruct (foldl visit _ (walk tree)) as [l st']. simpl in *. done. }
  split; [intros tree; apply Hpy|]. split; [|split; [|split]].
  - unfold analyze_javascript_file. simpl.
    rewrite foldl_add_dependency. f_equal. f_equal.
    apply list_fmap_ext. intros _ imp _.
    destruct (contains "/" imp) eqn:Hc; [done|].
    symmetry. by apply item0_split_absent.
  - apply item0_split_first.
  - intros n. unfold sorted_dependencies, Py.sorted.
    eapply sublist_NoDup; [|apply sublist_take].
    rewrite merge_sort_Permutation. apply NoDup_elements.
  - intros Hparse. rewrite (Hpy _ _ Hparse). vm_compute. reflexivity.
Qed.

End Dependencies.

(** The file of scenario 2 and a JavaScript import of [react/hooks],
    analysed with the sample library. *)
Lemma C6_dependency_roots_witness :
  dependencies
    (analyze_python_file (H := Sample.library) (inr "scenario2") init).2
  = {["os"]}
  ∧ dependencies
      (analyze_javascript_file (H := Sample.library)
         (inr "import x from 'react/hooks'") init).2
    = ∅ ∪ list_to_set ["react"].
Proof.
  destruct (C6_dependency_roots (H := Sample.library) "scenario2" init)
    as (_ & _ & _ & _ & Hos).
  destruct (C6_dependency_roots (H := Sample.library)
              "import x from 'react/hooks'" init) as (_ & Hjs & _).
  split; [exact (Hos eq_refl) | exact Hjs].
Defined.

(** *** The sorted views of the dependency set *)

Section TopDependencies.
Context `{Library}.

Lemma sorted_dependencies_Sorted n st :
  Sorted String.le (sorted_dependencies n st).
Proof.
  unfold sorted_dependencies, Py.sorted.
  pose proof (Sorted_merge_sort String.le (elements (dependencies st)))
    as Hs.
  revert n. induction Hs as [|x l Hs IH Hhd]; intros [|n]; simpl;
    try constructor; [apply IH|].
  destruct Hhd; destruct n; simpl; by constructor.
Qed.

Lemma sorted_dependencies_length n st :
  (length (sorted_dependencies n st) ≤ n)%nat.
Proof. unfold sorted_dependencies. rewrite length_take. lia. Qed.

Lemma add_dependencies_set ds st :
  dependencies (foldr add_dependency st ds)
  = list_to_set ds ∪ dependencies st.
Proof. induction ds as [|d ds IH]; simpl; [|rewrite IH]; set_solver. Qed.

Lemma string_app_nil_r (s : string) : s +:+ "" = s.
Proof.
  induction s as [|c s IH]; [done|].
  change (String c (s +:+ "") = String c s). by rewrite IH.
Qed.

Lemma string_app_assoc (s1 s2 s3 : string) :
  s1 +:+ (s2 +:+ s3) = (s1 +:+ s2) +:+ s3.
Proof.
  induction s1 as [|c s1 IH]; [done|].
  change (String c (s1 +:+ (s2 +:+ s3)) = String c ((s1 +:+ s2) +:+ s3)).
  by rewrite IH.
Qed.

Lemma foldl_append_foldr (f : string → string) xs tour :
  foldl (λ tour x, tour +:+ f x) tour xs
  = tour +:+ foldr (λ x rest, f x +:+ rest) "" xs.
Proof.
  revert tour. induction xs as [|x xs IH]; intros tour; simpl.
  - by rewrite string_app_nil_r.
  - by rewrite IH, string_app_assoc.
Qed.

(** The whole sorted list of which every view is a prefix: it holds the
    names of the set, each once, in ascending order. *)
Lemma sorted_dependencies_all st :
  let all := Py.sorted (elements (dependencies st)) in
  (∀ d, d ∈ all ↔ d ∈ dependencies st)
  ∧ NoDup all ∧ StronglySorted String.le all
  ∧ length all = base.size (dependencies st)
  ∧ ∀ m, sorted_dependencies m st = take m all.
Proof.
  unfold Py.sorted. split; [|split; [|split; [|split]]].
  - intros d. by rewrite merge_sort_Permutation, elem_of_elements.
  - rewrite merge_sort_Permutation. apply NoDup_elements.
  - apply (StronglySorted_merge_sort String.le).
  - by rewrite merge_sort_Permutation.
  - done.
Qed.

(** C7: the view of the dependency set is sorted ascending and is no
    longer than the bound asked for; it is a function of the set alone:
    the first names of the ascending list that holds every name of the
    set once, so that it holds only names of the set, no name left out
    comes before a name shown, and its length is the bound or the size
    of the set; it does not depend on the order in which the names were
    added; the report shows the view of bound 10; and the tour is its
    fixed template around the counters, the first five names of the view
    of bound 10 joined by commas, the explanation of the structure, the
    key files and the view of bound 10 as a list. *)
Theorem C7_top_dependencies n st :
  Sorted String.le (sorted_dependencies n st)
  ∧ (length (sorted_dependencies n st) ≤ n)%nat
  ∧ (∃ all,
       (∀ d, d ∈ all ↔ d ∈ dependencies st)
       ∧ NoDup all ∧ StronglySorted String.le all
       ∧ ∀ m, sorted_dependencies m st = take m all)
  ∧ (∀ d, d ∈ sorted_dependencies n st → d ∈ dependencies st)
  ∧ (∀ x d,
       x ∈ sorted_dependencies n st → d ∈ dependencies st →
       d ∉ sorted_dependencies n st → String.le x d)
  ∧ length (sorted_dependencies n st)
    = (n `min` base.size (dependencies st))%nat
  ∧ (∀ ds1 ds2, ds1 ≡ₚ ds2 →
       sorted_dependencies n (foldr add_dependency st ds1)
       = sorted_dependencies n (foldr add_dependency st ds2))
  ∧ (∀ repo_path root st0 report,
       generate_repo_map repo_path root st0 = (inr report, st) →
       top_dependencies (map_statistics report) = sorted_dependencies 10 st
       ∧ (length (top_dependencies (map_statistics report)) ≤ 10)%nat
       ∧ key_dependencies st
         = take 5 (top_dependencies (map_statistics report)))
  ∧ key_dependencies st = take 5 (sorted_dependencies 10 st)
  ∧ generate_repo_tour st
    = tour_overview st
      +:+ "- **Key Dependencies:** "
      +:+ join ", " (take 5 (sorted_dependencies 10 st))
      +:+ tour_structure_heading
      +:+ explain_directory (structure st) 0
      +:+ tour_getting_started
      +:+ tour_key_files (main_files (structure st))
      +:+ tour_architecture
      +:+ foldr (λ dep rest, ("- `" +:+ dep +:+ "`" +:+ nl) +:+ rest) ""
            (sorted_dependencies 10 st).
Proof.
  destruct (sorted_dependencies_all st) as (Hall & Hnd & Hss & Hlen & Hview).
  assert (key_dependencies st = take 5 (sorted_dependencies 10 st)) as Hkey.
  { unfold key_dependencies, sorted_dependencies. by rewrite take_take. }
  split; [apply sorted_dependencies_Sorted|].
  split; [apply sorted_dependencies_length|].
  split; [by eexists|].
  split; [|split; [|split; [|split; [|split; [|split]]]]].
  - intros d Hd. apply Hall. rewrite Hview in Hd.
    eapply elem_of_sublist; [exact Hd | apply sublist_take].
  - intros x d Hx Hd Hout. rewrite Hview in Hx, Hout.
    apply Hall in Hd. rewrite <- (take_drop n) in Hd.
    apply elem_of_app in Hd as [Hd|Hd]; [done|].
    eapply (StronglySorted_app_1_elem_of String.le); [|exact Hx|exact Hd].
    by rewrite take_drop.
  - rewrite Hview, length_take, Hlen. done.
  - intros ds1 ds2 Hperm. unfold sorted_dependencies.
    rewrite !add_dependencies_set.
    assert ((list_to_set ds1 : gset string) = list_to_set ds2) as ->;
      [|done].
    apply set_eq. intros d. by rewrite !elem_of_list_to_set, Hperm.
  - intros repo_path root st0 report. unfold generate_repo_map.
    destruct (build_file_tree _ _ _ _) as [[e|tree] st1]; [done|].
    intros [= <- <-]. cbn [top_dependencies map_statistics].
    split; [done|]. split; [apply sorted_dependencies_length|].
    unfold key_dependencies, sorted_dependencies. by rewrite take_take.
  - exact Hkey.
  - unfold generate_repo_tour, tour_header. rewrite Hkey.
    rewrite (foldl_append_foldr (λ dep, "- `" +:+ dep +:+ "`" +:+ nl)).
    generalize (tour_overview st)
      (join ", " (take 5 (sorted_dependencies 10 st)))
      (explain_directory (structure st) 0)
      (tour_key_files (main_files (structure st)))
      tour_structure_heading tour_getting_started tour_architecture
      (foldr (λ dep rest, ("- `" +:+ dep +:+ "`" +:+ nl) +:+ rest) ""
         (sorted_dependencies 10 st)).
    intros overview deps explained key_files heading started architecture
      listed.
    generalize "- **Key Dependencies:** ". intros label.
    by rewrite !string_app_assoc.
Qed.

End TopDependencies.

(** The views of the set built from [b], [a], [c] and from [c], [b],
    [a]; and the tour for a set of seven names, whose header shows the
    first five. *)
Lemma C7_top_dependencies_witness :
  sorted_dependencies 2 (foldr add_dependency init ["b"; "a"; "c"])
  = sorted_dependencies 2 (foldr add_dependency init ["c"; "b"; "a"])
  ∧ sorted_dependencies 2 (foldr add_dependency init ["b"; "a"; "c"])
    = ["a"; "b"]
  ∧ String.prefix
      (tour_overview
         (foldr add_dependency init ["g"; "b"; "a"; "f"; "c"; "e"; "d"])
       +:+ "- **Key Dependencies:** a, b, c, d, e" +:+ tour_structure_heading)
      (generate_repo_tour
         (foldr add_dependency init ["g"; "b"; "a"; "f"; "c"; "e"; "d"]))
    = true.
Proof.
  destruct (C7_top_dependencies (H := Sample.library) 2 init)
    as (_ & _ & _ & _ & _ & _ & Horder & _).
  split; [|split; [vm_compute; reflexivity|]].
  - apply Horder.
    change ["b"; "a"; "c"] with (["b"; "a"] ++ ["c"]).
    change ["c"; "b"; "a"] with (["c"] ++ ["b"; "a"]).
    apply Permutation_app_comm.
  - destruct (C7_top_dependencies (H := Sample.library) 10
                (foldr add_dependency init
                   ["g"; "b"; "a"; "f"; "c"; "e"; "d"]))
      as (_ & _ & _ & _ & _ & _ & _ & _ & _ & ->).
    vm_compute. reflexivity.
Defined.

(** *** Facts on trees, dictionaries and sorted listings *)

Section Trees.

Lemma count_files_directory children :
  count_files_node (DirectoryNode children) = count_files children.
Proof. reflexivity. Qed.

Lemma sum_lines_directory children :
  sum_lines_node (DirectoryNode children) = sum_lines children.
Proof. reflexivity. Qed.

Lemma height_directory children :
  height_node (DirectoryNode children) = S (height children).
Proof. reflexivity. Qed.

Lemma no_empty_directory_directory children :
  no_empty_directory_node (DirectoryNode children)
  = match children with [] => false | _ => true end
    && no_empty_directory children.
Proof. reflexivity. Qed.

Lemma keys_ok_directory ok children :
  keys_ok_node ok (DirectoryNode children) = keys_ok ok children.
Proof.
  simpl. induction children as [|[k info] children IH]; simpl; [done|].
  by rewrite IH.
Qed.

Lemma dict_set_keys {V} k (v : V) d k' :
  k' ∈ (dict_set k v d).*1 ↔ k' = k ∨ k' ∈ d.*1.
Proof.
  induction d as [|[k0 v0] d IH]; simpl.
  - rewrite list_elem_of_singleton. set_solver.
  - destruct (String.eqb k0 k) eqn:Hk.
    + apply String.eqb_eq in Hk as ->. csimpl. set_solver.
    + csimpl. rewrite !elem_of_cons, IH. tauto.
Qed.

(** Assigning to a key that is absent appends the item. *)
Lemma dict_set_fresh {V} k (v : V) d :
  k ∉ d.*1 → dict_set k v d = d ++ [(k, v)].
Proof.
  induction d as [|[k0 v0] d IH]; simpl; [done|].
  intros Hk. apply not_elem_of_cons in Hk as [Hne Hk].
  destruct (String.eqb k0 k) eqn:Heq.
  - apply String.eqb_eq in Heq. congruence.
  - by rewrite IH.
Qed.

Lemma count_files_app t1 t2 :
  count_files (t1 ++ t2) = count_files t1 + count_files t2.
Proof. induction t1 as [|[k v] t1 IH]; simpl; [done | rewrite IH; lia]. Qed.

Lemma sum_lines_app t1 t2 :
  sum_lines (t1 ++ t2) = sum_lines t1 + sum_lines t2.
Proof. induction t1 as [|[k v] t1 IH]; simpl; [done | rewrite IH; lia]. Qed.

Lemma height_dict_set k v t (b : nat) :
  (height_node v ≤ b)%nat → (height t ≤ b)%nat →
  (height (dict_set k v t) ≤ b)%nat.
Proof.
  intros Hv. induction t as [|[k0 v0] t IH]; simpl; [lia|].
  intros Ht. destruct (String.eqb k0 k); simpl; [lia|].
  specialize (IH ltac:(lia)). lia.
Qed.

Lemma no_empty_directory_dict_set k v t :
  no_empty_directory_node v = true → no_empty_directory t = true →
  no_empty_directory (dict_set k v t) = true.
Proof.
  intros Hv. induction t as [|[k0 v0] t IH]; simpl.
  - by rewrite Hv.
  - intros [H0 Ht]%andb_true_iff. destruct (String.eqb k0 k); simpl.
    + by rewrite Hv, Ht.
    + by rewrite H0, IH.
Qed.

Lemma keys_ok_dict_set ok k v t :
  ok k = true → keys_ok_node ok v = true → keys_ok ok t = true →
  keys_ok ok (dict_set k v t) = true.
Proof.
  intros Hk Hv. induction t as [|[k0 v0] t IH]; simpl.
  - by rewrite Hk, Hv.
  - intros [[H0 H1]%andb_true_iff Ht]%andb_true_iff.
    destruct (String.eqb k0 k); simpl.
    + by rewrite Hk, Hv, Ht.
    + by rewrite H0, H1, IH.
Qed.

#[local] Instance name_le_total : Total name_le.
Proof. intros p q. apply (total String.le). Qed.

#[local] Instance name_le_trans : Transitive name_le.
Proof. intros p q r. unfold name_le. apply transitivity. Qed.

Lemma sorted_Permutation items : sorted items ≡ₚ items.
Proof. apply merge_sort_Permutation. Qed.

Lemma sorted_StronglySorted items : StronglySorted name_le (sorted items).
Proof. apply (StronglySorted_merge_sort name_le). Qed.

Lemma name_child parts n o : name (Path (parts ++ [n]) o) = n.
Proof. unfold name. simpl. apply last_last. Qed.

Lemma relative_to_root_child parts n o :
  relative_to_root (Path (parts ++ [n]) o) = join "/" (parts ++ [n]).
Proof. unfold relative_to_root. simpl. by destruct parts. Qed.


(** The items of a listing: their names are the names of the entries. *)
Lemma iterdir_names p items :
  iterdir p = inr items →
  ∃ entries,
    obj p = Directory entries
    ∧ items = (λ e : string * path_obj, Path (rel p ++ [e.1]) e.2) <$> entries
    ∧ name <$> items = entries.*1.
Proof.
  unfold iterdir. destruct (obj p) as [|entries| | |]; try done.
  intros [= <-]. exists entries. split; [done|]. split; [done|].
  rewrite <- list_fmap_compose. apply list_fmap_ext.
  intros _ [n o] _. simpl. apply name_child.
Qed.

End Trees.

(** *** The depth bound of [build_file_tree] *)

Section Depth.
Context `{Library}.

Lemma except_PermissionError_returns e tree st tree' st' :
  except_PermissionError e tree st = (inr tree', st') →
  tree' = tree ∧ st' = st.
Proof. destruct e; simpl; intros [= <- <-]; done. Qed.

Lemma tree_loop_height recurse (b : nat) items tree st raised tree' st' :
  (∀ item st0 sub st1,
     recurse item st0 = (inr sub, st1) →
     (sub = [] ∨ (S (height sub) ≤ b)%nat)
     ∧ no_empty_directory sub = true) →
  (height tree ≤ b)%nat → no_empty_directory tree = true →
  tree_loop recurse items tree st = (raised, tree', st') →
  (height tree' ≤ b)%nat ∧ no_empty_directory tree' = true.
Proof.
  intros Hrec. revert tree st.
  induction items as [|item items IH]; intros tree st Hh Hne; simpl.
  - intros [= <- <- <-]. done.
  - destruct (ignored (name item)); [by apply IH|].
    destruct (obj item) as [data|entries|e|e|].
    + destruct (analyze_file _ _ _) as [a st1]. apply IH.
      * by apply height_dict_set; simpl; [lia|].
      * by apply no_empty_directory_dict_set.
    + destruct (recurse item st) as [[e|sub] st1] eqn:Hsub.
      { intros [= <- <- <-]. done. }
      destruct (Hrec _ _ _ _ Hsub) as [Hb Hsne].
      destruct sub as [|entry sub]; [by apply IH|].
      destruct Hb as [|Hb]; [done|]. apply IH.
      * apply height_dict_set; [|done]. by rewrite height_directory.
      * apply no_empty_directory_dict_set; [|done].
        by rewrite no_empty_directory_directory.
    + destruct (recurse item st) as [[e'|sub] st1] eqn:Hsub.
      { intros [= <- <- <-]. done. }
      destruct (Hrec _ _ _ _ Hsub) as [Hb Hsne].
      destruct sub as [|entry sub]; [by apply IH|].
      destruct Hb as [|Hb]; [done|]. apply IH.
      * apply height_dict_set; [|done]. by rewrite height_directory.
      * apply no_empty_directory_dict_set; [|done].
        by rewrite no_empty_directory_directory.
    + intros [= <- <- <-]. done.
    + by apply IH.
Qed.

Lemma build_file_tree_height path max_depth current_depth st tree st' :
  build_file_tree path max_depth current_depth st = (inr tree, st') →
  (current_depth > max_depth → tree = [])
  ∧ Z.of_nat (height tree) ≤ Z.max 0 (max_depth - current_depth)
  ∧ no_empty_directory tree = true.
Proof.
  revert tree st'.
  apply (build_file_tree_elim
           (λ path max_depth current_depth st r,
              ∀ tree st', r = (inr tree, st') →
                (current_depth > max_depth → tree = [])
                ∧ Z.of_nat (height tree)
                  ≤ Z.max 0 (max_depth - current_depth)
                ∧ no_empty_directory tree = true)); clear.
  - intros path max_depth current_depth Hgt st _ tree st' [= <- <-].
    simpl. split; [done|]. split; [lia|done].
  - intros path max_depth current_depth Hle st IH _ tree st' Hret.
    split; [lia|]. revert Hret.
    destruct (iterdir path) as [e|items].
    { intros [-> _]%except_PermissionError_returns. simpl.
      split; [lia|done]. }
    destruct (tree_loop _ _ _ _) as [[raised tree1] st1] eqn:Hloop.
    intros Hret.
    assert (tree = tree1) as ->.
    { destruct raised as [e|]; [|by inversion Hret].
      by apply except_PermissionError_returns in Hret as [-> _]. }
    apply (tree_loop_height _ (Z.to_nat (max_depth - current_depth)))
      in Hloop as [Hh Hne]; [split; [lia|done]| |simpl; lia|done].
    intros item st0 sub st2 Hsub.
    destruct (IH items item st0 sub st2 Hsub) as (Hempty & Hh & Hne).
    split; [|done].
    destruct (decide (current_depth + 1 > max_depth)) as [Hgt|Hle'];
      [left; by apply Hempty | right; lia].
Qed.

(** C8: beyond the depth bound the builder returns the empty tree and
    leaves every counter and the dependency set as they were, whatever
    is at the path; and in a tree built at depth [current_depth] no more
    than [max_depth - current_depth] directory nodes are nested in one
    another, none of them with an empty child mapping. *)
Theorem C8_depth_bound path max_depth current_depth st :
  (current_depth > max_depth →
   build_file_tree path max_depth current_depth st = (inr [], st))
  ∧ ∀ tree st',
      build_file_tree path max_depth current_depth st = (inr tree, st') →
      Z.of_nat (height tree) ≤ Z.max 0 (max_depth - current_depth)
      ∧ no_empty_directory tree = true.
Proof.
  split; [apply build_file_tree_beyond|].
  intros tree st' Hrun. by apply build_file_tree_height in Hrun as (_ & ? & ?).
Qed.

End Depth.

(** Below depth 4 of the sample workspace, a call at depth 5 returns the
    empty tree and the state it was given. *)
Lemma C8_depth_bound_witness :
  build_file_tree (H := Sample.library) (Path [] Sample.workspace) 4 5 init
  = (inr [], init).
Proof.
  apply (C8_depth_bound (H := Sample.library) (Path [] Sample.workspace) 4 5
           init).
  lia.
Defined.

(** *** The ignore policy *)

Section Ignored.
Context `{Library}.

(** The policy in words: the name starts with a dot or is one of the
    three directory names. *)
Lemma ignored_spec name :
  ignored name = true
  ↔ (∃ rest, name = String "." rest)
    ∨ name ∈ ["node_modules"; "__pycache__"; "venv"].
Proof.
  unfold ignored. rewrite orb_true_iff, bool_decide_eq_true.
  apply or_iff_compat_r. unfold startswith.
  destruct name as [|c name]; cbn [String.prefix].
  - split; [done | by intros [? ?]].
  - destruct (ascii_dec "." c) as [<-|Hne].
    + destruct name; split; eauto.
    + split; [done | intros [? [= -> ->]]; done].
Qed.

Lemma tree_loop_keys_ok recurse items tree st raised tree' st' :
  (∀ item st0 sub st1,
     recurse item st0 = (inr sub, st1) →
     keys_ok (λ k, negb (ignored k)) sub = true) →
  keys_ok (λ k, negb (ignored k)) tree = true →
  tree_loop recurse items tree st = (raised, tree', st') →
  keys_ok (λ k, negb (ignored k)) tree' = true.
Proof.
  intros Hrec. revert tree st.
  induction items as [|item items IH]; intros tree st Hok; simpl.
  - intros [= <- <- <-]. done.
  - destruct (ignored (name item)) eqn:Hign; [by apply IH|].
    destruct (obj item) as [data|entries|e|e|].
    + destruct (analyze_file _ _ _) as [a st1]. apply IH.
      apply keys_ok_dict_set; [by rewrite Hign|done..].
    + destruct (recurse item st) as [[e|sub] st1] eqn:Hsub.
      { intros [= <- <- <-]. done. }
      destruct sub as [|entry sub]; [by apply IH|]. apply IH.
      apply keys_ok_dict_set; [by rewrite Hign| |done].
      rewrite keys_ok_directory. eauto.
    + destruct (recurse item st) as [[e'|sub] st1] eqn:Hsub.
      { intros [= <- <- <-]. done. }
      destruct sub as [|entry sub]; [by apply IH|]. apply IH.
      apply keys_ok_dict_set; [by rewrite Hign| |done].
      rewrite keys_ok_directory. eauto.
    + intros [= <- <- <-]. done.
    + by apply IH.
Qed.

(** No key of a built tree, at any depth, is an ignored name. *)
Lemma build_file_tree_keys_ok path max_depth current_depth st tree st' :
  build_file_tree path max_depth current_depth st = (inr tree, st') →
  keys_ok (λ k, negb (ignored k)) tree = true.
Proof.
  revert tree st'.
  apply (build_file_tree_elim
           (λ path max_depth current_depth st r,
              ∀ tree st', r = (inr tree, st') →
                keys_ok (λ k, negb (ignored k)) tree = true)); clear.
  - intros path max_depth current_depth Hgt st _ tree st' [= <- <-]. done.
  - intros path max_depth current_depth Hle st IH _ tree st'.
    destruct (iterdir path) as [e|items].
    { intros [-> _]%except_PermissionError_returns. done. }
    destruct (tree_loop _ _ _ _) as [[raised tree1] st1] eqn:Hloop.
    intros Hret.
    assert (tree = tree1) as ->.
    { destruct raised as [e|]; [|by inversion Hret].
      by apply except_PermissionError_returns in Hret as [-> _]. }
    eapply tree_loop_keys_ok; [| |exact Hloop]; [|done].
    intros item st0 sub st2. apply (IH items).
Qed.

(** The loop does for a listing what it does for the listing without
    its ignored items. *)
Lemma tree_loop_skips_ignored recurse items tree st :
  tree_loop recurse
    (filter (λ p, ignored (name p) = false) items) tree st
  = tree_loop recurse items tree st.
Proof.
  revert tree st. induction items as [|item items IH]; intros tree st;
    [done|].
  rewrite filter_cons. simpl.
  destruct (ignored (name item)) eqn:Hign.
  - rewrite decide_False by done. apply IH.
  - rewrite decide_True by done. simpl. rewrite Hign.
    destruct (obj item); try done.
    + destruct (analyze_file _ _ _). apply IH.
    + destruct (recurse item st) as [[?|sub] st1]; [done|]. apply IH.
    + destruct (recurse item st) as [[?|sub] st1]; [done|]. apply IH.
Qed.

End Ignored.

Section Prune.
Context `{Library}.

Lemma prune_directory entries :
  prune (Directory entries)
  = Directory ((λ e : string * path_obj, (e.1, prune e.2))
                 <$> filter (λ e : string * path_obj, ignored e.1 = false)
                       entries).
Proof.
  simpl. f_equal. induction entries as [|[n o] entries IH]; [done|].
  rewrite filter_cons. simpl. destruct (ignored n).
  - by rewrite decide_False.
  - rewrite decide_True by done. csimpl. by rewrite IH.
Qed.

(** The items of the pruned directory are the pruned items that are
    not ignored. *)
Lemma iterdir_prune p entries :
  obj p = Directory entries →
  iterdir (prune_path p)
  = inr (prune_path
           <$> filter (λ q, ignored (name q) = false)
                 ((λ e : string * path_obj, Path (rel p ++ [e.1]) e.2)
                    <$> entries)).
Proof.
  intros Hobj. unfold iterdir, prune_path. simpl.
  rewrite Hobj, prune_directory. f_equal. clear Hobj.
  induction entries as [|[n o] entries IH]; [done|].
  rewrite fmap_cons, !filter_cons. simpl. rewrite name_child.
  destruct (decide (ignored n = false)); csimpl; by rewrite IH.
Qed.

Lemma NoDup_fmap_eq {A B} (f : A → B) (l : list A) x y :
  NoDup (f <$> l) → x ∈ l → y ∈ l → f x = f y → x = y.
Proof.
  induction l as [|a l IH]; csimpl; [by intros _ ?%elem_of_nil|].
  intros [Ha Hl]%NoDup_cons [->|Hx]%elem_of_cons [->|Hy]%elem_of_cons Hf;
    [done| | |by apply IH].
  - destruct Ha. rewrite Hf. by apply list_elem_of_fmap_2.
  - destruct Ha. rewrite <- Hf. by apply list_elem_of_fmap_2.
Qed.

(** A listing with distinct names has one sorted arrangement. *)
Lemma sorted_unique l items :
  NoDup (name <$> items) → l ≡ₚ items → StronglySorted name_le l →
  l = sorted items.
Proof.
  intros Hnd Hperm Hsorted.
  apply (StronglySorted_unique_strong name_le);
    [|done|apply sorted_StronglySorted|by rewrite sorted_Permutation].
  intros x y Hx Hy Hxy Hyx.
  rewrite Hperm in Hx. rewrite sorted_Permutation in Hy.
  apply (NoDup_fmap_eq name items); [done..|].
  by apply (anti_symm String.le).
Qed.

Lemma StronglySorted_filter {A} (R : relation A) (P : A → Prop)
    `{∀ x, Decision (P x)} l :
  StronglySorted R l → StronglySorted R (filter P l).
Proof.
  induction 1 as [|x l Hl IH Hx]; [constructor|].
  rewrite filter_cons. destruct (decide (P x)); [|done].
  constructor; [done|].
  apply Forall_forall. intros y [_ Hy]%list_elem_of_filter.
  by eapply Forall_forall in Hx.
Qed.

Lemma name_prune_path p : name (prune_path p) = name p.
Proof. done. Qed.

Lemma sorted_prune items :
  NoDup (name <$> items) →
  sorted (prune_path <$> filter (λ q, ignored (name q) = false) items)
  = prune_path <$> filter (λ q, ignored (name q) = false) (sorted items).
Proof.
  intros Hnd. symmetry. apply sorted_unique.
  - rewrite <- list_fmap_compose.
    change (name ∘ prune_path) with name.
    eapply sublist_NoDup; [exact Hnd|].
    apply fmap_sublist, sublist_filter.
  - by rewrite sorted_Permutation.
  - apply (StronglySorted_fmap prune_path name_le name_le); [done|].
    apply StronglySorted_filter, sorted_StronglySorted.
Qed.

(** The loop on the pruned items that are not ignored, when the
    recursive call does not tell a pruned directory from the
    directory. *)
Lemma tree_loop_prune recurse items tree st :
  (∀ item st0, item ∈ items →
     recurse (prune_path item) st0 = recurse item st0) →
  tree_loop recurse
    (prune_path <$> filter (λ q, ignored (name q) = false) items) tree st
  = tree_loop recurse items tree st.
Proof.
  revert tree st. induction items as [|item items IH]; intros tree st Hrec;
    [done|].
  assert (∀ item' st0, item' ∈ items →
            recurse (prune_path item') st0 = recurse item' st0) as Hrec'.
  { intros item' st0 Hin. apply Hrec. by right. }
  rewrite filter_cons. simpl.
  destruct (ignored (name item)) eqn:Hign.
  - rewrite decide_False by done. by apply IH.
  - rewrite decide_True by done. csimpl.
    change (name (prune_path item)) with (name item).
    change (relative_to_root (prune_path item))
      with (relative_to_root item).
    rewrite Hign, (Hrec item st) by left.
    destruct (obj item) as [data|entries|e|e|]; simpl; try done.
    + destruct (analyze_file _ _ _). by apply IH.
    + destruct (recurse item st) as [[?|sub] st1]; [done|]. by apply IH.
    + destruct (recurse item st) as [[?|sub] st1]; [done|]. by apply IH.
    + by apply IH.
Qed.

Lemma unique_names_directory entries :
  unique_names (Directory entries) = true
  ↔ NoDup entries.*1 ∧ ∀ e, e ∈ entries → unique_names e.2 = true.
Proof.
  simpl. rewrite andb_true_iff, bool_decide_eq_true, forallb_forall.
  apply and_iff_compat_l.
  split; intros Hall e He; apply Hall; by apply list_elem_of_In.
Qed.

(** The builder does for a workspace what it does for the workspace
    without its ignored entries. *)
Lemma build_file_tree_prune path max_depth current_depth st :
  unique_names (obj path) = true →
  build_file_tree (prune_path path) max_depth current_depth st
  = build_file_tree path max_depth current_depth st.
Proof.
  apply (build_file_tree_elim
           (λ path max_depth current_depth st r,
              unique_names (obj path) = true →
              build_file_tree (prune_path path) max_depth current_depth st
              = r)); clear.
  - intros path max_depth current_depth Hgt st _ _.
    by apply build_file_tree_beyond.
  - intros path max_depth current_depth Hle st IH _ Huniq.
    rewrite build_file_tree_within by lia.
    destruct (obj path) as [data|entries|e|e|] eqn:Hobj;
      try (unfold iterdir, prune_path; simpl; rewrite Hobj; done).
    apply unique_names_directory in Huniq as [Hnd Hsub].
    rewrite (iterdir_prune path entries Hobj).
    assert (iterdir path
            = inr ((λ e : string * path_obj, Path (rel path ++ [e.1]) e.2)
                     <$> entries)) as Hiter
      by (unfold iterdir; by rewrite Hobj).
    rewrite Hiter.
    destruct (iterdir_names _ _ Hiter) as (entries' & Hobj' & _ & Hnames).
    assert (entries' = entries) as -> by congruence.
    rewrite sorted_prune by (by rewrite Hnames).
    rewrite tree_loop_prune; [done|].
    intros item st0 Hin. apply (IH []).
    rewrite sorted_Permutation in Hin.
    apply list_elem_of_fmap in Hin as ([n o] & -> & Hin). simpl.
    by apply (Hsub (n, o)).
Qed.

(** C9: no key of the built tree, at any depth, is an ignored name
    (one that starts with a dot or is [node_modules], [__pycache__] or
    [venv]); the loop of the builder yields the same tree, counters and
    dependency set for a listing as for the listing without its ignored
    items; and so does the builder for a workspace and for the workspace
    without its ignored entries, at every depth. *)
Theorem C9_ignored_entries path max_depth current_depth st :
  (∀ name,
     ignored name = true
     ↔ (∃ rest, name = String "." rest)
       ∨ name ∈ ["node_modules"; "__pycache__"; "venv"])
  ∧ (∀ tree st',
       build_file_tree path max_depth current_depth st = (inr tree, st') →
       keys_ok (λ k, negb (ignored k)) tree = true)
  ∧ (∀ recurse items tree,
       tree_loop recurse
         (filter (λ p, ignored (name p) = false) items) tree st
       = tree_loop recurse items tree st)
  ∧ (unique_names (obj path) = true →
     build_file_tree (prune_path path) max_depth current_depth st
     = build_file_tree path max_depth current_depth st).
Proof.
  split; [apply ignored_spec|].
  split; [intros tree st'; apply build_file_tree_keys_ok|].
  split; [intros; apply tree_loop_skips_ignored|].
  apply build_file_tree_prune.
Qed.

End Prune.

(** The sample workspace with and without its [.git] directory. *)
Lemma C9_ignored_entries_witness :
  build_file_tree (H := Sample.library)
    (prune_path (Path [] Sample.workspace)) 4 0 init
  = build_file_tree (H := Sample.library) (Path [] Sample.workspace) 4 0 init.
Proof.
  apply (C9_ignored_entries (H := Sample.library) (Path [] Sample.workspace)
           4 0 init).
  vm_compute. reflexivity.
Defined.

(** *** Counters and the tree *)

Section Counters.
Context `{Library}.

(** [analyze_file] leaves the file counter alone and adds to the line
    counter the [lines] it reports. *)
Lemma analyze_file_counters name data st :
  total_files (analyze_file name data st).2 = total_files st
  ∧ total_lines (analyze_file name data st).2
    = total_lines st + a_lines (analyze_file name data st).1.
Proof.
  unfold analyze_file.
  destruct (decide (lower (suffix name) = ".py")) as [_|_].
  - unfold analyze_python_file.
    destruct data as [e|content]; simpl; [lia|].
    destruct (ast_parse content) as [e|tree]; simpl; [lia|].
    unfold walk_loop.
    pose proof (foldl_visit_counters (walk tree) (PyLists [] [] []) st)
      as [Hl Hf].
    destruct (foldl visit _ (walk tree)) as [l st']. simpl in *. lia.
  - destruct (decide (lower (suffix name) ∈ _)) as [_|_].
    + unfold analyze_javascript_file.
      destruct data as [e|content]; simpl; [lia|].
      pose proof (foldl_add_dependency_counters
                    (λ imp : string,
                       if contains "/" imp then item0 (split "/" imp)
                       else imp)
                    (findall_imports content) st) as [Hl Hf].
      simpl in *. lia.
    + destruct data as [e|content]; simpl; lia.
Qed.

Lemma dict_set_fresh_counts k v tree :
  k ∉ tree.*1 →
  count_files (dict_set k v tree) = count_files tree + count_files_node v
  ∧ sum_lines (dict_set k v tree) = sum_lines tree + sum_lines_node v.
Proof.
  intros Hk. rewrite dict_set_fresh, count_files_app, sum_lines_app by done.
  simpl. lia.
Qed.

Lemma tree_loop_counters recurse items tree st raised tree' st' :
  (∀ item st0, item ∈ items →
     (∀ sub st1, recurse item st0 = (inr sub, st1) →
        total_files st1 = total_files st0 + count_files sub
        ∧ total_lines st1 = total_lines st0 + sum_lines sub)
     ∧ (∀ msg st1, recurse item st0 ≠ (inl (PermissionError msg), st1))) →
  NoDup (name <$> items) →
  (∀ k, k ∈ tree.*1 → k ∉ name <$> items) →
  tree_loop recurse items tree st = (raised, tree', st') →
  (raised = None ∨ ∃ msg, raised = Some (PermissionError msg)) →
  total_files st' - total_files st = count_files tree' - count_files tree
  ∧ total_lines st' - total_lines st = sum_lines tree' - sum_lines tree.
Proof.
  revert tree st.
  induction items as [|item items IH]; intros tree st Hrec Hnd Hkeys.
  { simpl. intros [= <- <- <-] _. lia. }
  rewrite fmap_cons in Hnd. apply NoDup_cons in Hnd as [Hfresh Hnd].
  assert (name item ∉ tree.*1) as Hnew.
  { intros Hin. apply (Hkeys _ Hin). rewrite fmap_cons. by left. }
  assert (∀ item' st0, item' ∈ items →
     (∀ sub st1, recurse item' st0 = (inr sub, st1) →
        total_files st1 = total_files st0 + count_files sub
        ∧ total_lines st1 = total_lines st0 + sum_lines sub)
     ∧ (∀ msg st1, recurse item' st0 ≠ (inl (PermissionError msg), st1)))
    as Hrec'.
  { intros item' st0 Hin. apply Hrec. by right. }
  assert (∀ k, k ∈ tree.*1 → k ∉ name <$> items) as Hkeys'.
  { intros k Hk Hin. apply (Hkeys k Hk). rewrite fmap_cons. by right. }
  assert (∀ v k, k ∈ (dict_set (name item) v tree).*1 →
            k ∉ name <$> items) as Hkeys''.
  { intros v k [->|Hk]%dict_set_keys; [done | by apply Hkeys']. }
  simpl. destruct (ignored (name item)); [by apply IH|].
  destruct (obj item) as [data|entries|e|e|].
  - pose proof (analyze_file_counters (name item) data (incr_files st))
      as [Hf Hl].
    destruct (analyze_file _ _ _) as [a st1]. simpl in Hf, Hl.
    intros Hloop Hraised.
    apply IH in Hloop as [Hf' Hl'];
      [|done|done|by apply Hkeys''|done].
    destruct (dict_set_fresh_counts (name item)
                (FileNode (relative_to_root item) a) tree Hnew) as [Hc Hs].
    rewrite Hc in Hf'. rewrite Hs in Hl'. simpl in *. lia.
  - destruct (recurse item st) as [[e|sub] st1] eqn:Hsub.
    { intros [= <- <- <-] [|[msg [= ->]]]; [done|].
      by destruct (Hrec item st ltac:(by left)) as [_ Hne], (Hne msg st1). }
    destruct (Hrec item st ltac:(by left)) as [Hcnt _].
    destruct (Hcnt _ _ Hsub) as [Hf Hl].
    intros Hloop Hraised. destruct sub as [|entry sub].
    { apply IH in Hloop as [Hf' Hl']; [|done..]. simpl in *. lia. }
    apply IH in Hloop as [Hf' Hl'];
      [|done|done|by apply Hkeys''|done].
    destruct (dict_set_fresh_counts (name item)
                (DirectoryNode (entry :: sub)) tree Hnew) as [Hc Hs].
    rewrite Hc, count_files_directory in Hf'.
    rewrite Hs, sum_lines_directory in Hl'. lia.
  - destruct (recurse item st) as [[e'|sub] st1] eqn:Hsub.
    { intros [= <- <- <-] [|[msg [= ->]]]; [done|].
      by destruct (Hrec item st ltac:(by left)) as [_ Hne], (Hne msg st1). }
    destruct (Hrec item st ltac:(by left)) as [Hcnt _].
    destruct (Hcnt _ _ Hsub) as [Hf Hl].
    intros Hloop Hraised. destruct sub as [|entry sub].
    { apply IH in Hloop as [Hf' Hl']; [|done..]. simpl in *. lia. }
    apply IH in Hloop as [Hf' Hl'];
      [|done|done|by apply Hkeys''|done].
    destruct (dict_set_fresh_counts (name item)
                (DirectoryNode (entry :: sub)) tree Hnew) as [Hc Hs].
    rewrite Hc, count_files_directory in Hf'.
    rewrite Hs, sum_lines_directory in Hl'. lia.
  - intros [= <- <- <-] _. lia.
  - by apply IH.
Qed.

(** The builder adds to the file counter the number of file nodes of
    the tree it returns and to the line counter the sum of their
    [lines]; and it never raises a [PermissionError]. *)
Lemma build_file_tree_counters path max_depth current_depth st :
  unique_names (obj path) = true →
  (∀ tree st',
     build_file_tree path max_depth current_depth st = (inr tree, st') →
     total_files st' = total_files st + count_files tree
     ∧ total_lines st' = total_lines st + sum_lines tree)
  ∧ (∀ msg st',
       build_file_tree path max_depth current_depth st
       ≠ (inl (PermissionError msg), st')).
Proof.
  apply (build_file_tree_elim
           (λ path max_depth current_depth st r,
              unique_names (obj path) = true →
              (∀ tree st', r = (inr tree, st') →
                 total_files st' = total_files st + count_files tree
                 ∧ total_lines st' = total_lines st + sum_lines tree)
              ∧ (∀ msg st', r ≠ (inl (PermissionError msg), st')))); clear.
  - intros path max_depth current_depth Hgt st _ _.
    split; [|done]. intros tree st' [= <- <-]. simpl. lia.
  - intros path max_depth current_depth Hle st IH _ Huniq.
    destruct (iterdir path) as [e|items] eqn:Hiter.
    { split; [|by destruct e].
      intros tree st' [-> ->]%except_PermissionError_returns. simpl. lia. }
    destruct (iterdir_names _ _ Hiter) as (entries & Hobj & Hitems & Hnames).
    rewrite Hobj in Huniq.
    apply unique_names_directory in Huniq as [Hnd Hsub].
    destruct (tree_loop _ _ _ _) as [[raised tree1] st1] eqn:Hloop.
    assert (raised = None ∨ (∃ msg, raised = Some (PermissionError msg)) →
            total_files st1 = total_files st + count_files tree1
            ∧ total_lines st1 = total_lines st + sum_lines tree1) as Hcnt.
    { intros Hraised.
      eapply tree_loop_counters in Hloop as [Hf Hl];
        [simpl in *; split; lia| | | |exact Hraised].
      - intros item st0 Hin. apply (IH []).
        rewrite sorted_Permutation, Hitems in Hin.
        apply list_elem_of_fmap in Hin as ([n o] & -> & Hin). simpl.
        by apply (Hsub (n, o)).
      - by rewrite sorted_Permutation, Hnames.
      - by intros k ?%elem_of_nil. }
    destruct raised as [e|].
    + split; [|by destruct e].
      intros tree st'. destruct e; simpl; try done.
      intros [= <- <-]. apply Hcnt. eauto.
    + split; [|done]. intros tree st' [= <- <-]. apply Hcnt. by left.
Qed.

(** C10: when the names within each directory of the workspace are
    distinct and the run completes, the report's [total_files] is the
    number of file nodes of [repository_structure] and its [total_lines]
    is the sum of their [lines]; a file recorded with an error or as
    binary counts as one file with zero lines. *)
Theorem C10_statistics_consistent repo_path root report st :
  unique_names root = true →
  generate_repo_map repo_path root init = (inr report, st) →
  stat_total_files (map_statistics report)
  = count_files (repository_structure report)
  ∧ stat_total_lines (map_statistics report)
    = sum_lines (repository_structure report)
  ∧ (∀ path type error,
       count_files_node (FileNode path (ErrorAnalysis type error)) = 1
       ∧ sum_lines_node (FileNode path (ErrorAnalysis type error)) = 0)
  ∧ (∀ path,
       count_files_node (FileNode path BinaryAnalysis) = 1
       ∧ sum_lines_node (FileNode path BinaryAnalysis) = 0).
Proof.
  intros Huniq. unfold generate_repo_map.
  destruct (build_file_tree (Path [] root) 4 0 init) as [[e|tree] st1]
    eqn:Hbuild; [done|].
  intros [= <- <-]. simpl.
  destruct (build_file_tree_counters (Path [] root) 4 0 init Huniq)
    as [Hcnt _].
  destruct (Hcnt _ _ Hbuild) as [Hf Hl]. simpl in *.
  split; [lia|]. split; [lia|]. done.
Qed.

End Counters.

(** The report for the sample workspace. *)
Lemma C10_statistics_consistent_witness :
  ∃ report st,
    generate_repo_map (H := Sample.library) "/tmp/tmpab12cd" Sample.workspace
      init = (inr report, st)
    ∧ stat_total_files (map_statistics report)
      = count_files (repository_structure report)
    ∧ stat_total_lines (map_statistics report)
      = sum_lines (repository_structure report).
Proof.
  destruct (generate_repo_map (H := Sample.library) "/tmp/tmpab12cd"
              Sample.workspace init) as [[e|report] st] eqn:Hrun;
    [by vm_compute in Hrun|].
  exists report, st. split; [done|].
  destruct (C10_statistics_consistent (H := Sample.library) "/tmp/tmpab12cd"
              Sample.workspace report st eq_refl Hrun) as (Hf & Hl & _).
  done.
Defined.

(** *** Failures local to one file *)

Section FileFailures.
Context `{Library}.

(** One iteration of the loop on a regular file that is not ignored. *)
Lemma tree_loop_file recurse item data items tree st :
  obj item = RegularFile data → ignored (name item) = false →
  tree_loop recurse (item :: items) tree st
  = tree_loop recurse items
      (dict_set (name item)
         (FileNode (relative_to_root item)
            (analyze_file (name item) data (incr_files st)).1) tree)
      (analyze_file (name item) data (incr_files st)).2.
Proof.
  intros Hobj Hign. simpl. rewrite Hign, Hobj.
  by destruct (analyze_file _ _ _).
Qed.

Lemma extraction_error_analysis name data type e st :
  extraction_error name data = Some (type, e) →
  analyze_file name data st = (ErrorAnalysis type (str e), st).
Proof.
  unfold extraction_error, analyze_file.
  destruct (decide (lower (suffix name) = ".py")) as [_|_].
  - unfold analyze_python_file. destruct data as [e'|content].
    + by intros [= <- <-].
    + destruct (ast_parse content) as [e'|tree]; [|done].
      by intros [= <- <-].
  - destruct (decide (lower (suffix name) ∈ _)) as [_|_]; [|done].
    unfold analyze_javascript_file. destruct data as [e'|content]; [|done].
    by intros [= <- <-].
Qed.

Lemma tree_loop_returns recurse items tree st :
  (∀ item, item ∈ items → listable (obj item) = true) →
  (∀ item st0 entries, item ∈ items → obj item = Directory entries →
     ∃ sub st1, recurse item st0 = (inr sub, st1)) →
  ∃ tree' st', tree_loop recurse items tree st = (None, tree', st').
Proof.
  revert tree st. induction items as [|item items IH];
    intros tree st Hlist Hrec; [simpl; eauto|].
  assert (∀ tree st, ∃ tree' st',
            tree_loop recurse items tree st = (None, tree', st')) as IH'.
  { intros tree0 st0. apply IH.
    - intros item' Hin. apply Hlist. by right.
    - intros item' st1 entries Hin. apply Hrec. by right. }
  pose proof (Hlist item ltac:(by left)) as Hitem.
  simpl. destruct (ignored (name item)); [apply IH'|].
  destruct (obj item) as [data|entries|e|e|] eqn:Hobj; try done.
  - destruct (analyze_file _ _ _). apply IH'.
  - destruct (Hrec item st entries ltac:(by left) Hobj) as (sub & st1 & ->).
    apply IH'.
Qed.

(** On a workspace in which no listing and no [stat] raises, the
    builder returns a tree, whatever reading and parsing the files
    gives. *)
Lemma build_file_tree_returns path max_depth current_depth st entries :
  obj path = Directory entries → listable (obj path) = true →
  ∃ tree st',
    build_file_tree path max_depth current_depth st = (inr tree, st').
Proof.
  revert entries.
  apply (build_file_tree_elim
           (λ path max_depth current_depth st r,
              ∀ entries,
                obj path = Directory entries → listable (obj path) = true →
                ∃ tree st', r = (inr tree, st'))); clear.
  - intros path max_depth current_depth Hgt st _ entries _ _. eauto.
  - intros path max_depth current_depth Hle st IH _ entries Hobj Hlist.
    assert (iterdir path
            = inr ((λ e : string * path_obj, Path (rel path ++ [e.1]) e.2)
                     <$> entries)) as ->
      by (unfold iterdir; by rewrite Hobj).
    rewrite Hobj in Hlist. simpl in Hlist.
    rewrite forallb_forall in Hlist.
    assert (∀ item,
              item ∈ sorted ((λ e : string * path_obj,
                                Path (rel path ++ [e.1]) e.2) <$> entries) →
              listable (obj item) = true) as Hitems.
    { intros item. rewrite sorted_Permutation.
      intros ([n o] & -> & Hin)%list_elem_of_fmap. simpl.
      apply (Hlist (n, o)). by apply list_elem_of_In. }
    destruct (tree_loop_returns
                (λ item st0,
                   build_file_tree item max_depth (current_depth + 1) st0)
                _ [] st Hitems) as (tree' & st' & ->); [|eauto].
    intros item st0 entries' Hin Hobj'.
    apply (IH [] item st0 entries' Hobj'). by apply Hitems.
Qed.

(** What a file is recorded as does not depend on [self]. *)
Lemma visit_lists_state l st st0 n :
  (visit (l, st) n).1 = (visit (l, st0) n).1.
Proof.
  destruct n as [names|module names| | |].
  - by rewrite !visit_import.
  - simpl. by destruct module as [[|c m]|].
  - done.
  - simpl. by destruct (existsb _ _).
  - done.
Qed.

Lemma foldl_visit_lists_state nodes l st st0 :
  (foldl visit (l, st) nodes).1 = (foldl visit (l, st0) nodes).1.
Proof.
  revert l st st0. induction nodes as [|n nodes IH]; intros l st st0; [done|].
  rewrite !foldl_visit_cons.
  pose proof (visit_lists_state l st st0 n) as Hv.
  destruct (visit (l, st) n) as [l1 st1], (visit (l, st0) n) as [l2 st2].
  simpl in Hv. subst l2. apply IH.
Qed.

Lemma analyze_file_result_state name data st st0 :
  (analyze_file name data st).1 = (analyze_file name data st0).1.
Proof.
  unfold analyze_file.
  destruct (decide (lower (suffix name) = ".py")) as [_|_].
  - unfold analyze_python_file. destruct data as [e|content]; [done|].
    destruct (ast_parse content) as [e|tree]; [done|].
    unfold walk_loop.
    pose proof (foldl_visit_lists_state (walk tree) (PyLists [] [] []) st st0)
      as Hl.
    destruct (foldl visit (_, st) _) as [l1 st1],
      (foldl visit (_, st0) _) as [l2 st2].
    simpl in *. by subst l2.
  - destruct (decide (lower (suffix name) ∈ _)) as [_|_].
    + unfold analyze_javascript_file. by destruct data.
    + by destruct data.
Qed.

(** Neither does the outcome of the loop, nor the tree that the builder
    returns or the exception it raises. *)
Lemma tree_loop_result_state recurse items tree st st0 :
  (∀ item st1 st2, item ∈ items →
     (recurse item st1).1 = (recurse item st2).1) →
  (tree_loop recurse items tree st).1 = (tree_loop recurse items tree st0).1.
Proof.
  revert tree st st0. induction items as [|item items IH];
    intros tree st st0 Hrec; [done|].
  assert (∀ tree st st0,
            (tree_loop recurse items tree st).1
            = (tree_loop recurse items tree st0).1) as IH'.
  { intros tree1 st1 st2. apply IH. intros item' st3 st4 Hin.
    apply Hrec. by right. }
  pose proof (λ st1 st2, Hrec item st1 st2 ltac:(by left)) as Hitem.
  simpl. destruct (ignored (name item)); [apply IH'|].
  destruct (obj item) as [data|entries|e|e|].
  - pose proof (analyze_file_result_state (name item) data (incr_files st)
                  (incr_files st0)) as Ha.
    destruct (analyze_file _ _ (incr_files st)) as [a1 st1],
      (analyze_file _ _ (incr_files st0)) as [a2 st2].
    simpl in Ha. subst a2. apply IH'.
  - specialize (Hitem st st0).
    destruct (recurse item st) as [r1 st1], (recurse item st0) as [r2 st2].
    simpl in Hitem. subst r2. destruct r1 as [e|sub]; [done|apply IH'].
  - specialize (Hitem st st0).
    destruct (recurse item st) as [r1 st1], (recurse item st0) as [r2 st2].
    simpl in Hitem. subst r2. destruct r1 as [e'|sub]; [done|apply IH'].
  - done.
  - apply IH'.
Qed.

Lemma build_file_tree_result_state path max_depth current_depth st st0 :
  (build_file_tree path max_depth current_depth st).1
  = (build_file_tree path max_depth current_depth st0).1.
Proof.
  revert st0.
  apply (build_file_tree_elim
           (λ path max_depth current_depth st r,
              ∀ st0, r.1
                     = (build_file_tree path max_depth current_depth st0).1));
    clear.
  - intros path max_depth current_depth Hgt st _ st0.
    by rewrite build_file_tree_beyond.
  - intros path max_depth current_depth Hle st IH _ st0.
    rewrite (build_file_tree_within _ _ _ st0) by lia.
    destruct (iterdir path) as [e|items]; [by destruct e|].
    pose proof (tree_loop_result_state
                  (λ item st1,
                     build_file_tree item max_depth (current_depth + 1) st1)
                  (sorted items) [] st st0
                  (λ item st3 st4 _, IH items item st3 st4)) as Hloop.
    destruct (tree_loop _ _ _ st) as [[raised1 tree1] st1],
      (tree_loop _ _ _ st0) as [[raised2 tree2] st2].
    simpl in Hloop. injection Hloop as <- <-.
    destruct raised1 as [e|]; [by destruct e | done].
Qed.

(** With distinct names, a loop that is not ended by an exception keeps
    the entries it started with and adds one for every regular file and
    one for every directory whose tree is not empty. *)
Lemma tree_loop_entries recurse items tree st tree' st' :
  (∀ item st1 st2, item ∈ items →
     (recurse item st1).1 = (recurse item st2).1) →
  NoDup (name <$> items) →
  (∀ k, k ∈ tree.*1 → k ∉ name <$> items) →
  tree_loop recurse items tree st = (None, tree', st') →
  (∀ entry, entry ∈ tree → entry ∈ tree')
  ∧ (∀ item data,
       item ∈ items → ignored (name item) = false →
       obj item = RegularFile data →
       (name item,
        FileNode (relative_to_root item)
          (analyze_file (name item) data init).1) ∈ tree')
  ∧ (∀ item entries sub,
       item ∈ items → ignored (name item) = false →
       obj item = Directory entries →
       (recurse item init).1 = inr sub → sub ≠ [] →
       (name item, DirectoryNode sub) ∈ tree').
Proof.
  revert tree st. induction items as [|item items IH];
    intros tree st Hrec Hnd Hkeys.
  { simpl. intros [= <- <-]. split; [done|].
    split; [intros item data Hin | intros item entries sub Hin];
      by apply elem_of_nil in Hin. }
  rewrite fmap_cons in Hnd. apply NoDup_cons in Hnd as [Hfresh Hnd].
  assert (name item ∉ tree.*1) as Hnew.
  { intros Hin. apply (Hkeys _ Hin). rewrite fmap_cons. by left. }
  assert (∀ item' st1 st2, item' ∈ items →
            (recurse item' st1).1 = (recurse item' st2).1) as Hrec'.
  { intros item' st1 st2 Hin. apply Hrec. by right. }
  assert (∀ k, k ∈ tree.*1 → k ∉ name <$> items) as Hkeys'.
  { intros k Hk Hin. apply (Hkeys k Hk). rewrite fmap_cons. by right. }
  assert (∀ v k, k ∈ (dict_set (name item) v tree).*1 →
            k ∉ name <$> items) as Hkeys''.
  { intros v k [->|Hk]%dict_set_keys; [done | by apply Hkeys']. }
  assert (∀ v entry, entry ∈ tree → entry ∈ dict_set (name item) v tree)
    as Hold.
  { intros v entry Hin. rewrite dict_set_fresh by done.
    apply elem_of_app. by left. }
  assert (∀ v, (name item, v) ∈ dict_set (name item) v tree) as Hadded.
  { intros v. rewrite dict_set_fresh by done.
    apply elem_of_app. right. by apply list_elem_of_singleton. }
  pose proof (λ st1 st2, Hrec item st1 st2 ltac:(by left)) as Hitem.
  simpl. destruct (ignored (name item)) eqn:Hign.
  { intros Hloop. destruct (IH _ _ Hrec' Hnd Hkeys' Hloop) as (H1 & H2 & H3).
    split; [done|]. split.
    - intros item' data [->|Hin]%elem_of_cons Hign' Hobj;
        [congruence | by apply H2].
    - intros item' entries sub [->|Hin]%elem_of_cons Hign' Hobj;
        [congruence | by eapply H3]. }
  destruct (obj item) as [data|entries|e|e|] eqn:Hobj.
  - pose proof (analyze_file_result_state (name item) data (incr_files st)
                  init) as Ha.
    destruct (analyze_file _ _ (incr_files st)) as [a st1]. simpl in Ha.
    intros Hloop.
    destruct (IH _ _ Hrec' Hnd (Hkeys'' _) Hloop) as (H1 & H2 & H3).
    split; [intros entry Hin; by apply H1, Hold|]. split.
    + intros item' data' [->|Hin]%elem_of_cons Hign' Hobj';
        [|by apply H2].
      rewrite Hobj in Hobj'. injection Hobj' as <-. rewrite <- Ha.
      apply H1, Hadded.
    + intros item' entries sub [->|Hin]%elem_of_cons Hign' Hobj';
        [congruence | by eapply H3].
  - specialize (Hitem st init).
    destruct (recurse item st) as [[e|sub0] st1]; [done|]. simpl in Hitem.
    intros Hloop.
    assert (∃ tree1,
              tree_loop recurse items tree1 st1 = (None, tree', st')
              ∧ (∀ k, k ∈ tree1.*1 → k ∉ name <$> items)
              ∧ (∀ entry, entry ∈ tree → entry ∈ tree1)
              ∧ (sub0 ≠ [] → (name item, DirectoryNode sub0) ∈ tree1))
      as (tree1 & Hloop1 & Hk1 & Hold1 & Hadded1).
    { destruct sub0 as [|entry sub0].
      - exists tree. by repeat split.
      - eexists. split; [exact Hloop|]. split; [apply Hkeys''|].
        split; [apply Hold|]. intros _. apply Hadded. }
    destruct (IH _ _ Hrec' Hnd Hk1 Hloop1) as (H1 & H2 & H3).
    split; [intros entry Hin; by apply H1, Hold1|]. split.
    + intros item' data' [->|Hin]%elem_of_cons Hign' Hobj';
        [congruence | by apply H2].
    + intros item' entries' sub [->|Hin]%elem_of_cons Hign' Hobj' Hsub Hne;
        [|by eapply H3].
      rewrite <- Hitem in Hsub. injection Hsub as <-. by apply H1, Hadded1.
  - destruct (recurse item st) as [[e'|sub0] st1]; [done|].
    intros Hloop.
    assert (∃ tree1,
              tree_loop recurse items tree1 st1 = (None, tree', st')
              ∧ (∀ k, k ∈ tree1.*1 → k ∉ name <$> items)
              ∧ (∀ entry, entry ∈ tree → entry ∈ tree1))
      as (tree1 & Hloop1 & Hk1 & Hold1).
    { destruct sub0 as [|entry sub0].
      - exists tree. by repeat split.
      - eexists. split; [exact Hloop|]. split; [apply Hkeys''|].
        apply Hold. }
    destruct (IH _ _ Hrec' Hnd Hk1 Hloop1) as (H1 & H2 & H3).
    split; [intros entry Hin; by apply H1, Hold1|]. split.
    + intros item' data' [->|Hin]%elem_of_cons Hign' Hobj';
        [congruence | by apply H2].
    + intros item' entries' sub [->|Hin]%elem_of_cons Hign' Hobj';
        [congruence | by eapply H3].
  - done.
  - intros Hloop. destruct (IH _ _ Hrec' Hnd Hkeys' Hloop) as (H1 & H2 & H3).
    split; [done|]. split.
    + intros item' data [->|Hin]%elem_of_cons Hign' Hobj';
        [congruence | by apply H2].
    + intros item' entries sub [->|Hin]%elem_of_cons Hign' Hobj';
        [congruence | by eapply H3].
Qed.

(** On a directory in which no listing and no [stat] raises and names
    are distinct, the tree the builder returns holds a file node for
    every regular file that is not ignored, with what [analyze_file]
    gives for that file alone, and a directory node for every directory
    that is not ignored and whose own tree is not empty. *)
Lemma build_file_tree_entries path entries max_depth current_depth st :
  obj path = Directory entries → listable (obj path) = true →
  NoDup entries.*1 → current_depth ≤ max_depth →
  ∃ tree st',
    build_file_tree path max_depth current_depth st = (inr tree, st')
    ∧ (∀ n data,
         (n, RegularFile data) ∈ entries → ignored n = false →
         (n, FileNode (join "/" (rel path ++ [n]))
               (analyze_file n data init).1) ∈ tree)
    ∧ (∀ n sub_entries sub,
         (n, Directory sub_entries) ∈ entries → ignored n = false →
         (build_file_tree (Path (rel path ++ [n]) (Directory sub_entries))
            max_depth (current_depth + 1) init).1 = inr sub →
         sub ≠ [] →
         (n, DirectoryNode sub) ∈ tree).
Proof.
  intros Hobj Hlist Hnd Hle.
  destruct (build_file_tree_returns path max_depth current_depth st entries
              Hobj Hlist) as (tree & st' & Hbuild).
  exists tree, st'. split; [done|].
  rewrite build_file_tree_within in Hbuild by done.
  assert (iterdir path
          = inr ((λ e : string * path_obj, Path (rel path ++ [e.1]) e.2)
                   <$> entries)) as Hiter
    by (unfold iterdir; by rewrite Hobj).
  rewrite Hiter in Hbuild.
  destruct (iterdir_names _ _ Hiter) as (entries' & Hobj' & _ & Hnames).
  destruct (tree_loop _ _ _ _) as [[raised tree1] st1] eqn:Hloop.
  assert (raised = None ∧ tree1 = tree) as [-> ->].
  { rewrite Hobj in Hlist. simpl in Hlist. rewrite forallb_forall in Hlist.
    destruct (tree_loop_returns
                (λ item st0,
                   build_file_tree item max_depth (current_depth + 1) st0)
                (sorted ((λ e : string * path_obj,
                            Path (rel path ++ [e.1]) e.2) <$> entries))
                [] st) as (tree2 & st2 & Hloop2).
    - intros item. rewrite sorted_Permutation.
      intros ([n o] & -> & Hin)%list_elem_of_fmap. simpl.
      apply (Hlist (n, o)). by apply list_elem_of_In.
    - intros item st0 entries0 Hin Hobj0.
      apply (build_file_tree_returns _ _ _ _ entries0 Hobj0).
      rewrite sorted_Permutation in Hin.
      apply list_elem_of_fmap in Hin as ([n o] & -> & Hin). simpl.
      apply (Hlist (n, o)). by apply list_elem_of_In.
    - rewrite Hloop in Hloop2. injection Hloop2 as -> -> ->.
      by injection Hbuild as ->. }
  apply tree_loop_entries in Hloop as (_ & Hfiles & Hdirs).
  - split.
    + intros n data Hin Hign.
      specialize (Hfiles (Path (rel path ++ [n]) (RegularFile data)) data).
      rewrite name_child, relative_to_root_child in Hfiles.
      apply Hfiles; [|done..]. rewrite sorted_Permutation.
      apply list_elem_of_fmap. by exists (n, RegularFile data).
    + intros n sub_entries sub Hin Hign Hsub Hne.
      specialize (Hdirs (Path (rel path ++ [n]) (Directory sub_entries))
                    sub_entries sub).
      rewrite name_child in Hdirs.
      apply Hdirs; [|done..]. rewrite sorted_Permutation.
      apply list_elem_of_fmap. by exists (n, Directory sub_entries).
  - intros item st1' st2' _. apply build_file_tree_result_state.
  - rewrite sorted_Permutation, Hnames. rewrite Hobj in Hobj'.
    by injection Hobj' as <-.
  - by intros k ?%elem_of_nil.
Qed.

(** C4: when the structured extraction of a file raises, the file is
    recorded with the text of the error, zero lines and no summary, and
    [self] is left as it was; the loop of the builder records it and
    goes on with the items that remain; on a workspace in which no
    listing and no [stat] raises, the builder returns a tree whatever
    the extraction of its files gives, and the request is answered with
    the success dictionary when the workspace can be removed; and the
    tree returned for the directory that holds the file (with distinct
    names, within the depth bound) has the failure record under the name
    of the file, beside a file node for every other regular file that is
    not ignored and a directory node for every directory that is not
    ignored and whose tree is not empty. *)
Theorem C4_extraction_failure_local item data type e :
  obj item = RegularFile data →
  ignored (name item) = false →
  extraction_error (name item) data = Some (type, e) →
  (∀ st, ∃ a,
     analyze_file (name item) data st = (a, st)
     ∧ a_error a = Some (str e) ∧ a_lines a = 0 ∧ has_summary a = false
     ∧ a_preview a = None ∧ a_type a = type)
  ∧ (∀ recurse items tree st,
       tree_loop recurse (item :: items) tree st
       = tree_loop recurse items
           (dict_set (name item)
              (FileNode (relative_to_root item)
                 (ErrorAnalysis type (str e))) tree)
           (incr_files st))
  ∧ (∀ path entries max_depth current_depth st,
       obj path = Directory entries → listable (obj path) = true →
       ∃ tree st',
         build_file_tree path max_depth current_depth st = (inr tree, st'))
  ∧ (∀ repo_url env d entries,
       git_clone env = inr (Directory entries) →
       listable (Directory entries) = true → rmtree_raises env = None →
       success (analyze_repository repo_url env d).1 = true)
  ∧ (∀ path entries max_depth current_depth st,
       obj path = Directory entries → listable (obj path) = true →
       NoDup entries.*1 → current_depth ≤ max_depth →
       (name item, RegularFile data) ∈ entries →
       ∃ tree st',
         build_file_tree path max_depth current_depth st = (inr tree, st')
         ∧ (name item,
            FileNode (join "/" (rel path ++ [name item]))
              (ErrorAnalysis type (str e))) ∈ tree
         ∧ (∀ n data',
              (n, RegularFile data') ∈ entries → ignored n = false →
              (n, FileNode (join "/" (rel path ++ [n]))
                    (analyze_file n data' init).1) ∈ tree)
         ∧ (∀ n sub_entries sub,
              (n, Directory sub_entries) ∈ entries → ignored n = false →
              (build_file_tree
                 (Path (rel path ++ [n]) (Directory sub_entries))
                 max_depth (current_depth + 1) init).1 = inr sub →
              sub ≠ [] →
              (n, DirectoryNode sub) ∈ tree)).
Proof.
  intros Hobj Hign Herr. split; [|split; [|split; [|split]]].
  - intros st. eexists. split; [by apply extraction_error_analysis|done].
  - intros recurse items tree st.
    rewrite (tree_loop_file _ _ data) by done.
    by rewrite (extraction_error_analysis _ _ _ _ _ Herr).
  - intros path entries max_depth current_depth st.
    apply build_file_tree_returns.
  - intros repo_url env d entries Hclone Hlist Hrm.
    destruct (build_file_tree_returns (Path [] (Directory entries)) 4 0 init
                entries eq_refl Hlist) as (tree & st & Hbuild).
    unfold analyze_repository, analyze_repository_try, clone_repository.
    rewrite Hclone. simpl. unfold generate_repo_map. rewrite Hbuild. simpl.
    unfold rmtree. by rewrite Hrm.
  - intros path entries max_depth current_depth st Hdir Hlist Hnd Hle Hin.
    destruct (build_file_tree_entries path entries max_depth current_depth
                st Hdir Hlist Hnd Hle) as (tree & st' & Hbuild & Hfiles & Hdirs).
    exists tree, st'. split; [done|]. split; [|done].
    pose proof (Hfiles _ _ Hin Hign) as Hrec.
    by rewrite (extraction_error_analysis _ _ _ _ _ Herr) in Hrec.
Qed.

(** C5, as amended: a file that is not of a structured variant and
    cannot be read is recorded as binary, with zero lines, no preview
    and no error text, [self] is left as it was, and the loop of the
    builder goes on with the items that remain; a structured file that
    cannot be read is recorded with the text of the error instead. *)
Theorem C5_unreadable_file item e :
  obj item = RegularFile (inl e) →
  ignored (name item) = false →
  (structured (name item) = false →
     (∀ st, analyze_file (name item) (inl e) st = (BinaryAnalysis, st))
     ∧ unreadable_outcome BinaryAnalysis
     ∧ ∀ recurse items tree st,
         tree_loop recurse (item :: items) tree st
         = tree_loop recurse items
             (dict_set (name item)
                (FileNode (relative_to_root item) BinaryAnalysis) tree)
             (incr_files st))
  ∧ (structured (name item) = true →
     ∃ type, ∀ st,
       analyze_file (name item) (inl e) st
       = (ErrorAnalysis type (str e), st)).
Proof.
  intros Hobj Hign. unfold structured. split.
  - intros Hplain%bool_decide_eq_false.
    assert (∀ st, analyze_file (name item) (inl e) st
                  = (BinaryAnalysis, st)) as Hbin.
    { intros st. unfold analyze_file.
      rewrite decide_False by (intros Heq; apply Hplain; rewrite Heq;
                               set_solver).
      rewrite decide_False by set_solver. done. }
    split; [done|]. split; [done|].
    intros recurse items tree st.
    rewrite (tree_loop_file _ _ (inl e)) by done. by rewrite Hbin.
  - intros Hs%bool_decide_eq_true. unfold analyze_file.
    destruct (decide (lower (suffix (name item)) = ".py")) as [|Hne].
    + by exists "python".
    + exists "javascript". intros st.
      rewrite decide_True; [done|].
      apply elem_of_cons in Hs as [Heq|Hs]; [done|exact Hs].
Qed.

End FileFailures.

(** The sample workspace: [broken.py] does not parse; the tree built
    for the workspace has its failure record, the node of [main.py] with
    its summary, and the directory [src]. *)
Lemma C4_extraction_failure_local_witness :
  ∃ tree st',
    build_file_tree (H := Sample.library) (Path [] Sample.workspace) 4 0 init
    = (inr tree, st')
    ∧ ("broken.py",
       FileNode "broken.py" (ErrorAnalysis "python" "invalid syntax")) ∈ tree
    ∧ ("main.py",
       FileNode "main.py"
         (PythonAnalysis 1 [] [ClassInfo "Foo" 3 ["bar"]]
            [FunctionInfo "baz" 1 []] "scenario1")) ∈ tree
    ∧ ("src",
       DirectoryNode
         [("deps.py",
           FileNode "src/deps.py"
             (PythonAnalysis 1 ["os"; "os.path"] [] [] "scenario2"))]) ∈ tree.
Proof.
  destruct (C4_extraction_failure_local (H := Sample.library)
              (Path ["broken.py"] (RegularFile (inr "def (")))
              (inr "def (") "python" (OtherException "invalid syntax")
              eq_refl eq_refl eq_refl) as (_ & _ & _ & _ & Htree).
  destruct (Htree (Path [] Sample.workspace) _ 4 0 init eq_refl eq_refl)
    as (tree & st' & Hbuild & Hbroken & Hfiles & Hdirs).
  - simpl. repeat constructor; set_solver.
  - done.
  - simpl. set_solver.
  - exists tree, st'. split; [done|]. split; [exact Hbroken|]. split.
    + apply (Hfiles "main.py" (inr "scenario1")); [set_solver | done].
    + apply (Hdirs "src" [("deps.py", RegularFile (inr "scenario2"));
                          ("empty", Directory [])]);
        [set_solver | done | by vm_compute | done].
Defined.

(** C5, where it does not hold: a Python source file that cannot be
    decoded is recorded with the text of the error, not as the unreadable
    outcome. *)
Lemma C5_unreadable_python_counterexample :
  (analyze_file (H := Sample.library) "module.py" (inl Sample.undecodable)
     init).1
  = ErrorAnalysis "python"
      "'utf-8' codec can't decode byte 0xff in position 0"
  ∧ ¬ unreadable_outcome
        (analyze_file (H := Sample.library) "module.py"
           (inl Sample.undecodable) init).1.
Proof.
  split; [vm_compute; reflexivity|].
  intros (Htype & _). vm_compute in Htype. discriminate.
Qed.

(** An image that cannot be decoded, in front of a text file. *)
Lemma C5_unreadable_file_witness :
  tree_loop (H := Sample.library) (λ _ st, (inr [], st))
    [Path ["logo.png"] (RegularFile (inl Sample.undecodable));
     Path ["notes.txt"] (RegularFile (inr "hello"))] [] init
  = tree_loop (H := Sample.library) (λ _ st, (inr [], st))
      [Path ["notes.txt"] (RegularFile (inr "hello"))]
      [("logo.png", FileNode "logo.png" BinaryAnalysis)]
      (incr_files init).
Proof.
  destruct (C5_unreadable_file (H := Sample.library)
              (Path ["logo.png"] (RegularFile (inl Sample.undecodable)))
              Sample.undecodable eq_refl eq_refl) as [Hplain _].
  destruct (Hplain eq_refl) as (_ & _ & Hloop). apply Hloop.
Defined.

(** ** Further properties of the builder *)

Import Shape.

Section Pruning.
Context `{Library}.

Lemma tree_loop_all_ignored recurse items tree st :
  Forall (λ p, ignored (name p) = true) items →
  tree_loop recurse items tree st = (None, tree, st).
Proof.
  induction 1 as [|item items Hign _ IH]; simpl; [done|]. by rewrite Hign.
Qed.

(** A directory that holds nothing but ignored entries (or nothing at
    all) is built as the empty tree without touching [self], and the loop
    of its parent goes past it without adding a key. *)
Theorem ignored_only_directory_pruned item entries max_depth current_depth :
  obj item = Directory entries →
  Forall (λ e : string * path_obj, ignored e.1 = true) entries →
  (∀ st, build_file_tree item max_depth current_depth st = (inr [], st))
  ∧ ∀ items tree st,
      ignored (name item) = false →
      tree_loop
        (λ item st, build_file_tree item max_depth current_depth st)
        (item :: items) tree st
      = tree_loop
          (λ item st, build_file_tree item max_depth current_depth st)
          items tree st.
Proof.
  intros Hobj Hall.
  assert (∀ st, build_file_tree item max_depth current_depth st
                = (inr [], st)) as Hempty.
  { intros st.
    destruct (decide (current_depth > max_depth)) as [Hgt|Hle];
      [by apply build_file_tree_beyond|].
    rewrite build_file_tree_within by lia.
    unfold iterdir. rewrite Hobj.
    rewrite tree_loop_all_ignored; [done|].
    apply Forall_forall. intros p. rewrite sorted_Permutation.
    intros ([n o] & -> & Hin)%list_elem_of_fmap. rewrite name_child.
    by apply (proj1 (Forall_forall _ _) Hall (n, o)). }
  split; [done|].
  intros items tree st Hign. simpl. by rewrite Hign, Hobj, Hempty.
Qed.

End Pruning.

(** An empty directory and a directory that holds only [.git]. *)
Lemma ignored_only_directory_pruned_witness :
  build_file_tree (H := Sample.library)
    (Path ["vendor"] (Directory [(".git", Directory [])])) 4 1 init
  = (inr [], init).
Proof.
  apply (ignored_only_directory_pruned (H := Sample.library)
           (Path ["vendor"] (Directory [(".git", Directory [])]))
           [(".git", Directory [])] 4 1 eq_refl).
  by repeat constructor.
Defined.

Section Order.
Context `{Library}.

Lemma dict_set_present {V} k (v : V) d :
  k ∈ d.*1 → (dict_set k v d).*1 = d.*1.
Proof.
  induction d as [|[k0 v0] d IH]; csimpl; [by intros ?%elem_of_nil|].
  destruct (String.eqb k0 k) eqn:Heq.
  - apply String.eqb_eq in Heq as ->. done.
  - apply String.eqb_neq in Heq. intros [->|Hin]%elem_of_cons; [done|].
    csimpl. by rewrite IH.
Qed.

Lemma dict_set_keys_sorted {V} k (v : V) d :
  StronglySorted String.le d.*1 →
  (∀ k', k' ∈ d.*1 → String.le k' k) →
  StronglySorted String.le (dict_set k v d).*1.
Proof.
  intros Hs Hle. destruct (decide (k ∈ d.*1)) as [Hin|Hnew].
  - by rewrite dict_set_present.
  - rewrite dict_set_fresh, fmap_app by done. simpl.
    apply StronglySorted_app; split; [|split; [done|repeat constructor]].
    intros k1 k2 Hk1 ->%list_elem_of_singleton. by apply Hle.
Qed.

Lemma keys_sorted_below_dict_set k v t :
  keys_sorted_node v → keys_sorted_below t →
  keys_sorted_below (dict_set k v t).
Proof.
  intros Hv. induction t as [|[k0 v0] t IH]; simpl; [done|].
  intros [H0 Ht]. destruct (String.eqb k0 k); simpl; auto.
Qed.

Lemma tree_loop_keys_sorted recurse items tree st raised tree' st' :
  (∀ item st0 sub st1,
     recurse item st0 = (inr sub, st1) → keys_sorted sub) →
  StronglySorted name_le items →
  keys_sorted tree →
  (∀ k item, k ∈ tree.*1 → item ∈ items → String.le k (name item)) →
  tree_loop recurse items tree st = (raised, tree', st') →
  keys_sorted tree'.
Proof.
  intros Hrec. revert tree st.
  induction items as [|item items IH]; intros tree st Hitems Hsorted Hle.
  { simpl. by intros [= <- <- <-]. }
  apply StronglySorted_cons in Hitems as [Hfirst Hitems].
  assert (∀ k item', k ∈ tree.*1 → item' ∈ items →
            String.le k (name item')) as Hle'.
  { intros k item' Hk Hin. apply Hle; [done | by right]. }
  assert (∀ v, keys_sorted_node v →
            keys_sorted (dict_set (name item) v tree)
            ∧ ∀ k item', k ∈ (dict_set (name item) v tree).*1 →
                item' ∈ items → String.le k (name item')) as Hset.
  { intros v Hv. destruct Hsorted as [Hs Hb]. split; [split|].
    - apply dict_set_keys_sorted; [done|].
      intros k' Hk'. apply Hle; [done | by left].
    - by apply keys_sorted_below_dict_set.
    - intros k item' [->|Hk]%dict_set_keys Hin; [|by apply Hle'].
      by apply (proj1 (Forall_forall _ _) Hfirst). }
  simpl. destruct (ignored (name item)); [by apply IH|].
  destruct (obj item) as [data|entries|e|e|].
  - destruct (analyze_file _ _ _) as [a st1].
    destruct (Hset (FileNode (relative_to_root item) a) I) as [Hs' Hle''].
    by apply IH.
  - destruct (recurse item st) as [[e|sub] st1] eqn:Hsub.
    { by intros [= <- <- <-]. }
    destruct sub as [|entry sub]; [by apply IH|].
    destruct (Hset (DirectoryNode (entry :: sub))) as [Hs' Hle''];
      [exact (Hrec _ _ _ _ Hsub) | by apply IH].
  - destruct (recurse item st) as [[e'|sub] st1] eqn:Hsub.
    { by intros [= <- <- <-]. }
    destruct sub as [|entry sub]; [by apply IH|].
    destruct (Hset (DirectoryNode (entry :: sub))) as [Hs' Hle''];
      [exact (Hrec _ _ _ _ Hsub) | by apply IH].
  - by intros [= <- <- <-].
  - by apply IH.
Qed.

(** Whatever the order in which the file system lists a directory, the
    keys of every child mapping of the built tree are in ascending
    order, also when a [PermissionError] ends a listing early. *)
Theorem build_file_tree_keys_sorted path max_depth current_depth st tree st' :
  build_file_tree path max_depth current_depth st = (inr tree, st') →
  keys_sorted tree.
Proof.
  revert tree st'.
  apply (build_file_tree_elim
           (λ path max_depth current_depth st r,
              ∀ tree st', r = (inr tree, st') → keys_sorted tree)); clear.
  - intros path max_depth current_depth Hgt st _ tree st' [= <- <-].
    split; [constructor|done].
  - intros path max_depth current_depth Hle st IH _ tree st'.
    destruct (iterdir path) as [e|items].
    { intros [-> _]%except_PermissionError_returns.
      split; [constructor|done]. }
    destruct (tree_loop _ _ _ _) as [[raised tree1] st1] eqn:Hloop.
    intros Hret.
    assert (tree = tree1) as ->.
    { destruct raised as [e|]; [|by inversion Hret].
      by apply except_PermissionError_returns in Hret as [-> _]. }
    eapply tree_loop_keys_sorted; [| | | |exact Hloop].
    + intros item st0 sub st2. apply (IH items).
    + apply sorted_StronglySorted.
    + split; [constructor|done].
    + by intros k item ?%elem_of_nil.
Qed.

End Order.

(** The sample workspace, listed in an order that is not sorted. *)
Lemma build_file_tree_keys_sorted_witness :
  ∃ tree st',
    build_file_tree (H := Sample.library) (Path [] Sample.workspace) 4 0 init
    = (inr tree, st')
    ∧ keys_sorted tree
    ∧ tree.*1 = ["broken.py"; "logo.png"; "main.py"; "src"].
Proof.
  destruct (build_file_tree (H := Sample.library) (Path [] Sample.workspace)
              4 0 init) as [[e|tree] st'] eqn:Hrun;
    [by vm_compute in Hrun|].
  exists tree, st'. split; [done|]. split.
  - exact (build_file_tree_keys_sorted (H := Sample.library) _ _ _ _ _ _ Hrun).
  - vm_compute in Hrun. by inversion Hrun.
Defined.

Section Permissions.
Context `{Library}.

Lemma except_PermissionError_not_permission e tree st msg st' :
  except_PermissionError e tree st ≠ (inl (PermissionError msg), st').
Proof. by destruct e. Qed.

Lemma tree_loop_permission_only recurse items tree st :
  (∀ item, item ∈ items → permission_only (obj item) = true) →
  (∀ item st0, item ∈ items → is_dir (obj item) = true →
     ∃ sub st1, recurse item st0 = (inr sub, st1)) →
  ∃ raised tree' st',
    tree_loop recurse items tree st = (raised, tree', st')
    ∧ (raised = None ∨ ∃ msg, raised = Some (PermissionError msg)).
Proof.
  revert tree st. induction items as [|item items IH];
    intros tree st Hperm Hrec; [simpl; eauto 10|].
  assert (∀ tree st, ∃ raised tree' st',
            tree_loop recurse items tree st = (raised, tree', st')
            ∧ (raised = None ∨ ∃ msg, raised = Some (PermissionError msg)))
    as IH'.
  { intros tree0 st0. apply IH.
    - intros item' Hin. apply Hperm. by right.
    - intros item' st1 Hin. apply Hrec. by right. }
  pose proof (Hperm item ltac:(by left)) as Hitem.
  pose proof (λ st0, Hrec item st0 ltac:(by left)) as Hsub.
  simpl. destruct (ignored (name item)); [apply IH'|].
  destruct (obj item) as [data|entries|e|e|] eqn:Hobj; simpl in *.
  - destruct (analyze_file _ _ _). apply IH'.
  - destruct (Hsub st eq_refl) as (sub & st1 & ->). apply IH'.
  - destruct (Hsub st eq_refl) as (sub & st1 & ->). apply IH'.
  - destruct e; try done. eauto 10.
  - apply IH'.
Qed.

Lemma build_file_tree_permission_only path max_depth current_depth st :
  is_dir (obj path) = true → permission_only (obj path) = true →
  ∃ tree st',
    build_file_tree path max_depth current_depth st = (inr tree, st').
Proof.
  apply (build_file_tree_elim
           (λ path max_depth current_depth st r,
              is_dir (obj path) = true → permission_only (obj path) = true →
              ∃ tree st', r = (inr tree, st'))); clear.
  - intros path max_depth current_depth Hgt st _ _ _. eauto.
  - intros path max_depth current_depth Hle st IH _ Hdir Hperm.
    unfold iterdir.
    destruct (obj path) as [data|entries|e|e|] eqn:Hobj; try done.
    2: { destruct e; try done. simpl. eauto. }
    simpl in Hperm. rewrite forallb_forall in Hperm.
    assert (∀ item,
              item ∈ sorted ((λ e : string * path_obj,
                                Path (rel path ++ [e.1]) e.2) <$> entries) →
              permission_only (obj item) = true) as Hitems.
    { intros item. rewrite sorted_Permutation.
      intros ([n o] & -> & Hin)%list_elem_of_fmap. simpl.
      apply (Hperm (n, o)). by apply list_elem_of_In. }
    destruct (tree_loop_permission_only
                (λ item st0,
                   build_file_tree item max_depth (current_depth + 1) st0)
                _ [] st Hitems) as (raised & tree' & st' & -> & Hraised).
    + intros item st0 Hin Hd. apply (IH [] item st0 Hd). by apply Hitems.
    + destruct Hraised as [->|[msg ->]]; simpl; eauto.
Qed.

(** The builder never lets a [PermissionError] out; and on a workspace
    in which every listing or [stat] that raises, raises a
    [PermissionError], it returns a tree for every directory, however
    many of them cannot be listed. *)
Theorem build_file_tree_permission_errors path max_depth current_depth st :
  (∀ msg st',
     build_file_tree path max_depth current_depth st
     ≠ (inl (PermissionError msg), st'))
  ∧ (is_dir (obj path) = true → permission_only (obj path) = true →
     ∃ tree st',
       build_file_tree path max_depth current_depth st = (inr tree, st')).
Proof.
  split; [|apply build_file_tree_permission_only].
  intros msg st'.
  destruct (decide (current_depth > max_depth)) as [Hgt|Hle].
  { by rewrite build_file_tree_beyond. }
  rewrite build_file_tree_within by lia.
  destruct (iterdir path) as [e|items];
    [apply except_PermissionError_not_permission|].
  destruct (tree_loop _ _ _ _) as [[[e|] tree1] st1];
    [apply except_PermissionError_not_permission | done].
Qed.

End Permissions.

(** A workspace with a directory that cannot be listed and an entry that
    cannot be examined. *)
Lemma build_file_tree_permission_errors_witness :
  ∃ tree st',
    build_file_tree (H := Sample.library)
      (Path []
         (Directory
            [("a.txt", RegularFile (inr "x"));
             ("locked", DirectoryRaises (PermissionError "denied"));
             ("z", Unstatable (PermissionError "denied"))])) 4 0 init
    = (inr tree, st').
Proof.
  apply (build_file_tree_permission_errors (H := Sample.library));
    reflexivity.
Defined.

Section Monotone.
Context `{Library}.

Lemma state_le_refl st : state_le st st.
Proof. unfold state_le. repeat split; (lia || set_solver). Qed.

Lemma state_le_trans st1 st2 st3 :
  state_le st1 st2 → state_le st2 st3 → state_le st1 st3.
Proof.
  unfold state_le. intros (? & ? & ? & ?) (? & ? & ? & ?).
  repeat split; [lia | lia | set_solver | congruence].
Qed.

Lemma count_lines_from_nonneg s open skip :
  0 ≤ count_lines_from open skip s.
Proof.
  revert open skip. induction s as [|c s IH]; intros open skip.
  - by destruct open.
  - cbn [count_lines_from]. destruct skip as [|skip]; [|apply IH].
    destruct (linebreak_length (String c s)) as [|skip];
      [apply IH | specialize (IH false skip); lia].
Qed.

Lemma count_lines_nonneg s : 0 ≤ count_lines s.
Proof. apply count_lines_from_nonneg. Qed.

Lemma add_dependency_le d st : state_le st (add_dependency d st).
Proof. unfold state_le. simpl. repeat split; (lia || set_solver). Qed.

Lemma foldl_add_dependency_le {A} (f : A → string) xs st :
  state_le st (foldl (λ st x, add_dependency (f x) st) st xs).
Proof.
  revert st. induction xs as [|x xs IH]; intros st; simpl;
    [apply state_le_refl|].
  eapply state_le_trans; [apply add_dependency_le | apply IH].
Qed.

Lemma visit_le l st n : state_le st (visit (l, st) n).2.
Proof.
  destruct n as [names|module names| | |].
  - rewrite visit_import. apply foldl_add_dependency_le.
  - simpl. destruct module as [[|c m]|]; simpl;
      [apply state_le_refl | apply add_dependency_le | apply state_le_refl].
  - apply state_le_refl.
  - simpl. destruct (existsb _ _); apply state_le_refl.
  - apply state_le_refl.
Qed.

Lemma foldl_visit_le nodes l st : state_le st (foldl visit (l, st) nodes).2.
Proof.
  revert l st. induction nodes as [|n nodes IH]; intros l st;
    [apply state_le_refl|].
  rewrite foldl_visit_cons. pose proof (visit_le l st n) as Hv.
  destruct (visit (l, st) n) as [l' st']. simpl in Hv.
  eapply state_le_trans; [exact Hv | apply IH].
Qed.

Lemma add_lines_le n st : 0 ≤ n → state_le st (add_lines n st).
Proof. unfold state_le. simpl. repeat split; (lia || set_solver). Qed.

Lemma analyze_file_le name data st :
  state_le st (analyze_file name data st).2.
Proof.
  unfold analyze_file.
  destruct (decide (lower (suffix name) = ".py")) as [_|_].
  - unfold analyze_python_file.
    destruct data as [e|content]; [apply state_le_refl|].
    destruct (ast_parse content) as [e|tree]; [apply state_le_refl|].
    unfold walk_loop.
    pose proof (foldl_visit_le (walk tree) (PyLists [] [] []) st) as Hw.
    destruct (foldl visit _ (walk tree)) as [l st']. simpl in *.
    eapply state_le_trans; [exact Hw|].
    apply add_lines_le, count_lines_nonneg.
  - destruct (decide (lower (suffix name) ∈ _)) as [_|_].
    + unfold analyze_javascript_file.
      destruct data as [e|content]; [apply state_le_refl|]. simpl.
      eapply state_le_trans;
        [apply (foldl_add_dependency_le
                  (λ imp : string,
                     if contains "/" imp then item0 (split "/" imp) else imp))|].
      apply add_lines_le, count_lines_nonneg.
    + destruct data as [e|content]; [apply state_le_refl|]. simpl.
      apply add_lines_le, count_lines_nonneg.
Qed.

Lemma incr_files_le st : state_le st (incr_files st).
Proof. unfold state_le. simpl. repeat split; (lia || set_solver). Qed.

Lemma tree_loop_le recurse items tree st raised tree' st' :
  (∀ item st0, state_le st0 (recurse item st0).2) →
  tree_loop recurse items tree st = (raised, tree', st') →
  state_le st st'.
Proof.
  intros Hrec. revert tree st.
  induction items as [|item items IH]; intros tree st; simpl.
  { intros [= <- <- <-]. apply state_le_refl. }
  destruct (ignored (name item)); [apply IH|].
  destruct (obj item) as [data|entries|e|e|].
  - pose proof (analyze_file_le (name item) data (incr_files st)) as Ha.
    destruct (analyze_file _ _ _) as [a st1]. simpl in Ha.
    intros Hloop%IH.
    eapply state_le_trans; [apply incr_files_le|].
    eapply state_le_trans; [exact Ha | exact Hloop].
  - pose proof (Hrec item st) as Hr.
    destruct (recurse item st) as [[e|sub] st1]; simpl in Hr.
    { by intros [= <- <- <-]. }
    intros Hloop%IH. eapply state_le_trans; [exact Hr | exact Hloop].
  - pose proof (Hrec item st) as Hr.
    destruct (recurse item st) as [[e'|sub] st1]; simpl in Hr.
    { by intros [= <- <- <-]. }
    intros Hloop%IH. eapply state_le_trans; [exact Hr | exact Hloop].
  - intros [= <- <- <-]. apply state_le_refl.
  - apply IH.
Qed.

(** Whether the traversal returns a tree or is aborted by an exception,
    it leaves [self] grown: no counter has decreased, no dependency has
    been removed, and [structure] is as it was. *)
Theorem build_file_tree_grows path max_depth current_depth st :
  state_le st (build_file_tree path max_depth current_depth st).2.
Proof.
  apply (build_file_tree_elim
           (λ path max_depth current_depth st r, state_le st r.2)); clear.
  - intros. apply state_le_refl.
  - intros path max_depth current_depth Hle st IH _.
    destruct (iterdir path) as [e|items].
    { destruct e; apply state_le_refl. }
    destruct (tree_loop _ _ _ _) as [[raised tree1] st1] eqn:Hloop.
    apply tree_loop_le in Hloop; [|intros item st0; apply (IH items)].
    destruct raised as [e|]; [by destruct e | done].
Qed.

End Monotone.

(** *** What one file is recorded as *)

Section Outcome.
Context `{Library}.

Lemma len_app (s1 s2 : string) : len (s1 +:+ s2) = (len s1 + len s2)%nat.
Proof.
  induction s1 as [|c s1 IH]; [done|].
  change (len (String c (s1 +:+ s2)) = (len (String c s1) + len s2)%nat).
  cbn [len]. destruct (is_continuation c); rewrite IH; lia.
Qed.

Lemma len_slice_to (stop : nat) (s : string) :
  len (slice_to stop s) = (stop `min` len s)%nat.
Proof.
  revert stop. induction s as [|c s IH]; intros stop; [by destruct stop|].
  cbn [slice_to len]. destruct (is_continuation c) eqn:Hc.
  - cbn [len]. by rewrite Hc, IH.
  - destruct stop as [|stop]; [done|]. cbn [len]. rewrite Hc, IH. lia.
Qed.

Lemma slice_to_prefix (stop : nat) (s : string) :
  String.prefix (slice_to stop s) s = true.
Proof.
  revert stop. induction s as [|c s IH]; intros stop; [done|].
  cbn [slice_to]. destruct (is_continuation c).
  - cbn [String.prefix]. destruct (ascii_dec c c); [apply IH | done].
  - destruct stop as [|stop]; [done|].
    cbn [String.prefix]. destruct (ascii_dec c c); [apply IH | done].
Qed.

Lemma content_preview_spec content :
  (len content ≤ 200 → content_preview content = content)%nat
  ∧ (200 < len content →
     content_preview content = slice_to 200 content +:+ "..."
     ∧ len (content_preview content) = 203)%nat
  ∧ (len (content_preview content) ≤ 203)%nat.
Proof.
  unfold content_preview.
  destruct (200 <? Z.of_nat (len content)) eqn:Hlen.
  - apply Z.ltb_lt in Hlen.
    assert (len (slice_to 200 content +:+ "...") = 203%nat) as Hl.
    { rewrite len_app, len_slice_to. change (len "...") with 3%nat. lia. }
    split; [lia|]. split; [done|]. lia.
  - apply Z.ltb_ge in Hlen. split; [done|]. split; lia.
Qed.

(** The preview recorded for a file is the whole content when that has at
    most 200 characters, and otherwise its first 200 characters, which
    are a prefix of it, followed by three dots, so it never has more
    than 203 characters; files recorded with an error or as binary have
    none. *)
Theorem analyze_file_preview name data st :
  match a_preview (analyze_file name data st).1 with
  | Some preview =>
      ∃ content,
        data = inr content
        ∧ preview = content_preview content
        ∧ (len preview ≤ 203)%nat
        ∧ (len content ≤ 200 → preview = content)%nat
        ∧ (200 < len content →
           preview = slice_to 200 content +:+ "..."
           ∧ len (slice_to 200 content) = 200
           ∧ String.prefix (slice_to 200 content) content = true)%nat
  | None =>
      a_lines (analyze_file name data st).1 = 0
      ∧ (a_error (analyze_file name data st).1 = None →
         (analyze_file name data st).1 = BinaryAnalysis)
  end.
Proof.
  assert (∀ content,
            ∃ content',
              inr content = inr (A := exn) content'
              ∧ content_preview content = content_preview content'
              ∧ (len (content_preview content) ≤ 203)%nat
              ∧ (len content' ≤ 200 →
                 content_preview content = content')%nat
              ∧ (200 < len content' →
                 content_preview content = slice_to 200 content' +:+ "..."
                 ∧ len (slice_to 200 content') = 200
                 ∧ String.prefix (slice_to 200 content') content' = true)%nat)
    as Hok.
  { intros content. exists content.
    destruct (content_preview_spec content) as (H1 & H2 & H3).
    do 4 (split; [done|]). intros Hlen.
    split; [by apply H2|]. split; [|apply slice_to_prefix].
    rewrite len_slice_to. lia. }
  unfold analyze_file.
  destruct (decide (lower (suffix name) = ".py")) as [_|_].
  - unfold analyze_python_file. destruct data as [e|content]; [done|].
    destruct (ast_parse content) as [e|tree]; [done|].
    destruct (walk_loop _ _) as [l st']. simpl. apply Hok.
  - destruct (decide (lower (suffix name) ∈ _)) as [_|_].
    + unfold analyze_javascript_file. destruct data as [e|content]; [done|].
      simpl. apply Hok.
    + destruct data as [e|content]; [done|]. simpl. apply Hok.
Qed.

(** A file is recorded with a structural summary exactly when it is of a
    structured variant and its extraction does not fail; with an error
    text exactly when its extraction fails, and the text is that of the
    exception; as binary exactly when it is of no structured variant and
    cannot be read; and its [type] is decided by the extension alone. *)
Theorem analyze_file_outcome name data st :
  let a := (analyze_file name data st).1 in
  (has_summary a = true
   ↔ structured name = true ∧ extraction_error name data = None)
  ∧ a_error a = (λ te : string * exn, str te.2) <$> extraction_error name data
  ∧ (a = BinaryAnalysis ↔ structured name = false ∧ ∃ e, data = inl e)
  ∧ (a_type a = "python" ↔ lower (suffix name) = ".py")
  ∧ (a_type a = "javascript"
     ↔ lower (suffix name) ∈ [".js"; ".jsx"; ".ts"; ".tsx"]).
Proof.
  unfold analyze_file, extraction_error, structured.
  destruct (decide (lower (suffix name) = ".py")) as [Hpy|Hpy].
  - rewrite bool_decide_eq_true_2 by (rewrite Hpy; set_solver).
    rewrite Hpy. unfold analyze_python_file.
    destruct data as [e|content]; simpl.
    { repeat split; try done; try (by intros [? ?]); set_solver. }
    destruct (ast_parse content) as [e|tree]; simpl.
    { repeat split; try done; try (by intros [? ?]); set_solver. }
    destruct (walk_loop _ _) as [l st']; simpl.
    repeat split; try done; try (by intros [? ?]); set_solver.
  - destruct (decide (lower (suffix name) ∈ _)) as [Hjs|Hjs].
    + rewrite bool_decide_eq_true_2 by set_solver.
      unfold analyze_javascript_file. destruct data as [e|content]; simpl;
        repeat split; try done; try (by intros [? ?]).
    + rewrite bool_decide_eq_false_2 by set_solver.
      destruct data as [e|content]; simpl;
        repeat split; try done; try (by intros [? ?]); eauto;
        by intros [_ [? ?]].
Qed.

End Outcome.

(** *** Paths and counts against the workspace *)

Section Paths.
Context `{Library}.

Lemma paths_ok_directory parts children :
  paths_ok_node parts (DirectoryNode children) ↔ paths_ok parts children.
Proof.
  simpl. induction children as [|[k info] children IH]; simpl; [done|].
  by rewrite IH.
Qed.

Lemma paths_ok_dict_set parts k v t :
  paths_ok_node (parts ++ [k]) v → paths_ok parts t →
  paths_ok parts (dict_set k v t).
Proof.
  intros Hv. induction t as [|[k0 v0] t IH]; simpl; [done|].
  intros [H0 Ht]. destruct (String.eqb k0 k); simpl; auto.
Qed.

Lemma tree_loop_paths recurse parts items tree st raised tree' st' :
  (∀ item, item ∈ items → ∃ n, rel item = parts ++ [n]) →
  (∀ item st0 sub st1,
     recurse item st0 = (inr sub, st1) → paths_ok (rel item) sub) →
  paths_ok parts tree →
  tree_loop recurse items tree st = (raised, tree', st') →
  paths_ok parts tree'.
Proof.
  intros Hrel Hrec. revert tree st.
  induction items as [|item items IH]; intros tree st Hok; simpl.
  { by intros [= <- <- <-]. }
  assert (∀ tree st, paths_ok parts tree →
            tree_loop recurse items tree st = (raised, tree', st') →
            paths_ok parts tree') as IH'.
  { intros tree0 st0. apply IH. intros item' Hin. apply Hrel. by right. }
  destruct (Hrel item ltac:(by left)) as [n Hn].
  destruct item as [parts' o]. simpl in Hn. subst parts'.
  rewrite name_child, relative_to_root_child. simpl.
  destruct (ignored n); [by apply IH'|].
  destruct o as [data|entries|e|e|].
  - destruct (analyze_file _ _ _) as [a st1]. apply IH'.
    by apply paths_ok_dict_set.
  - destruct (recurse _ st) as [[e|sub] st1] eqn:Hsub.
    { by intros [= <- <- <-]. }
    destruct sub as [|entry sub]; [by apply IH'|]. apply IH'.
    apply paths_ok_dict_set; [|done]. apply paths_ok_directory.
    exact (Hrec _ _ _ _ Hsub).
  - destruct (recurse _ st) as [[e'|sub] st1] eqn:Hsub.
    { by intros [= <- <- <-]. }
    destruct sub as [|entry sub]; [by apply IH'|]. apply IH'.
    apply paths_ok_dict_set; [|done]. apply paths_ok_directory.
    exact (Hrec _ _ _ _ Hsub).
  - by intros [= <- <- <-].
  - by apply IH'.
Qed.

(** The [path] recorded in a file node is the chain of keys that leads
    to the node from the repository root, joined by slashes: the tree
    can be navigated by splitting a path. *)
Theorem build_file_tree_paths path max_depth current_depth st tree st' :
  build_file_tree path max_depth current_depth st = (inr tree, st') →
  paths_ok (rel path) tree.
Proof.
  revert tree st'.
  apply (build_file_tree_elim
           (λ path max_depth current_depth st r,
              ∀ tree st', r = (inr tree, st') → paths_ok (rel path) tree));
    clear.
  - by intros path max_depth current_depth Hgt st _ tree st' [= <- <-].
  - intros path max_depth current_depth Hle st IH _ tree st'.
    destruct (iterdir path) as [e|items] eqn:Hiter.
    { by intros [-> _]%except_PermissionError_returns. }
    destruct (tree_loop _ _ _ _) as [[raised tree1] st1] eqn:Hloop.
    intros Hret.
    assert (tree = tree1) as ->.
    { destruct raised as [e|]; [|by inversion Hret].
      by apply except_PermissionError_returns in Hret as [-> _]. }
    eapply tree_loop_paths; [| | |exact Hloop]; [| |done].
    + intros item. rewrite sorted_Permutation.
      destruct (iterdir_names _ _ Hiter) as (entries & _ & -> & _).
      intros ([n o] & -> & _)%list_elem_of_fmap. by exists n.
    + intros item st0 sub st2. apply (IH items).
Qed.

Lemma reachable_files_not_directory o levels :
  (∀ entries, o ≠ Directory entries) → reachable_files o levels = O.
Proof. intros Hno. destruct levels, o; try done. by destruct (Hno entries). Qed.

Lemma tree_loop_reachable recurse levels items tree st :
  (∀ item, item ∈ items → listable (obj item) = true) →
  (∀ item st0 entries, item ∈ items → obj item = Directory entries →
     ∃ sub st1,
       recurse item st0 = (inr sub, st1)
       ∧ total_files st1
         = total_files st0 + Z.of_nat (reachable_files (obj item) levels)) →
  ∃ tree' st',
    tree_loop recurse items tree st = (None, tree', st')
    ∧ total_files st'
      = total_files st + Z.of_nat (sum_list_with (item_files levels) items).
Proof.
  revert tree st. induction items as [|item items IH];
    intros tree st Hlist Hrec.
  { simpl. eexists _, _. split; [done|]. lia. }
  assert (∀ tree st, ∃ tree' st',
            tree_loop recurse items tree st = (None, tree', st')
            ∧ total_files st'
              = total_files st
                + Z.of_nat (sum_list_with (item_files levels) items)) as IH'.
  { intros tree0 st0. apply IH.
    - intros item' Hin. apply Hlist. by right.
    - intros item' st1 entries Hin. apply Hrec. by right. }
  pose proof (Hlist item ltac:(by left)) as Hitem.
  cbn [tree_loop sum_list_with]. unfold item_files at 1.
  destruct (ignored (name item)); [apply IH'|].
  destruct (obj item) as [data|entries|e|e|] eqn:Hobj; try done.
  - pose proof (analyze_file_counters (name item) data (incr_files st))
      as [Hf _].
    destruct (analyze_file _ _ _) as [a st1]. simpl in Hf.
    destruct (IH' (dict_set (name item)
                     (FileNode (relative_to_root item) a) tree) st1)
      as (tree' & st' & -> & Hcount).
    eexists _, _. split; [done|]. lia.
  - destruct (Hrec item st entries ltac:(by left) Hobj)
      as (sub & st1 & -> & Hsub).
    destruct (IH' (match sub with
                   | [] => tree
                   | _ => dict_set (name item) (DirectoryNode sub) tree
                   end) st1) as (tree' & st' & -> & Hcount).
    eexists _, _. split; [done|]. rewrite Hobj in Hsub. lia.
  - destruct (IH' tree st) as (tree' & st' & -> & Hcount).
    eexists _, _. split; [done|].
    rewrite reachable_files_not_directory by done. lia.
Qed.

(** On a directory in which no listing and no [stat] raises, the builder
    returns a tree and has added to [total_files] the number of regular
    files that lie at most [max_depth - current_depth] directories below
    it and have no ignored name on their way: deeper files and files
    under ignored directories are not counted. *)
Theorem build_file_tree_counts_reachable path entries max_depth
    current_depth st :
  obj path = Directory entries → listable (obj path) = true →
  ∃ tree st',
    build_file_tree path max_depth current_depth st = (inr tree, st')
    ∧ total_files st'
      = total_files st
        + Z.of_nat (reachable_files (obj path)
                      (Z.to_nat (max_depth + 1 - current_depth))).
Proof.
  revert entries.
  apply (build_file_tree_elim
           (λ path max_depth current_depth st r,
              ∀ entries,
                obj path = Directory entries → listable (obj path) = true →
                ∃ tree st',
                  r = (inr tree, st')
                  ∧ total_files st'
                    = total_files st
                      + Z.of_nat (reachable_files (obj path)
                           (Z.to_nat (max_depth + 1 - current_depth)))));
    clear.
  - intros path max_depth current_depth Hgt st _ entries _ _.
    eexists _, _. split; [done|].
    replace (Z.to_nat (max_depth + 1 - current_depth)) with O by lia.
    simpl. lia.
  - intros path max_depth current_depth Hle st IH _ entries Hobj Hlist.
    assert (iterdir path
            = inr ((λ e : string * path_obj, Path (rel path ++ [e.1]) e.2)
                     <$> entries)) as ->
      by (unfold iterdir; by rewrite Hobj).
    rewrite Hobj in Hlist |- *. simpl in Hlist.
    rewrite forallb_forall in Hlist.
    set (items := (λ e : string * path_obj, Path (rel path ++ [e.1]) e.2)
                    <$> entries).
    set (levels := Z.to_nat (max_depth + 1 - (current_depth + 1))).
    assert (∀ item, item ∈ sorted items → listable (obj item) = true)
      as Hitems.
    { intros item. rewrite sorted_Permutation.
      intros ([n o] & -> & Hin)%list_elem_of_fmap. simpl.
      apply (Hlist (n, o)). by apply list_elem_of_In. }
    destruct (tree_loop_reachable
                (λ item st0,
                   build_file_tree item max_depth (current_depth + 1) st0)
                levels (sorted items) [] st Hitems)
      as (tree' & st' & -> & Hcount).
    { intros item st0 entries' Hin Hobj'.
      apply (IH [] item st0 entries' Hobj'). by apply Hitems. }
    eexists _, _. split; [done|]. rewrite Hcount. f_equal. f_equal.
    rewrite sorted_Permutation.
    replace (Z.to_nat (max_depth + 1 - current_depth)) with (S levels)
      by (unfold levels; lia).
    cbn [reachable_files]. unfold items. clear.
    induction entries as [|[n o] entries IHe]; [done|].
    rewrite fmap_cons. cbn [sum_list_with]. rewrite IHe. f_equal.
    unfold item_files. by rewrite name_child.
Qed.

End Paths.

(** The sample workspace: [total_files] is 4, the file under [.git] and
    nothing else being left out. *)
Lemma build_file_tree_counts_reachable_witness :
  ∃ tree st',
    build_file_tree (H := Sample.library) (Path [] Sample.workspace) 4 0 init
    = (inr tree, st')
    ∧ total_files st' = 0 + Z.of_nat 4.
Proof.
  exact (build_file_tree_counts_reachable (H := Sample.library)
           (Path [] Sample.workspace) _ 4 0 init eq_refl eq_refl).
Defined.

(** In the tree of the sample workspace the file below [src] carries the
    path [src/deps.py]. *)
Lemma build_file_tree_paths_witness :
  ∃ tree st',
    build_file_tree (H := Sample.library) (Path [] Sample.workspace) 4 0 init
    = (inr tree, st')
    ∧ paths_ok [] tree.
Proof.
  destruct (build_file_tree (H := Sample.library) (Path [] Sample.workspace)
              4 0 init) as [[e|tree] st'] eqn:Hrun;
    [by vm_compute in Hrun|].
  exists tree, st'. split; [done|].
  exact (build_file_tree_paths (H := Sample.library) _ _ _ _ _ _ Hrun).
Defined.

(** ** Properties of the client *)

Section Filter.
Import Json Client.
Context `{Library}.

(** Induction on JSON values, with the hypothesis for every item of a
    list and every value of a dictionary. *)
Lemma json_nested_ind (P : json → Prop) :
  P JNull → (∀ b, P (JBool b)) → (∀ n, P (JNum n)) → (∀ s, P (JStr s)) →
  (∀ l, Forall P l → P (JList l)) →
  (∀ d, Forall (λ e : string * json, P e.2) d → P (JDict d)) →
  ∀ v, P v.
Proof.
  intros Hnull Hbool Hnum Hstr Hlist Hdict.
  fix IH 1.
  intros [|b|n|s|l|d];
    [apply Hnull | apply Hbool | apply Hnum | apply Hstr | |].
  - apply Hlist. induction l as [|v l IHl]; constructor; [apply IH | done].
  - apply Hdict. induction d as [|[k v] d IHd]; constructor;
      [apply IH | done].
Qed.

Lemma filter_json_data_dict items query :
  filter_json_data (JDict items) query
  = if String.eqb query "" then items
    else filter_loop (lower query) items [].
Proof.
  simpl. destruct (String.eqb query ""); [done|].
  generalize (@nil (string * json)).
  induction items as [|[key value] items IH]; intros acc; [done|].
  cbn [filter_loop]. rewrite <- IH. f_equal.
  destruct value as [| | |s|l|d]; try done.
  - cbn [filter_item]. by destruct (_ || _).
  - cbn [filter_item].
    change (filter_list (lower query) l) with
      ((fix each (l : list json) : list json :=
          match l with
          | [] => []
          | item :: l' =>
              match item with
              | JStr s =>
                  if is_substring (lower query) (lower s)
                  then item :: each l' else each l'
              | JDict _ =>
                  let filtered_item := filter_json_data item (lower query) in
                  if truthy (JDict filtered_item)
                  then JDict filtered_item :: each l'
                  else each l'
              | _ => each l'
              end
          end) l).
    cbn [truthy]. by destruct ((fix each (l : list json) := _) l).
  - cbn [filter_item truthy]. by destruct (_ || _).
Qed.

Lemma filter_loop_nonempty query items acc :
  acc ≠ [] → filter_loop query items acc ≠ [].
Proof.
  revert acc. induction items as [|[key value] items IH]; intros acc Hacc;
    [done|].
  cbn [filter_loop]. apply IH. destruct (filter_item _ _ _); [|done].
  by destruct acc as [|[k v] acc]; simpl; [|destruct (String.eqb k key)].
Qed.

(** The filter keeps nothing exactly when it keeps no item. *)
Lemma filter_loop_empty query items :
  filter_loop query items [] = []
  ↔ Forall (λ e : string * json, filter_item query e.1 e.2 = None) items.
Proof.
  induction items as [|[key value] items IH]; [by split; [constructor|]|].
  cbn [filter_loop]. rewrite Forall_cons. simpl.
  destruct (filter_item query key value) eqn:Hitem.
  - split; [|by intros [? _]]. intros Hempty.
    by apply filter_loop_nonempty in Hempty.
  - rewrite IH. tauto.
Qed.

Lemma kept_cons query key value items :
  kept query (JDict ((key, value) :: items))
  ↔ kept query (JDict [(key, value)]) ∧ kept query (JDict items).
Proof. simpl. tauto. Qed.

Lemma kept_dict_set query key value acc :
  kept query (JDict [(key, value)]) → kept query (JDict acc) →
  kept query (JDict (dict_set key value acc)).
Proof.
  intros Hv. induction acc as [|[k v] acc IH]; [done|].
  rewrite kept_cons. intros [Hk Hacc]. cbn [dict_set].
  destruct (String.eqb k key).
  - by apply kept_cons.
  - apply kept_cons. auto.
Qed.

(** Induction for statements that are trivial for lists and look into a
    list only where it is the value of a dictionary item. *)
Lemma json_dict_ind (Q : json → Prop) :
  Q JNull → (∀ b, Q (JBool b)) → (∀ n, Q (JNum n)) → (∀ s, Q (JStr s)) →
  (∀ l, Q (JList l)) →
  (∀ d,
     Forall (λ e : string * json,
               Q e.2 ∧ ∀ l, e.2 = JList l → Forall Q l) d →
     Q (JDict d)) →
  ∀ v, Q v.
Proof.
  intros Hnull Hbool Hnum Hstr Hlist Hdict v.
  enough (Q v ∧ ∀ l, v = JList l → Forall Q l) as [Hv _]; [done|].
  induction v as [| | | |l IH|d IH] using json_nested_ind.
  1-4: by split; [auto|].
  - split; [apply Hlist|]. intros l' [= <-].
    eapply Forall_impl; [exact IH|]. by intros v [Hv _].
  - split; [|done]. by apply Hdict.
Qed.

Lemma dict_set_NoDup {V} k (v : V) d :
  NoDup d.*1 → NoDup (dict_set k v d).*1.
Proof.
  intros Hnd. destruct (decide (k ∈ d.*1)) as [Hin|Hnew].
  - by rewrite dict_set_present.
  - rewrite dict_set_fresh, fmap_app by done. simpl.
    apply NoDup_app. split; [done|]. split; [|apply NoDup_singleton].
    intros k' Hk' ->%list_elem_of_singleton. done.
Qed.

Lemma Forall_dict_set {V} (P : string * V → Prop) k v d :
  P (k, v) → Forall P d → Forall P (dict_set k v d).
Proof.
  intros Hv. induction 1 as [|[k0 v0] d H0 Hd IH]; simpl;
    [by repeat constructor|].
  destruct (String.eqb k0 k); by constructor.
Qed.

Lemma unique_keys_dict items :
  unique_keys (JDict items)
  ↔ NoDup items.*1 ∧ Forall (λ e : string * json, unique_keys e.2) items.
Proof.
  simpl. apply and_iff_compat_l.
  induction items as [|[k v] items IH]; [by split; [constructor|]|].
  rewrite Forall_cons, IH. done.
Qed.

Lemma unique_keys_list l : unique_keys (JList l) ↔ Forall unique_keys l.
Proof.
  simpl. induction l as [|v l IH]; [by split; [constructor|]|].
  rewrite Forall_cons, IH. done.
Qed.

Lemma filter_loop_unique query items acc :
  Forall (λ e : string * json,
            ∀ value', filter_item query e.1 e.2 = Some value' →
                      unique_keys value') items →
  unique_keys (JDict acc) →
  unique_keys (JDict (filter_loop query items acc)).
Proof.
  intros Hall. revert acc.
  induction Hall as [|[key value] items Hitem _ IH]; intros acc Hacc; [done|].
  cbn [filter_loop]. apply IH.
  destruct (filter_item query key value) as [value'|] eqn:Hf; [|done].
  apply unique_keys_dict in Hacc as [Hnd Hvals]. apply unique_keys_dict.
  split; [by apply dict_set_NoDup|].
  apply (Forall_dict_set (λ e : string * json, unique_keys e.2)); [|done].
  exact (Hitem value' Hf).
Qed.

(** With distinct keys in front of it, the loop decides every item on
    its own and keeps the items in their order. *)
Lemma filter_loop_omap query items acc :
  NoDup (acc.*1 ++ items.*1) →
  filter_loop query items acc
  = acc ++ omap (λ e : string * json,
                   pair e.1 <$> filter_item query e.1 e.2) items.
Proof.
  revert acc. induction items as [|[key value] items IH]; intros acc Hnd.
  { simpl. by rewrite app_nil_r. }
  cbn [filter_loop]. csimpl. csimpl in Hnd.
  pose proof Hnd as (Hacc & Hdisj & [Hkey Hitems]%NoDup_cons)%NoDup_app.
  destruct (filter_item query key value) as [value'|]; csimpl.
  - rewrite dict_set_fresh by (intros Hin; apply (Hdisj _ Hin); by left).
    rewrite IH; [by rewrite <- app_assoc|].
    rewrite fmap_app. csimpl. by rewrite <- app_assoc.
  - apply IH. apply NoDup_app. split; [done|]. split; [|done].
    intros k Hk Hin. apply (Hdisj _ Hk). by right.
Qed.

Lemma filter_list_twice query l :
  Forall (λ v, ∀ q, filter_json_data (JDict (filter_json_data v q)) q
                    = filter_json_data v q) l →
  filter_list query (filter_list query l) = filter_list query l.
Proof.
  induction 1 as [|item l Hitem _ IH]; [done|].
  cbn [filter_list]. destruct item as [| | |s|l'|d]; try done.
  - destruct (is_substring query (lower s)) eqn:Hs; [|done].
    cbn [filter_list]. by rewrite Hs, IH.
  - destruct (truthy (JDict (filter_json_data (JDict d) query))) eqn:Ht;
      [|done].
    cbn [filter_list]. by rewrite (Hitem query), Ht, IH.
Qed.

(** What the loop keeps for an item is kept as it is when it is met
    again under the same key. *)
Lemma filter_item_twice query key value value' :
  (∀ q, filter_json_data (JDict (filter_json_data value q)) q
        = filter_json_data value q) →
  (∀ l, value = JList l →
     Forall (λ v, ∀ q, filter_json_data (JDict (filter_json_data v q)) q
                       = filter_json_data v q) l) →
  filter_item query key value = Some value' →
  filter_item query key value' = Some value'.
Proof.
  intros Hvalue Hlist.
  destruct value as [| | |s|l|d]; cbn [filter_item]; try done.
  - destruct (_ || _) eqn:Hs; [|done]. intros [= <-].
    cbn [filter_item]. by rewrite Hs.
  - remember (filter_list query l) as fl eqn:Hfl.
    destruct (truthy (JList fl)) eqn:Ht; [|done].
    intros [= <-]. cbn [filter_item].
    rewrite Hfl, (filter_list_twice _ _ (Hlist l eq_refl)), <- Hfl.
    by rewrite Ht.
  - remember (filter_json_data (JDict d) query) as fd eqn:Hfd.
    destruct (_ || _) eqn:Hs; [|done]. intros [= <-].
    cbn [filter_item]. rewrite Hfd, Hvalue, <- Hfd. by rewrite Hs.
Qed.

Lemma filter_loop_fixed query items acc :
  Forall (λ e : string * json,
            ∀ value', filter_item query e.1 e.2 = Some value' →
                      filter_item query e.1 value' = Some value') items →
  NoDup acc.*1 →
  Forall (λ e : string * json, filter_item query e.1 e.2 = Some e.2) acc →
  NoDup (filter_loop query items acc).*1
  ∧ Forall (λ e : string * json, filter_item query e.1 e.2 = Some e.2)
      (filter_loop query items acc).
Proof.
  intros Hall. revert acc.
  induction Hall as [|[key value] items Hitem _ IH]; intros acc Hnd Hacc;
    [done|].
  cbn [filter_loop]. cbn [fst snd] in Hitem.
  destruct (filter_item query key value) as [value'|] eqn:Hf; [|by apply IH].
  apply IH; [by apply dict_set_NoDup|].
  apply (Forall_dict_set
           (λ e : string * json, filter_item query e.1 e.2 = Some e.2));
    [by apply Hitem | done].
Qed.

Lemma omap_filter_item_fixed query (items : list (string * json)) :
  Forall (λ e : string * json, filter_item query e.1 e.2 = Some e.2) items →
  omap (λ e : string * json, pair e.1 <$> filter_item query e.1 e.2) items
  = items.
Proof.
  induction 1 as [|[key value] items Hitem _ IH]; [done|].
  csimpl. cbn [fst snd] in *. by rewrite Hitem, IH.
Qed.

(** Filtering what the filter returned, with the same query, changes
    nothing. *)
Theorem filter_json_data_idempotent data query :
  filter_json_data (JDict (filter_json_data data query)) query
  = filter_json_data data query.
Proof.
  revert query. induction data as [| | | | |items IH] using json_dict_ind;
    intros query;
    try (rewrite filter_json_data_dict; by destruct (String.eqb query "")).
  rewrite !filter_json_data_dict.
  destruct (String.eqb query "") eqn:Hq; [done|].
  destruct (filter_loop_fixed (lower query) items []) as [Hnd Hfix];
    [|constructor|constructor|].
  { eapply Forall_impl; [exact IH|].
    intros [key value] [Hvalue Hlist] value'. cbn [fst snd] in *.
    by apply filter_item_twice. }
  rewrite filter_loop_omap by done. rewrite app_nil_l.
  by apply omap_filter_item_fixed.
Qed.

(** For a dictionary with distinct keys the filter decides every item on
    its own: the result is the items that are kept, in their order, so
    its keys are a sublist of the keys of the data; and an empty query
    returns the data as they are. *)
Theorem filter_json_data_items items query :
  NoDup items.*1 →
  filter_json_data (JDict items) query
  = (if String.eqb query "" then items
     else omap (λ e : string * json,
                  pair e.1 <$> filter_item (lower query) e.1 e.2) items)
  ∧ (filter_json_data (JDict items) query).*1 `sublist_of` items.*1.
Proof.
  intros Hnd. rewrite filter_json_data_dict.
  destruct (String.eqb query ""); [done|].
  rewrite filter_loop_omap by done. rewrite app_nil_l. split; [done|].
  clear Hnd. induction items as [|[key value] items IH]; [done|].
  csimpl.
  destruct (filter_item (lower query) key value); csimpl;
    [by apply sublist_skip | by apply sublist_cons].
Qed.

(** The viewer warns that nothing was found exactly when the query is
    not empty and no top-level item is kept; so it does for every
    non-empty query when all top-level values are numbers, booleans or
    null, whatever the keys are. *)
Theorem display_json_viewer_no_results results search_query :
  (display_json_viewer results search_query = NoResults
   ↔ search_query ≠ ""
     ∧ Forall (λ e : string * json,
                 filter_item (lower search_query) e.1 e.2 = None) results)
  ∧ (search_query ≠ "" →
     Forall (λ e : string * json,
               match e.2 with
               | JNull | JBool _ | JNum _ => True
               | _ => False
               end) results →
     display_json_viewer results search_query = NoResults).
Proof.
  assert (display_json_viewer results search_query = NoResults
          ↔ search_query ≠ ""
            ∧ Forall (λ e : string * json,
                 filter_item (lower search_query) e.1 e.2 = None) results)
    as Hiff.
  { unfold display_json_viewer. rewrite filter_json_data_dict.
    destruct (String.eqb search_query "") eqn:Hq.
    - apply String.eqb_eq in Hq as ->. simpl.
      split; [|by intros [? _]]. by destruct results.
    - apply String.eqb_neq in Hq. rewrite <- filter_loop_empty.
      cbn [truthy]. destruct (filter_loop _ results []); simpl;
        split; try done; by intros [_ ?]. }
  split; [done|]. intros Hne Hscalar. apply Hiff. split; [done|].
  eapply Forall_impl; [exact Hscalar|]. by intros [key [| | | | |]].
Qed.

(** *** The shape of what is kept

    Python's [str.lower] is idempotent and maps no text but the empty
    one to the empty one; the shape of the result is stated for such a
    library. *)

Section Laws.
Hypothesis lower_idempotent : ∀ s, lower (lower s) = lower s.
Hypothesis lower_nonempty : ∀ s, s ≠ "" → lower s ≠ "".

Lemma filter_list_kept query l :
  Forall (λ v, ∀ q, q ≠ "" → kept (lower q) (JDict (filter_json_data v q))) l →
  query ≠ "" → lower query = query →
  kept_each query (filter_list query l).
Proof.
  intros Hall Hne Hlow. induction Hall as [|item l Hitem _ IH]; [done|].
  cbn [filter_list]. destruct item as [| | |s|l'|d]; try done.
  - destruct (is_substring query (lower s)) eqn:Hs; [|done]. by split.
  - destruct (filter_json_data (JDict d) query) as [|entry rest] eqn:Hf;
      [done|].
    cbn [truthy]. split; [|done]. split; [done|].
    rewrite <- Hf, <- Hlow at 1. by apply Hitem.
Qed.

Lemma filter_item_kept query key value value' :
  (∀ q, q ≠ "" → kept (lower q) (JDict (filter_json_data value q))) →
  (∀ l, value = JList l →
     Forall (λ v, ∀ q, q ≠ "" →
               kept (lower q) (JDict (filter_json_data v q))) l) →
  query ≠ "" → lower query = query →
  filter_item query key value = Some value' →
  kept query (JDict [(key, value')]).
Proof.
  intros Hvalue Hlist Hne Hlow.
  destruct value as [| | |s|l|d]; cbn [filter_item]; try done.
  - destruct (_ || _) eqn:Hs; [|done]. intros [= <-].
    apply orb_true_iff in Hs. simpl. tauto.
  - destruct (filter_list query l) as [|item rest] eqn:Hf; [done|].
    intros [= <-]. cbn [truthy].
    pose proof (filter_list_kept query l (Hlist l eq_refl) Hne Hlow) as Hk.
    rewrite Hf in Hk. by split; [split|].
  - pose proof (Hvalue query Hne) as Hk. rewrite Hlow in Hk.
    remember (filter_json_data (JDict d) query) as fd eqn:Hfd.
    destruct (_ || _) eqn:Hs; [|done]. intros [= <-].
    split; [|done]. split; [|done].
    apply orb_true_iff in Hs as [Hs|Hs]; [left; by destruct fd | by right].
Qed.

Lemma filter_json_data_keeps data query :
  query ≠ "" →
  kept (lower query) (JDict (filter_json_data data query)).
Proof.
  revert query. induction data as [| | | | |items IH] using json_dict_ind;
    intros query Hne; try done.
  rewrite filter_json_data_dict.
  destruct (String.eqb query "") eqn:Hq; [by apply String.eqb_eq in Hq|].
  assert (∀ acc, kept (lower query) (JDict acc) →
            kept (lower query) (JDict (filter_loop (lower query) items acc)))
    as Hloop; [|by apply Hloop].
  induction IH as [|[key value] items [Hvalue Hlist] _ IHitems];
    intros acc Hacc; [done|].
  cbn [filter_loop]. apply IHitems.
  destruct (filter_item (lower query) key value) as [value'|] eqn:Hitem;
    [|done].
  apply kept_dict_set; [|done].
  eapply filter_item_kept; [exact Hvalue|exact Hlist| | |exact Hitem].
  - by apply lower_nonempty.
  - apply lower_idempotent.
Qed.

(** Whatever the data, the keys of every dictionary that the filter
    returns are distinct. *)
Lemma filter_json_data_unique data query :
  query ≠ "" → unique_keys (JDict (filter_json_data data query)).
Proof.
  revert query. induction data as [| | | | |items IH] using json_dict_ind;
    intros query Hne; try (by split; constructor).
  rewrite filter_json_data_dict.
  destruct (String.eqb query "") eqn:Hq; [by apply String.eqb_eq in Hq|].
  apply filter_loop_unique; [|by split; constructor].
  eapply Forall_impl; [exact IH|].
  intros [key value] [Hvalue Hlist] value'. cbn [fst snd] in *.
  pose proof (lower_nonempty query Hne) as Hne'.
  destruct value as [| | |s|l|d]; cbn [filter_item]; try done.
  - by destruct (_ || _); [intros [= <-]|].
  - destruct (truthy _); [|done]. intros [= <-].
    apply unique_keys_list.
    specialize (Hlist l eq_refl).
    clear Hvalue. induction Hlist as [|item l Hitem _ IHl]; [constructor|].
    cbn [filter_list].
    destruct item as [| | |s|l'|d];
      [exact IHl | exact IHl | exact IHl | | exact IHl |].
    + destruct (is_substring _ _); [by constructor | done].
    + destruct (truthy _); [constructor; [by apply Hitem | done] | done].
  - destruct (_ || _); [|done]. intros [= <-]. by apply Hvalue.
Qed.

(** With such a [lower], for a query that is not empty, what the filter
    returns has the shape
    [kept]: it holds no number, boolean or null, no empty list, every
    string in it contains the query in lower case or sits under a key
    that does, and every dictionary in it is non-empty or sits under
    such a key; and the keys of every dictionary in it are distinct,
    whatever the data were. *)
Theorem filter_json_data_kept data query :
  query ≠ "" →
  kept (lower query) (JDict (filter_json_data data query))
  ∧ unique_keys (JDict (filter_json_data data query)).
Proof.
  intros Hne. split;
    [by apply filter_json_data_keeps | by apply filter_json_data_unique].
Qed.

End Laws.

End Filter.

Lemma lower_char_idempotent c :
  Sample.lower_char (Sample.lower_char c) = Sample.lower_char c.
Proof.
  unfold Sample.lower_char.
  destruct ((65 <=? N_of_ascii c)%N && (N_of_ascii c <=? 90)%N) eqn:Hup;
    [|by rewrite Hup].
  apply andb_true_iff in Hup as [Hlo%N.leb_le Hhi%N.leb_le].
  rewrite N_ascii_embedding by lia.
  replace ((65 <=? N_of_ascii c + 32)%N && (N_of_ascii c + 32 <=? 90)%N)
    with false; [done|].
  symmetry. apply andb_false_iff. right. apply N.leb_gt. lia.
Qed.

Lemma ascii_lower_idempotent s :
  Sample.ascii_lower (Sample.ascii_lower s) = Sample.ascii_lower s.
Proof.
  induction s as [|c s IH]; simpl; [done|].
  by rewrite lower_char_idempotent, IH.
Qed.

Lemma ascii_lower_nonempty s : s ≠ "" → Sample.ascii_lower s ≠ "".
Proof. by destruct s. Qed.

(** A dictionary with one string that contains the query and one number:
    the string is kept, the number is not, and filtering again changes
    nothing. *)
Lemma filter_json_data_kept_witness :
  Client.kept (H := Sample.library) "read"
    (Json.JDict
       (Client.filter_json_data (H := Sample.library)
          (Json.JDict [("name", Json.JStr "README.md");
                       ("lines", Json.JNum 12)]) "READ"))
  ∧ Client.filter_json_data (H := Sample.library)
      (Json.JDict [("name", Json.JStr "README.md"); ("lines", Json.JNum 12)])
      "READ"
    = [("name", Json.JStr "README.md")].
Proof.
  split; [|reflexivity].
  apply (filter_json_data_kept (H := Sample.library)
           ascii_lower_idempotent ascii_lower_nonempty
           (Json.JDict [("name", Json.JStr "README.md");
                        ("lines", Json.JNum 12)]) "READ" ltac:(discriminate)).
Defined.

Lemma filter_json_data_items_witness :
  (Client.filter_json_data (H := Sample.library)
     (Json.JDict [("name", Json.JStr "README.md"); ("lines", Json.JNum 12)])
     "READ").*1 `sublist_of` ["name"; "lines"].
Proof.
  apply (filter_json_data_items (H := Sample.library)
           [("name", Json.JStr "README.md"); ("lines", Json.JNum 12)] "READ").
  by repeat constructor; set_solver.
Defined.

Lemma display_json_viewer_no_results_witness :
  Client.display_json_viewer (H := Sample.library)
    [("total_files", Json.JNum 4); ("total_lines", Json.JNum 2)] "total"
  = Client.NoResults.
Proof.
  apply (display_json_viewer_no_results (H := Sample.library)
           [("total_files", Json.JNum 4); ("total_lines", Json.JNum 2)]
           "total"); [discriminate | by repeat constructor].
Defined.

Section Views.
Import Json Client.

Lemma get_missing key default d :
  has_key key d = false → get key default d = default.
Proof.
  unfold has_key. intros Hk%bool_decide_eq_false.
  induction d as [|[k v] d IH]; [done|]. csimpl in Hk.
  apply not_elem_of_cons in Hk as [Hne Hk]. simpl.
  destruct (String.eqb k key) eqn:Heq; [|by apply IH].
  apply String.eqb_eq in Heq. congruence.
Qed.

Lemma length_chars s : length (chars s) = len s.
Proof.
  unfold chars. induction s as [|c s IH]; [done|].
  cbn [chars_from len]. destruct (chars_from s) as [continuation cs].
  destruct (is_continuation c); simpl in *; by rewrite IH.
Qed.

Lemma py_iter_length v n each :
  py_len v = inr n → py_iter v = inr each → length each = n.
Proof.
  destruct v as [| | |s|l|d]; simpl; try done; intros [= <-] [= <-].
  - by rewrite length_fmap, length_chars.
  - done.
  - by rewrite !length_fmap.
Qed.

Lemma add_languages_length files languages result :
  add_languages files languages = inr result →
  (length result ≤ length languages + length files)%nat.
Proof.
  revert languages. induction files as [|file files IH]; intros languages.
  { simpl. intros [= <-]. lia. }
  simpl. destruct file as [| | | | |d]; try done.
  destruct (has_key "language" d).
  - destruct (hash_key _) as [e|h]; [done|].
    intros Hrun%IH. destruct (decide (h ∈ languages)); [lia|].
    rewrite length_app in Hrun. simpl in *. lia.
  - intros Hrun%IH. lia.
Qed.

Lemma add_languages_NoDup files languages result :
  NoDup languages → add_languages files languages = inr result →
  NoDup result.
Proof.
  revert languages. induction files as [|file files IH]; intros languages Hnd.
  { simpl. by intros [= <-]. }
  simpl. destruct file as [| | | | |d]; try done.
  destruct (has_key "language" d); [|by apply IH].
  destruct (hash_key _) as [e|h]; [done|]. apply IH.
  destruct (decide (h ∈ languages)); [done|].
  apply NoDup_app. split; [done|]. split; [|apply NoDup_singleton].
  by intros h' Hh' ->%list_elem_of_singleton.
Qed.

(** The metrics of results that have no [files] key are four zeros, and
    such are the results of the server, which names its keys [success],
    [repo_map], [repo_tour], [repo_url] and [error]; and whenever the
    metrics can be computed, there are no more languages than files. *)
Theorem render_metrics_files data :
  (has_key "files" data = false → render_metrics data = inr (O, O, O, O))
  ∧ (∀ b, render_metrics (body_json b) = inr (O, O, O, O))
  ∧ (∀ total_files total_functions total_imports languages,
       render_metrics data
       = inr (total_files, total_functions, total_imports, languages) →
       (languages ≤ total_files)%nat).
Proof.
  split; [|split].
  - intros Hk. unfold render_metrics. by rewrite get_missing.
  - by intros [m tour url|error].
  - intros total_files total_functions total_imports languages.
    unfold render_metrics.
    destruct (py_len _) as [e|n] eqn:Hlen; [done|].
    destruct (py_iter _) as [e|each] eqn:Hiter; [done|].
    destruct (sum_len "functions" each) as [e|fn]; [done|].
    destruct (sum_len "imports" each) as [e|im]; [done|].
    destruct (add_languages each []) as [e|langs] eqn:Hl; [done|].
    intros [= <- <- <- <-].
    apply add_languages_length in Hl.
    rewrite (py_iter_length _ _ _ Hlen Hiter) in Hl. simpl in Hl. lia.
Qed.

(** The tour is shown only from the keys [guided_tour] and
    [repotour.md]: for results that have neither, and so for every
    result of the server, whose tour is under [repo_tour], the viewer
    shows the warning, and no summary either. *)
Theorem display_markdown_viewer_server results :
  (has_key "guided_tour" results = false →
   has_key "repotour.md" results = false →
   display_markdown_viewer results
   = NoTour (if has_key "summary" results
             then Some (get "summary" JNull results) else None))
  ∧ ∀ b, display_markdown_viewer (body_json b) = NoTour None.
Proof.
  split.
  - intros Hg Hr. unfold display_markdown_viewer.
    by rewrite (get_missing "guided_tour"), (get_missing "repotour.md").
  - by intros [m tour url|error].
Qed.

End Views.

(** Results with the keys of the server and results with a [files]
    list. *)
Lemma render_metrics_files_witness :
  Client.render_metrics [("success", Json.JBool false)] = inr (O, O, O, O)
  ∧ Client.render_metrics
      [("files",
        Json.JList
          [Json.JDict [("language", Json.JStr "py");
                       ("functions", Json.JList [Json.JStr "f"])];
           Json.JDict [("language", Json.JStr "py")]])]
    = inr (2, 1, 0, 1)%nat.
Proof.
  split; [|reflexivity].
  apply (render_metrics_files [("success", Json.JBool false)]). reflexivity.
Defined.

Lemma display_markdown_viewer_server_witness :
  Client.display_markdown_viewer
    [("repo_tour", Json.JStr "# Repository Tour")]
  = Client.NoTour None.
Proof.
  apply (display_markdown_viewer_server
           [("repo_tour", Json.JStr "# Repository Tour")]); reflexivity.
Defined.

Section Urls.
Import Client.
Context `{UrlLibrary}.

Lemma split_no_separator sep s :
  Forall (λ seg, contains sep seg = false) (split sep s).
Proof.
  induction s as [|c s IH]; simpl; [by repeat constructor|].
  destruct (Ascii.eqb c sep) eqn:Hc; [by constructor|].
  pose proof (split_nonempty sep s) as Hne.
  destruct (split sep s) as [|seg segs]; [done|].
  apply Forall_cons in IH as [Hseg Hsegs].
  constructor; [|done]. simpl. by rewrite Hc.
Qed.

Lemma lstrip_head c s :
  lstrip c s = "" ∨ ∃ c' s', lstrip c s = String c' s' ∧ Ascii.eqb c' c = false.
Proof.
  induction s as [|c' s IH]; simpl; [by left|].
  destruct (Ascii.eqb c' c) eqn:Hc; [done|]. right. eauto.
Qed.

Lemma rstrip_head c c' s :
  Ascii.eqb c' c = false → ∃ r, rstrip c (String c' s) = String c' r.
Proof.
  intros Hc. simpl. destruct (rstrip c s); [|eauto]. rewrite Hc. eauto.
Qed.

Lemma strip_head c s :
  strip c s = "" ∨ ∃ c' r, strip c s = String c' r ∧ Ascii.eqb c' c = false.
Proof.
  unfold strip. destruct (lstrip_head c s) as [->|(c' & s' & -> & Hc)];
    [by left|].
  destruct (rstrip_head c c' s' Hc) as [r ->]. right. eauto.
Qed.

(** A URL that [validate_github_url] accepts is one for which
    [extract_repo_info] returns the three keys; the owner is not empty,
    neither name holds a slash, and [full_name] is the two joined by a
    slash.  The host is [github.com] and the path does not end in
    [.git]. *)
Theorem validate_github_url_extract url :
  validate_github_url url = true →
  ∃ parsed owner repo,
    urlparse url = inr parsed
    ∧ netloc parsed = "github.com"
    ∧ endswith ".git" (path parsed) = false
    ∧ extract_repo_info url
      = [("owner", owner); ("repo", repo);
         ("full_name", owner +:+ "/" +:+ repo)]
    ∧ owner ≠ ""
    ∧ contains "/" owner = false ∧ contains "/" repo = false.
Proof.
  unfold validate_github_url, extract_repo_info.
  destruct (urlparse url) as [e|parsed]; [done|].
  intros [[Hhost%bool_decide_eq_true Hlen%Nat.leb_le]%andb_true_iff
            Hgit%negb_true_iff]%andb_true_iff.
  pose proof (split_no_separator "/" (strip "/" (path parsed))) as Hsep.
  destruct (strip_head "/" (path parsed)) as [Hs|(c' & r & Hs & Hc)];
    rewrite Hs in *; [simpl in Hlen; lia|].
  assert (∃ seg, hd "" (split "/" (String c' r)) = String c' seg) as [seg Hhd].
  { simpl. rewrite Hc.
    pose proof (split_nonempty "/" r) as Hne.
    destruct (split "/" r) as [|seg segs]; [done|]. by exists seg. }
  destruct (split "/" (String c' r)) as [|owner [|repo rest]];
    [simpl in Hlen; lia | simpl in Hlen; lia|].
  apply Forall_cons in Hsep as [Howner [Hrepo _]%Forall_cons].
  simpl in Hhd. subst owner.
  exists parsed, (String c' seg), repo. by repeat split.
Qed.

End Urls.

(** A URL parsed into the host [github.com] and the path [/o/r/]. *)
Lemma validate_github_url_extract_witness :
  Client.extract_repo_info
    (H := {| Client.urlparse _ := inr (Client.ParsedUrl "github.com" "/o/r/") |})
    "https://github.com/o/r/"
  = [("owner", "o"); ("repo", "r"); ("full_name", "o/r")].
Proof.
  destruct (validate_github_url_extract
              (H := {| Client.urlparse _ :=
                         inr (Client.ParsedUrl "github.com" "/o/r/") |})
              "https://github.com/o/r/" eq_refl)
    as (parsed & owner & repo & _ & _ & _ & Hinfo & _).
  rewrite Hinfo. vm_compute in Hinfo. by inversion Hinfo.
Defined.

(** ** Further properties of the endpoint *)

Section EndToEnd.
Context `{Library}.

(** In every successful response the locator is echoed, the workspace
    made for the request is the one directory taken off the disk, and
    the tour is generated from the very tree, counters and dependency
    view that the report carries. *)
Theorem analyze_repository_success_shape repo_url env d m tour url d' :
  analyze_repository repo_url env d = (Success m tour url, d') →
  url = repo_url
  ∧ d' = d ∖ {[mkdtemp env]}
  ∧ metadata_repo_path m = mkdtemp env
  ∧ ∃ st,
      tour = generate_repo_tour st
      ∧ structure st = repository_structure m
      ∧ total_files st = stat_total_files (map_statistics m)
      ∧ total_lines st = stat_total_lines (map_statistics m)
      ∧ sorted_dependencies 10 st = top_dependencies (map_statistics m)
      ∧ key_dependencies st = take 5 (top_dependencies (map_statistics m)).
Proof.
  unfold analyze_repository, analyze_repository_try, clone_repository.
  destruct (git_clone env) as [[]|root]; simpl; try done.
  unfold generate_repo_map.
  destruct (build_file_tree _ _ _ _) as [[e|tree] st]; simpl; [done|].
  unfold rmtree. destruct (rmtree_raises env); simpl; [done|].
  intros [= <- <- <- <-]. split; [done|].
  split; [set_solver|]. split; [done|].
  exists (set_structure tree st). do 5 (split; [done|]).
  unfold key_dependencies, sorted_dependencies.
  cbn [top_dependencies map_statistics]. by rewrite take_take.
Qed.

(** When the clone succeeds into a directory in which the only listings
    and [stat] calls that raise, raise a [PermissionError], the traversal
    completes and the response is decided by [shutil.rmtree] alone: if it
    removes the workspace, the request is answered with the success
    dictionary and the workspace is off the disk; if it raises, the
    request is answered with the failure dictionary that carries its
    text, and the workspace is still on disk. *)
Theorem analyze_repository_succeeds repo_url env d root :
  git_clone env = inr root →
  is_dir root = true → permission_only root = true →
  match rmtree_raises env with
  | None =>
      ∃ m tour,
        analyze_repository repo_url env d
        = (Success m tour repo_url, d ∖ {[mkdtemp env]})
  | Some e =>
      analyze_repository repo_url env d
      = (Failure (str e), {[mkdtemp env]} ∪ d)
  end.
Proof.
  intros Hclone Hdir Hperm.
  destruct (build_file_tree_permission_only (Path [] root) 4 0 init
              Hdir Hperm) as (tree & st & Hbuild).
  unfold analyze_repository, analyze_repository_try, clone_repository.
  rewrite Hclone. simpl. unfold generate_repo_map. rewrite Hbuild. simpl.
  unfold rmtree. destruct (rmtree_raises env) as [e|]; simpl; [done|].
  eexists _, _. f_equal. set_solver.
Qed.

End EndToEnd.

(** A repository with a directory that cannot be opened: the traversal
    passes it, [shutil.rmtree] does not, and the caller gets the failure
    dictionary. *)
Lemma analyze_repository_succeeds_witness :
  analyze_repository (H := Sample.library) "https://github.com/o/r"
    (Environment "/tmp/tmpab12cd"
       (inr (Directory
               [("a.txt", RegularFile (inr "x"));
                ("locked", DirectoryRaises (PermissionError "denied"))]))
       (Some (PermissionError "[Errno 13] Permission denied: 'locked'"))) ∅
  = (Failure "[Errno 13] Permission denied: 'locked'",
     {["/tmp/tmpab12cd"]} ∪ ∅).
Proof.
  apply (analyze_repository_succeeds (H := Sample.library)
           "https://github.com/o/r"
           (Environment "/tmp/tmpab12cd"
              (inr (Directory
                      [("a.txt", RegularFile (inr "x"));
                       ("locked",
                        DirectoryRaises (PermissionError "denied"))]))
              (Some (PermissionError
                       "[Errno 13] Permission denied: 'locked'"))) ∅
           (Directory
              [("a.txt", RegularFile (inr "x"));
               ("locked", DirectoryRaises (PermissionError "denied"))]));
    reflexivity.
Defined.

Lemma analyze_repository_success_shape_witness :
  ∃ m tour,
    analyze_repository (H := Sample.library) "https://github.com/o/r"
      (Sample.clone_ok Sample.workspace) ∅
    = (Success m tour "https://github.com/o/r", ∅ ∖ {["/tmp/tmpab12cd"]})
    ∧ metadata_repo_path m = "/tmp/tmpab12cd".
Proof.
  destruct (analyze_repository (H := Sample.library) "https://github.com/o/r"
              (Sample.clone_ok Sample.workspace) ∅) as [[m tour url|err] d']
    eqn:Hrun; [|by vm_compute in Hrun].
  destruct (analyze_repository_success_shape (H := Sample.library)
              _ _ _ _ _ _ _ Hrun) as (-> & -> & Hpath & _).
  by exists m, tour.
Defined.

Section Imports.
Context `{Library}.

Lemma visit_imports l st n :
  imports (visit (l, st) n).1 = imports l ++ import_entries n.
Proof.
  destruct n as [names|module names| | |].
  - by rewrite visit_import.
  - simpl. destruct module as [[|c m]|]; simpl; by rewrite ?app_nil_r.
  - simpl. by rewrite app_nil_r.
  - simpl. destruct (existsb _ _); simpl; by rewrite app_nil_r.
  - simpl. by rewrite app_nil_r.
Qed.

Lemma foldl_visit_imports nodes l st :
  imports (foldl visit (l, st) nodes).1
  = imports l ++ (nodes ≫= import_entries).
Proof.
  revert l st. induction nodes as [|n nodes IH]; intros l st.
  - csimpl. by rewrite app_nil_r.
  - rewrite foldl_visit_cons. pose proof (visit_imports l st n) as Hv.
    destruct (visit (l, st) n) as [l' st']. simpl in Hv.
    rewrite IH, Hv. csimpl. by rewrite app_assoc.
Qed.

(** The [imports] of a Python file that parses are, in the order of the
    walk, the names of its [import] statements and ["from <module>"] for
    its [from] imports that name a module (a relative [from . import x]
    adds nothing); its [lines] are those of the content, and they are
    what the file adds to [total_lines]. *)
Theorem analyze_python_file_imports content tree st :
  ast_parse content = inr tree →
  ∃ cls funs st',
    analyze_python_file (inr content) st
    = (PythonAnalysis (count_lines content) (walk tree ≫= import_entries)
         cls funs (content_preview content), st')
    ∧ total_lines st' = total_lines st + count_lines content
    ∧ total_files st' = total_files st.
Proof.
  intros Hparse. unfold analyze_python_file. rewrite Hparse.
  unfold walk_loop.
  pose proof (foldl_visit_imports (walk tree) (PyLists [] [] []) st) as Hi.
  pose proof (foldl_visit_counters (walk tree) (PyLists [] [] []) st)
    as [Hl Hf].
  destruct (foldl visit _ (walk tree)) as [l st']. simpl in *.
  eexists _, _, _. rewrite Hi. split; [done|]. simpl. split; [lia|done].
Qed.

End Imports.

(** The file of scenario 2. *)
Lemma analyze_python_file_imports_witness :
  ∃ cls funs st',
    analyze_python_file (H := Sample.library) (inr "scenario2") init
    = (PythonAnalysis 1 ["os"; "os.path"] cls funs "scenario2", st').
Proof.
  destruct (analyze_python_file_imports (H := Sample.library) "scenario2"
              Sample.scenario2 init eq_refl)
    as (cls & funs & st' & Hrun & _).
  by exists cls, funs, st'.
Defined.

Section Release.
Context `{Library}.

(** The directory made for a request is off the disk on return exactly
    when the response is the success dictionary: after every failure,
    that of the clone included, it is still there. *)
Theorem workspace_released_iff_success repo_url env d b d' :
  analyze_repository repo_url env d = (b, d') →
  (mkdtemp env ∉ d' ↔ success b = true)
  ∧ (mkdtemp env ∈ d' ↔ success b = false).
Proof.
  intros Hrun. destruct (success b) eqn:Hb.
  - pose proof (analyze_repository_success_releases _ _ _ _ _ Hrun Hb).
    by split; split.
  - pose proof (analyze_repository_failure_keeps _ _ _ _ _ Hrun Hb).
    by split; split.
Qed.

End Release.

(** A request whose traversal is aborted leaves its directory behind. *)
Lemma workspace_released_iff_success_witness :
  "/tmp/tmpab12cd"
  ∈ (analyze_repository (H := Sample.library) "https://github.com/o/r"
       (Sample.clone_ok Sample.failing_workspace) {["/tmp/other"]}).2.
Proof.
  apply (workspace_released_iff_success (H := Sample.library)
           "https://github.com/o/r"
           (Sample.clone_ok Sample.failing_workspace) {["/tmp/other"]}
           (Failure "[Errno 5] Input/output error")
           (analyze_repository (H := Sample.library) "https://github.com/o/r"
              (Sample.clone_ok Sample.failing_workspace)
              {["/tmp/other"]}).2).
  - vm_compute. reflexivity.
  - reflexivity.
Defined.
